(** * HTUAssistant: matching and ranking engine of the directory bot

    A shallow embedding of the core of [utils.js] (class [HTUAssistant]):
    the normalizer, the two similarity scorers, the token-aware scorer,
    the ranked searches over doctors and clubs, the loaders with [reload],
    the regex-driven intent extractor, and the smaller operations around
    them: the constructor, browsing by department, the suggestions, the
    building legend, duplicate detection and [escapeMarkdown].

    Conventions of the embedding.
    - A JavaScript string is the list of its UTF-16 code units ([jsstring]).
    - JavaScript numbers are IEEE 754 doubles.  The scorers are given
      twice: in exact rationals ([Q], module [Similarity]), of which
      reflexivity, symmetry and range are proved, and in binary64 as the
      engine computes them (module [Binary64], on the kernel's floats).
      The searches use the latter: their fuzzy tier compares a similarity
      with 0.70 and rounds a multiple of it, where the last bit decides.
      The suggestions compare a quotient of two lengths with 0.6, which
      rounding does not carry across the threshold, and use the former.
      Scores are integers ([Z]).
    - Functions that can raise return an [outcome].
    - The collections are typed as the data files are meant to hold them:
      arrays of doctor and club objects, and a name system that is an
      object.  A file that holds something else (an entry that is [null],
      a value that is no array) is outside the embedding: there the
      methods that read the collection throw, and [loadClubs] returns the
      empty list.
    - The Unicode data a JavaScript engine ships (case mapping, canonical
      decomposition, the Diacritic and Punctuation properties) is an
      interface, [Unicode]; general theorems hold for every instance, and
      concrete evaluations use the tabulated instance [Excerpt.tables]. *)

From Stdlib Require Import Ascii String DecimalString.
From Stdlib Require Import List NArith ZArith QArith Qround Bool.
From Stdlib Require Import Lia Lqa Permutation Sorted.
From Stdlib Require Floats.
Import ListNotations.

(* ================================================================== *)
(** ** JavaScript strings *)

Module JS.

Definition jsstring := list N.

(** A literal of the development, written with ASCII characters. *)
Definition str (s : string) : jsstring :=
  map N_of_ascii (list_ascii_of_string s).

Definition eqs (a b : jsstring) : bool :=
  if list_eq_dec N.eq_dec a b then true else false.

(** [x.length === 0], for strings and arrays alike. *)
Definition isEmpty {A : Type} (s : list A) : bool :=
  match s with [] => true | _ => false end.

(** [WhiteSpace] and [LineTerminator] of ECMAScript: what [trim] strips and
    what [\s] matches. *)
Definition isWhiteSpace (c : N) : bool :=
  ((9 <=? c) && (c <=? 13) || (c =? 32) || (c =? 160) || (c =? 0x1680)
   || (0x2000 <=? c) && (c <=? 0x200A)
   || (c =? 0x2028) || (c =? 0x2029) || (c =? 0x202F) || (c =? 0x205F)
   || (c =? 0x3000) || (c =? 0xFEFF))%N.

Fixpoint trimStart (s : jsstring) : jsstring :=
  match s with
  | c :: r => if isWhiteSpace c then trimStart r else s
  | [] => []
  end.

Definition trimEnd (s : jsstring) : jsstring := rev (trimStart (rev s)).

Definition trim (s : jsstring) : jsstring := trimEnd (trimStart s).

(** [s.split(sep)] for a one-unit separator. *)
Fixpoint split (sep : N) (s : jsstring) : list jsstring :=
  match s with
  | [] => [[]]
  | c :: r =>
      if (c =? sep)%N then [] :: split sep r
      else match split sep r with
           | h :: t => (c :: h) :: t
           | [] => [[c]]
           end
  end.

(** [s.split(' ').filter(Boolean)] *)
Definition tokens (s : jsstring) : list jsstring :=
  filter (fun t => negb (isEmpty t)) (split 32%N s).

Fixpoint startsWith (s p : jsstring) : bool :=
  match p, s with
  | [], _ => true
  | _ :: _, [] => false
  | a :: p', b :: s' => (a =? b)%N && startsWith s' p'
  end.

Fixpoint includes (s p : jsstring) : bool :=
  startsWith s p ||
  match s with
  | [] => false
  | _ :: s' => includes s' p
  end.

(** [s.replace(/\s+/g, ' ')]: every maximal run of white space becomes one
    space. *)
Fixpoint collapseFrom (inRun : bool) (s : jsstring) : jsstring :=
  match s with
  | [] => []
  | c :: r =>
      if isWhiteSpace c
      then (if inRun then collapseFrom true r
            else 32%N :: collapseFrom true r)
      else c :: collapseFrom false r
  end.

Definition collapseSpaces (s : jsstring) : jsstring := collapseFrom false s.

End JS.
Import JS.

(* ================================================================== *)
(** ** Values and outcomes *)

(** The JavaScript values a caller can hand to the text functions.
    [JNum] is an integer-valued number; [JObj] is an array or a plain
    object, of which only what [toString()] yields is kept. *)
Inductive jsval :=
| JUndefined
| JNull
| JBool (b : bool)
| JNaN
| JNum (z : Z)
| JStr (s : jsstring)
| JObj (shown : jsstring).

Definition truthy (v : jsval) : bool :=
  match v with
  | JUndefined | JNull | JNaN => false
  | JBool b => b
  | JNum z => negb (z =? 0)%Z
  | JStr s => negb (isEmpty s)
  | JObj _ => true
  end.

(** [String(v)] *)
Definition ToString (v : jsval) : jsstring :=
  match v with
  | JUndefined => str "undefined"
  | JNull => str "null"
  | JBool true => str "true"
  | JBool false => str "false"
  | JNaN => str "NaN"
  | JNum z => str (NilZero.string_of_int (Z.to_int z))
  | JStr s => s
  | JObj shown => shown
  end.

Inductive exn :=
| TypeError (what : string)
| Error (message : string).

(** [String(e)] for a caught exception. *)
Definition describe (e : exn) : string :=
  match e with
  | TypeError w => ("TypeError: " ++ w)%string
  | Error m => ("Error: " ++ m)%string
  end.

Inductive outcome (A : Type) :=
| Returns (a : A)
| Throws (e : exn).
Arguments Returns {A} a.
Arguments Throws {A} e.

Definition bind {A B} (m : outcome A) (k : A -> outcome B) : outcome B :=
  match m with
  | Returns a => k a
  | Throws e => Throws e
  end.

Notation "x <- m ;; k" := (bind m (fun x => k))
  (at level 61, m at next level, right associativity).

(* ================================================================== *)
(** ** Unicode data of the host engine *)

(** What [normalize] and [toLowerCase] take from the engine's Unicode
    tables.  The property tests are per code unit: they are those of the
    Basic Multilingual Plane, where code units and code points coincide. *)
Class Unicode := {
  toLowerCase : jsstring -> jsstring;   (* String.prototype.toLowerCase *)
  nfd : jsstring -> jsstring;           (* s.normalize('NFD') *)
  isDiacritic : N -> bool;              (* \p{Diacritic} *)
  isPunctuation : N -> bool             (* \p{Punctuation} *)
}.

(** An excerpt of the Unicode Character Database: Basic Latin, Latin-1
    Supplement, the combining marks U+0300..U+034E and U+20D0..U+20DC.
    Code units outside the excerpt are left alone by every table. *)
Module Excerpt.

Definition between (lo hi c : N) : bool := ((lo <=? c) && (c <=? hi))%N.

Definition lowerUnit (c : N) : N :=
  if between 0x41 0x5A c then (c + 32)%N
  else if between 0xC0 0xDE c && negb (c =? 0xD7)%N then (c + 32)%N
  else c.

(** Canonical combining class. *)
Definition ccc (c : N) : N :=
  if between 0x300 0x314 c then 230 else
  if (c =? 0x315)%N then 232 else
  if between 0x316 0x319 c then 220 else
  if (c =? 0x31A)%N then 232 else
  if (c =? 0x31B)%N then 216 else
  if between 0x31C 0x320 c then 220 else
  if between 0x321 0x322 c then 202 else
  if between 0x323 0x326 c then 220 else
  if between 0x327 0x328 c then 202 else
  if between 0x329 0x333 c then 220 else
  if between 0x334 0x338 c then 1 else
  if between 0x339 0x33C c then 220 else
  if between 0x33D 0x344 c then 230 else
  if (c =? 0x345)%N then 240 else
  if (c =? 0x346)%N then 230 else
  if between 0x347 0x349 c then 220 else
  if between 0x34A 0x34C c then 230 else
  if between 0x34D 0x34E c then 220 else
  if between 0x20D0 0x20D1 c then 230 else
  if between 0x20D2 0x20D3 c then 1 else
  if between 0x20D4 0x20D7 c then 230 else
  if between 0x20D8 0x20DA c then 1 else
  if between 0x20DB 0x20DC c then 230 else 0.

(** Canonical decompositions of the Latin-1 letters: base letter and
    combining mark. *)
Definition latin1Decomposition : list (N * (N * N)) :=
  [ (0xC0,(0x41,0x300)); (0xC1,(0x41,0x301)); (0xC2,(0x41,0x302));
    (0xC3,(0x41,0x303)); (0xC4,(0x41,0x308)); (0xC5,(0x41,0x30A));
    (0xC7,(0x43,0x327)); (0xC8,(0x45,0x300)); (0xC9,(0x45,0x301));
    (0xCA,(0x45,0x302)); (0xCB,(0x45,0x308)); (0xCC,(0x49,0x300));
    (0xCD,(0x49,0x301)); (0xCE,(0x49,0x302)); (0xCF,(0x49,0x308));
    (0xD1,(0x4E,0x303)); (0xD2,(0x4F,0x300)); (0xD3,(0x4F,0x301));
    (0xD4,(0x4F,0x302)); (0xD5,(0x4F,0x303)); (0xD6,(0x4F,0x308));
    (0xD9,(0x55,0x300)); (0xDA,(0x55,0x301)); (0xDB,(0x55,0x302));
    (0xDC,(0x55,0x308)); (0xDD,(0x59,0x301)); (0xE0,(0x61,0x300));
    (0xE1,(0x61,0x301)); (0xE2,(0x61,0x302)); (0xE3,(0x61,0x303));
    (0xE4,(0x61,0x308)); (0xE5,(0x61,0x30A)); (0xE7,(0x63,0x327));
    (0xE8,(0x65,0x300)); (0xE9,(0x65,0x301)); (0xEA,(0x65,0x302));
    (0xEB,(0x65,0x308)); (0xEC,(0x69,0x300)); (0xED,(0x69,0x301));
    (0xEE,(0x69,0x302)); (0xEF,(0x69,0x308)); (0xF1,(0x6E,0x303));
    (0xF2,(0x6F,0x300)); (0xF3,(0x6F,0x301)); (0xF4,(0x6F,0x302));
    (0xF5,(0x6F,0x303)); (0xF6,(0x6F,0x308)); (0xF9,(0x75,0x300));
    (0xFA,(0x75,0x301)); (0xFB,(0x75,0x302)); (0xFC,(0x75,0x308));
    (0xFD,(0x79,0x301)); (0xFF,(0x79,0x308)) ]%N.

Fixpoint lookup (c : N) (t : list (N * (N * N))) : option (N * N) :=
  match t with
  | [] => None
  | (k, v) :: r => if (c =? k)%N then Some v else lookup c r
  end.

Definition decompose (c : N) : list N :=
  match lookup c latin1Decomposition with
  | Some (b, m) => [b; m]
  | None =>
      if (c =? 0x340)%N then [0x300] else
      if (c =? 0x341)%N then [0x301] else
      if (c =? 0x343)%N then [0x313] else
      if (c =? 0x344)%N then [0x308; 0x301] else [c]
  end%N.

(** Canonical ordering: a combining mark moves left over the marks of
    greater combining class that precede it.  [out] is the text placed so
    far, last unit first. *)
Fixpoint placeMark (c : N) (out : list N) : list N :=
  match out with
  | p :: r => if (ccc c <? ccc p)%N then p :: placeMark c r else c :: out
  | [] => [c]
  end.

Definition canonicalOrder (s : jsstring) : jsstring :=
  rev (fold_left
         (fun out c => if (ccc c =? 0)%N then c :: out else placeMark c out)
         s []).

Definition diacritic (c : N) : bool :=
  (c =? 0x5E)%N || (c =? 0x60)%N || (c =? 0xA8)%N || (c =? 0xAF)%N
  || (c =? 0xB4)%N || (c =? 0xB7)%N || (c =? 0xB8)%N
  || between 0x300 0x34E c.

Definition punctuation (c : N) : bool :=
  existsb (N.eqb c)
    [ 0x21; 0x22; 0x23; 0x25; 0x26; 0x27; 0x28; 0x29; 0x2A; 0x2C; 0x2D;
      0x2E; 0x2F; 0x3A; 0x3B; 0x3F; 0x40; 0x5B; 0x5C; 0x5D; 0x5F; 0x7B;
      0x7D; 0xA1; 0xA7; 0xAB; 0xB6; 0xB7; 0xBB; 0xBF ]%N.

#[global] Instance tables : Unicode := {|
  toLowerCase := map lowerUnit;
  nfd := fun s => canonicalOrder (flat_map decompose s);
  isDiacritic := diacritic;
  isPunctuation := punctuation
|}.

End Excerpt.

(* ================================================================== *)
(** ** The normalizer *)

Section Normalizer.
Context {U : Unicode}.

(** [normalize(text)] *)
Definition normalize (text : jsval) : jsstring :=
  if negb (truthy text)
     && negb (match text with JNum z => (z =? 0)%Z | _ => false end)
  then []
  else
    let s := trim (toLowerCase (ToString text)) in
    (* Remove diacritics *)
    let s := filter (fun c => negb (isDiacritic c)) (nfd s) in
    (* Replace punctuation with space, collapse whitespace *)
    trim (collapseSpaces (map (fun c => if isPunctuation c then 32%N else c) s)).

End Normalizer.

(* ================================================================== *)
(** ** The similarity engine *)

Module Similarity.

(** State of the matching loop of [jaroWinkler]. *)
Record matching := {
  s1Matches : list bool;
  s2Matches : list bool;
  matches : nat
}.

Definition mark (i : nat) (flags : list bool) : list bool :=
  firstn i flags ++ true :: skipn (S i) flags.

(** The inner loop [for (j = start; j < end; j++)]: [n] slots are left to
    visit from [j]; the first free slot holding [c] is returned. *)
Fixpoint findSlot (c : N) (s2 : jsstring) (taken : list bool) (j n : nat)
  : option nat :=
  match n with
  | O => None
  | S n' =>
      if nth j taken false then findSlot c s2 taken (S j) n'
      else if negb (c =? nth j s2 0%N)%N then findSlot c s2 taken (S j) n'
      else Some j
  end.

Definition matchDistance (s1 s2 : jsstring) : Z :=
  Z.of_nat (Nat.max (length s1) (length s2)) / 2 - 1.

(** One turn of the outer loop, for index [i] of [s1]. *)
Definition matchStep (s1 s2 : jsstring) (st : matching) (i : nat) : matching :=
  let d := matchDistance s1 s2 in
  let start := Z.max 0 (Z.of_nat i - d) in
  let stop := Z.min (Z.of_nat i + d + 1) (Z.of_nat (length s2)) in
  match findSlot (nth i s1 0%N) s2 (s2Matches st)
                 (Z.to_nat start) (Z.to_nat (stop - start)) with
  | Some j => {| s1Matches := mark i (s1Matches st);
                 s2Matches := mark j (s2Matches st);
                 matches := S (matches st) |}
  | None => st
  end.

Definition findMatches (s1 s2 : jsstring) : matching :=
  fold_left (matchStep s1 s2) (seq 0 (length s1))
    {| s1Matches := repeat false (length s1);
       s2Matches := repeat false (length s2);
       matches := 0 |}.

(** [while (!s2Matches[k]) k++] on what is left of [s2] from index [k]. *)
Fixpoint skipFree (rest2 : list (N * bool)) : list (N * bool) :=
  match rest2 with
  | (_, false) :: r => skipFree r
  | _ => rest2
  end.

(** The transposition loop.  [rest2] is [s2] with its flags from index [k]
    on.  As many slots are taken in [s2] as in [s1], so the source's
    [while] always stops at a taken slot and the last branch is not
    reached ([transposition_loop_stops] below). *)
Fixpoint countTranspositions (p1 rest2 : list (N * bool)) : nat :=
  match p1 with
  | [] => 0
  | (_, false) :: r1 => countTranspositions r1 rest2
  | (c1, true) :: r1 =>
      match skipFree rest2 with
      | (c2, _) :: r2 =>
          (if (c1 =? c2)%N then 0 else 1) + countTranspositions r1 r2
      | [] => 0
      end
  end%nat.

(** The Winkler loop: common prefix, at most [n] units. *)
Fixpoint commonPrefix (n : nat) (s1 s2 : jsstring) : nat :=
  match n, s1, s2 with
  | S n', a :: r1, b :: r2 =>
      if (a =? b)%N then S (commonPrefix n' r1 r2) else 0
  | _, _, _ => 0
  end.

Definition ofNat (n : nat) : Q := inject_Z (Z.of_nat n).

(** [jaroWinkler(s1, s2)] *)
Definition jaroWinkler (s1 s2 : jsstring) : Q :=
  if isEmpty s1 || isEmpty s2 then 0 else
  let st := findMatches s1 s2 in
  if (matches st =? 0)%nat then 0 else
  let transpositions :=
    ofNat (countTranspositions (combine s1 (s1Matches st))
                               (combine s2 (s2Matches st))) / 2 in
  let mF := ofNat (matches st) in
  let jaro := (mF / ofNat (length s1) + mF / ofNat (length s2)
               + (mF - transpositions) / mF) / 3 in
  let prefix := commonPrefix 4 s1 s2 in
  jaro + ofNat prefix * (1 # 10) * (1 - jaro).

Section TokenAware.
Context {U : Unicode}.

(** The inner [forEach] of [tokenSimilarity]: best score of [tokenA]. *)
Definition bestAgainst (nb : list jsstring) (tokenA : jsstring) : Q :=
  fold_left
    (fun best tokenB =>
       let jw := jaroWinkler tokenA tokenB in
       if Qlt_le_dec best jw then jw else best)
    nb 0.

(** [tokenSimilarity(a, b)] *)
Definition tokenSimilarity (a b : jsval) : Q :=
  let na := tokens (normalize a) in
  let nb := tokens (normalize b) in
  if isEmpty na || isEmpty nb then 0 else
  let total := fold_left (fun total tokenA => total + bestAgainst nb tokenA) na 0 in
  total / ofNat (length na).

End TokenAware.

(** Row [i] of the matrix of [calculateSimilarity] from row [i - 1].
    [prev] is [matrix[i-1]] from column [j - 1] on and [left] is
    [matrix[i][j-1]]; the result is [matrix[i]] from column [j] on. *)
Fixpoint fillRow (c2 : N) (str1 : jsstring) (prev : list nat) (left : nat)
  : list nat :=
  match str1, prev with
  | c1 :: r1, diag :: ((up :: _) as prev') =>
      let v := if (c2 =? c1)%N then diag
               else Nat.min (diag + 1) (Nat.min (left + 1) (up + 1)) in
      v :: fillRow c2 r1 prev' v
  | _, _ => []
  end.

Definition nextRow (str1 : jsstring) (row : nat * list nat) (c2 : N)
  : nat * list nat :=
  let i := S (fst row) in
  (i, i :: fillRow c2 str1 (snd row) i).

(** The last row, [matrix[len2]], with its index. *)
Definition lastRow (str1 str2 : jsstring) : nat * list nat :=
  fold_left (nextRow str1) str2 (0%nat, seq 0 (S (length str1))).

Definition distance (str1 str2 : jsstring) : nat :=
  nth (length str1) (snd (lastRow str1 str2)) 0%nat.

(** [calculateSimilarity(str1, str2)] *)
Definition calculateSimilarity (str1 str2 : jsstring) : Q :=
  let len1 := length str1 in
  let len2 := length str2 in
  if (len1 =? 0)%nat then (if (len2 =? 0)%nat then 1 else 0) else
  if (len2 =? 0)%nat then 0 else
  let maxLen := Nat.max len1 len2 in
  if (maxLen =? 0)%nat then 1
  else inject_Z (Z.of_nat maxLen - Z.of_nat (distance str1 str2)) / ofNat maxLen.

End Similarity.
Import Similarity.

(* ================================================================== *)
(** ** The scorers in binary64 *)

(** The numbers the engine computes: the arithmetic of [jaroWinkler],
    [tokenSimilarity] and [calculateSimilarity] in IEEE 754 binary64,
    every operation rounded to nearest.  The loops are those of
    [Similarity]; the expressions are those of the source, operation by
    operation. *)
Module Binary64.
Import PrimFloat.
Local Open Scope float_scope.

(** A length or a count as a number (exact: both are below 2^53). *)
Definition ofNat (n : nat) : float := of_uint63 (Uint63.of_Z (Z.of_nat n)).

(** The rational a finite double is; the scorers yield no other. *)
Definition toQ (x : float) : Q :=
  match FloatOps.Prim2SF x with
  | SpecFloat.S754_finite negative m e =>
      let magnitude :=
        if (0 <=? e)%Z then inject_Z (Z.pos m * 2 ^ e)
        else (inject_Z (Z.pos m) / inject_Z (2 ^ (- e)))%Q in
      if negative then Qopp magnitude else magnitude
  | _ => 0%Q
  end.

(** [Math.round(x)]: the nearest integer, a tie going up. *)
Definition round (x : float) : Z := Qfloor (toQ x + (1 # 2))%Q.

(** [Math.max(a, b)] *)
Definition max (a b : float) : float := if a <? b then b else a.

(** The literals [0.1] and [0.70] of the source: the doubles nearest to
    them. *)
Definition tenth : float := 0x1.999999999999ap-4.
Definition seventyHundredths : float := 0x1.6666666666666p-1.

(** [jaroWinkler(s1, s2)] *)
Definition jaroWinkler (s1 s2 : jsstring) : float :=
  if isEmpty s1 || isEmpty s2 then 0 else
  let st := findMatches s1 s2 in
  if (matches st =? 0)%nat then 0 else
  let transpositions :=
    ofNat (countTranspositions (combine s1 (s1Matches st))
                               (combine s2 (s2Matches st))) / 2 in
  let mF := ofNat (matches st) in
  let jaro := (mF / ofNat (length s1) + mF / ofNat (length s2)
               + (mF - transpositions) / mF) / 3 in
  let prefix := commonPrefix 4 s1 s2 in
  jaro + ofNat prefix * tenth * (1 - jaro).

Section TokenAware.
Context {U : Unicode}.

(** The inner [forEach] of [tokenSimilarity]: best score of [tokenA]. *)
Definition bestAgainst (nb : list jsstring) (tokenA : jsstring) : float :=
  fold_left
    (fun best tokenB =>
       let jw := jaroWinkler tokenA tokenB in
       if best <? jw then jw else best)
    nb 0.

(** [tokenSimilarity(a, b)] *)
Definition tokenSimilarity (a b : jsval) : float :=
  let na := tokens (normalize a) in
  let nb := tokens (normalize b) in
  if isEmpty na || isEmpty nb then 0 else
  let total := fold_left (fun total tokenA => total + bestAgainst nb tokenA) na 0 in
  total / ofNat (length na).

End TokenAware.

(** [calculateSimilarity(str1, str2)] *)
Definition calculateSimilarity (str1 str2 : jsstring) : float :=
  let len1 := length str1 in
  let len2 := length str2 in
  if (len1 =? 0)%nat then (if (len2 =? 0)%nat then 1 else 0) else
  if (len2 =? 0)%nat then 0 else
  let maxLen := Nat.max len1 len2 in
  if (maxLen =? 0)%nat then 1
  else (ofNat maxLen - ofNat (distance str1 str2)) / ofNat maxLen.

End Binary64.

(* ================================================================== *)
(** ** Records and configuration *)

(** A doctor as [JSON.parse] delivers it: every field is whatever value the
    data file holds, [JUndefined] when the property is missing. *)
Record Doctor := {
  name : jsval;
  department : jsval;
  office : jsval;
  school : jsval;
  email : jsval
}.

(** A club as [loadClubs] cleans it: every field is a string. *)
Record Club := {
  clubType : jsstring;      (* 'Club/ Volunteer team' *)
  clubName : jsstring;      (* 'Name of it ' *)
  clubEmail : jsstring;     (* 'The email' *)
  instagram : jsstring;     (* 'Instagram account link' *)
  about : jsstring          (* 'What is yours club or volunteer team about ?' *)
}.

(** The part of [config.js] the engine reads.  [MAX_RESULTS] is
    [Number(process.env.MAX_RESULTS || 10)], an integer here. *)
Record Config := {
  MAX_RESULTS : Z
}.

Definition defaultConfig : Config := {| MAX_RESULTS := 10 |}.

(* ================================================================== *)
(** ** Ranked search *)

Module Ranking.
Local Open Scope Z_scope.

(** An entry of [results]: [{ doctor, score, matchedFields, normName }]. *)
Record Scored (R : Type) := {
  item : R;
  score : Z;
  matchedFields : list string;
  normName : jsstring
}.
Arguments item {R} _.
Arguments score {R} _.
Arguments matchedFields {R} _.
Arguments normName {R} _.

(** [queryTokens.length > 0 && nameTokens[0] &&
     nameTokens[0].startsWith(queryTokens[0])] *)
Definition firstTokenStarts (queryTokens nameTokens : list jsstring) : bool :=
  match queryTokens, nameTokens with
  | q0 :: _, n0 :: _ => startsWith n0 q0
  | _, _ => false
  end.

(** The loop over [queryTokens] that computes [allPrefix]. *)
Fixpoint everyTokenPrefix (queryTokens nameTokens : list jsstring) : bool :=
  match queryTokens with
  | [] => true
  | q :: qs =>
      match nameTokens with
      | n :: ns => startsWith n q && everyTokenPrefix qs ns
      | [] => false
      end
  end.

(** A [Map] in insertion order. *)
Fixpoint mapGet {V} (key : jsstring) (m : list (jsstring * V)) : option V :=
  match m with
  | [] => None
  | (k, v) :: r => if eqs k key then Some v else mapGet key r
  end.

Fixpoint mapSet {V} (key : jsstring) (v : V) (m : list (jsstring * V))
  : list (jsstring * V) :=
  match m with
  | [] => [(key, v)]
  | (k, x) :: r => if eqs k key then (k, v) :: r else (k, x) :: mapSet key v r
  end.

(** [results.forEach(r => { ... bestByName.set(key, r) })] *)
Definition keepBest {R} (key : Scored R -> jsstring)
  (bestByName : list (jsstring * Scored R)) (r : Scored R)
  : list (jsstring * Scored R) :=
  match mapGet (key r) bestByName with
  | None => mapSet (key r) r bestByName
  | Some prev =>
      if (score prev <? score r)%Z then mapSet (key r) r bestByName
      else bestByName
  end.

(** [Array.from(bestByName.values())] *)
Definition dedupe {R} (key : Scored R -> jsstring) (results : list (Scored R))
  : list (Scored R) :=
  map snd (fold_left (keepBest key) results []).

(** [Array.prototype.sort] with the comparator [(a, b) => b.score - a.score].
    The sort is stable (ECMAScript 2019), so its result is the one of any
    stable sort; [r] enters before the first entry it does not rank below. *)
Fixpoint insertByScore {R} (r : Scored R) (sorted : list (Scored R))
  : list (Scored R) :=
  match sorted with
  | [] => [r]
  | y :: l =>
      if (0 <? score y - score r)%Z then y :: insertByScore r l
      else r :: sorted
  end.

Definition sortByScore {R} (l : list (Scored R)) : list (Scored R) :=
  fold_right insertByScore [] l.

(** [arr.slice(0, stop)] *)
Definition slice0 {A} (stop : Z) (l : list A) : list A :=
  let len := Z.of_nat (length l) in
  firstn (Z.to_nat (if (stop <? 0)%Z then Z.max (len + stop) 0
                    else Z.min stop len)) l.

Section Search.
Context {U : Unicode}.

(** [v ? v.toString().trim() : ''] *)
Definition fieldText (v : jsval) : jsstring :=
  if truthy v then trim (ToString v) else [].

(** The name cascade of [search], with the tag pushed on [matchedFields]. *)
Definition nameScore (normName normQuery : jsstring)
  (nameTokens queryTokens : list jsstring) : Z * list string :=
  (* 1) Exact normalized name match (highest priority) *)
  if negb (isEmpty normName) && eqs normName normQuery
  then (350, ["exact_name"%string])
  (* 2) Full name starts with query OR first token starts with query *)
  else if startsWith normName normQuery
          || firstTokenStarts queryTokens nameTokens
  then (220, ["name_start"%string])
  (* 3) Token-wise prefix matching *)
  else if negb (isEmpty queryTokens)
          && everyTokenPrefix queryTokens nameTokens
  then (200, ["tokens_prefix"%string])
  (* 4) Name contains (weaker) *)
  else if includes normName normQuery
  then (90, ["name_contains"%string])
  (* 5) Fuzzy fallback *)
  else
    let tokenSim := Binary64.tokenSimilarity (JStr normName) (JStr normQuery) in
    let levSim := Binary64.calculateSimilarity normName normQuery in
    let combined := Binary64.max tokenSim levSim in
    if PrimFloat.ltb Binary64.seventyHundredths combined
    then (Binary64.round (PrimFloat.mul (Binary64.ofNat 80) combined),
          ["fuzzy_name"%string])
    else (0, []).

(** Department exact or contains; office exact or contains. *)
Definition exactOrContains (field searchTerm : jsstring)
  (exact : Z) (exactTag : string) (part : Z) (partTag : string)
  : Z * list string :=
  if negb (isEmpty field) && eqs (toLowerCase field) searchTerm
  then (exact, [exactTag])
  else if negb (isEmpty field) && includes (toLowerCase field) searchTerm
  then (part, [partTag])
  else (0, []).

(** School and email (lower weight). *)
Definition containsOnly (field searchTerm : jsstring)
  (part : Z) (partTag : string) : Z * list string :=
  if negb (isEmpty field) && includes (toLowerCase field) searchTerm
  then (part, [partTag])
  else (0, []).

(** The body of [this.doctors.forEach(doctor => ...)] up to the test
    [score > 0]. *)
Definition scoreDoctor (searchTerm normQuery : jsstring)
  (queryTokens : list jsstring) (doctor : Doctor) : Scored Doctor :=
  let name := fieldText (name doctor) in
  let normName := normalize (JStr name) in
  let nameTokens := tokens normName in
  let dept := fieldText (department doctor) in
  let office := fieldText (office doctor) in
  let school := fieldText (school doctor) in
  let email := fieldText (email doctor) in
  let n := nameScore normName normQuery nameTokens queryTokens in
  let d := exactOrContains dept searchTerm 100 "exact_department" 60 "department" in
  let o := exactOrContains office searchTerm 80 "exact_office" 30 "office" in
  let s := containsOnly school searchTerm 25 "school" in
  let e := containsOnly email searchTerm 10 "email" in
  {| item := doctor;
     score := fst n + fst d + fst o + fst s + fst e;
     matchedFields := snd n ++ snd d ++ snd o ++ snd s ++ snd e;
     normName := normName |}.

(** [r.doctor.name || ''] *)
Definition orEmpty (v : jsval) : jsval := if truthy v then v else JStr [].

(** [r.normName || this.normalize(r.doctor.name || '')] *)
Definition doctorKey (r : Scored Doctor) : jsstring :=
  if negb (isEmpty (normName r)) then normName r
  else normalize (orEmpty (name (item r))).

(** The scored candidates of [search], in the order of [this.doctors]. *)
Definition doctorCandidates (doctors : list Doctor) (q : jsstring)
  : list (Scored Doctor) :=
  let rawQuery := trim q in
  let searchTerm := toLowerCase rawQuery in
  let normQuery := normalize (JStr searchTerm) in
  let queryTokens := tokens normQuery in
  filter (fun r => (0 <? score r)%Z)
         (map (scoreDoctor searchTerm normQuery queryTokens) doctors).

(** [search(query)] *)
Definition search (config : Config) (doctors : list Doctor) (query : jsval)
  : outcome (list Doctor) :=
  if negb (truthy query) then Returns [] else
  match query with
  | JStr q =>
      if (length (trim q) <? 2)%nat then Returns [] else
      let results := doctorCandidates doctors q in
      let deduped := dedupe doctorKey results in
      Returns (map item (slice0 (MAX_RESULTS config) (sortByScore deduped)))
  | _ => Throws (TypeError "query.trim is not a function")
  end.

(** The name cascade of [searchClubs]. *)
Definition clubNameScore (normClubName normQuery : jsstring)
  (clubNameTokens queryTokens : list jsstring) : Z * list string :=
  (* Exact normalized name *)
  if eqs normClubName normQuery
  then (300, ["exact_name"%string])
  (* Starts with or first token starts with *)
  else if startsWith normClubName normQuery
          || firstTokenStarts queryTokens clubNameTokens
  then (180, ["name_start"%string])
  (* Token prefix match *)
  else if everyTokenPrefix queryTokens clubNameTokens
          && negb (isEmpty queryTokens)
  then (160, ["tokens_prefix"%string])
  else if includes normClubName normQuery
  then (80, ["name_contains"%string])
  else
    let tokenSim := Binary64.tokenSimilarity (JStr normClubName) (JStr normQuery) in
    let levSim := Binary64.calculateSimilarity normClubName normQuery in
    let combined := Binary64.max tokenSim levSim in
    if PrimFloat.ltb Binary64.seventyHundredths combined
    then (Binary64.round (PrimFloat.mul (Binary64.ofNat 70) combined),
          ["fuzzy_name"%string])
    else (0, []).

(** The body of [this.clubs.forEach(club => ...)] up to the test
    [score > 0]. *)
Definition scoreClub (searchTerm normQuery : jsstring)
  (queryTokens : list jsstring) (club : Club) : Scored Club :=
  let clubNameRaw := clubName club in
  let normClubName := normalize (JStr clubNameRaw) in
  let clubNameTokens := tokens normClubName in
  let n := clubNameScore normClubName normQuery clubNameTokens queryTokens in
  let clubType :=
    if negb (isEmpty (clubType club)) then toLowerCase (clubType club)
    else [] in
  let t := if eqs clubType searchTerm then (80, ["exact_type"%string])
           else if includes clubType searchTerm then (50, ["type"%string])
           else (0, []) in
  let d := containsOnly (about club) searchTerm 30 "description" in
  {| item := club;
     score := fst n + fst t + fst d;
     matchedFields := snd n ++ snd t ++ snd d;
     normName := normClubName |}.

(** [r.normClubName || this.normalize(r.club['Name of it '] || '')] *)
Definition clubKey (r : Scored Club) : jsstring :=
  if negb (isEmpty (normName r)) then normName r
  else normalize (JStr (clubName (item r))).

Definition clubCandidates (clubs : list Club) (q : jsstring)
  : list (Scored Club) :=
  let rawQuery := trim q in
  let searchTerm := toLowerCase rawQuery in
  let normQuery := normalize (JStr searchTerm) in
  let queryTokens := tokens normQuery in
  filter (fun r => (0 <? score r)%Z)
         (map (scoreClub searchTerm normQuery queryTokens) clubs).

(** [searchClubs(query)] *)
Definition searchClubs (config : Config) (clubs : list Club) (query : jsval)
  : outcome (list Club) :=
  if negb (truthy query) then Returns [] else
  match query with
  | JStr q =>
      if (length (trim q) <? 2)%nat then Returns [] else
      let results := clubCandidates clubs q in
      let deduped := dedupe clubKey results in
      Returns (map item (slice0 (MAX_RESULTS config) (sortByScore deduped)))
  | _ => Throws (TypeError "query.trim is not a function")
  end.

(** [searchClubsAll(query)]: "Return all matching clubs without applying
    MAX_RESULTS truncation", says its comment; the body delegates. *)
Definition searchClubsAll (config : Config) (clubs : list Club) (query : jsval)
  : outcome (list Club) :=
  searchClubs config clubs query.

End Search.

End Ranking.
Import Ranking.

(* ================================================================== *)
(** ** The record index: loaders and reload *)

Module Index.

(** What reading and parsing one data file comes to. *)
Inductive file (A : Type) :=
| Missing          (* no such file *)
| Unreadable       (* the file exists and [readFileSync] throws *)
| Malformed        (* [JSON.parse] throws *)
| Parsed (content : A).
Arguments Missing {A}.
Arguments Unreadable {A}.
Arguments Malformed {A}.
Arguments Parsed {A} content.

(** A club entry of [htuClubs.json] before cleaning. *)
Record RawClub := {
  rawType : jsval;
  rawName : jsval;
  rawEmail : jsval;
  rawInstagram : jsval;
  rawAbout : jsval
}.

Record Building := {
  buildingName : jsstring;
  nickname : jsstring;
  color : jsstring
}.

(** [htuNameSystem.json]: the legend, when the object has one. *)
Record NameSystem := {
  legend : option (list (jsstring * Building))
}.

(** The data files as the loaders find them.  The doctors file has three
    candidate paths, tried in this order. *)
Record Disk := {
  configuredPath : file (list Doctor);    (* config.DOCTORS_DATA_PATH *)
  besideBot : file (list Doctor);         (* __dirname/doctors.json *)
  inWorkingDir : file (list Doctor);      (* cwd/doctors.json *)
  clubsFile : file (list RawClub);        (* __dirname/htuClubs.json *)
  nameSystemFile : file NameSystem        (* __dirname/htuNameSystem.json *)
}.

(** The fields of an [HTUAssistant] instance. *)
Record HTUAssistant := {
  doctors : list Doctor;
  departments : list jsstring;
  clubs : list Club;
  nameSystem : NameSystem
}.

(** The loop over [candidatePaths]; a candidate that is missing or throws
    is passed over. *)
Fixpoint firstReadable (candidates : list (file (list Doctor)))
  : outcome (list Doctor) :=
  match candidates with
  | Parsed content :: _ => Returns content
  | _ :: rest => firstReadable rest
  | [] => Throws (Error "Doctors data file not found.")
  end.

(** [loadDoctors()] *)
Definition loadDoctors (disk : Disk) : list Doctor :=
  match firstReadable [configuredPath disk; besideBot disk; inWorkingDir disk] with
  | Returns content => content
  | Throws _ => []
  end.

(** [v ? v.toString().trim() : fallback] *)
Definition cleaned (v : jsval) (fallback : jsstring) : jsstring :=
  if truthy v then trim (ToString v) else fallback.

(** The callback of [rawClubs.forEach], on [(validClubs, seenNames)]. *)
Definition cleanStep (acc : list Club * list jsstring) (club : RawClub)
  : list Club * list jsstring :=
  let (validClubs, seenNames) := acc in
  (* Check if club has required fields *)
  if negb (truthy (rawType club)) || negb (truthy (rawName club)) then acc else
  let clubName := collapseSpaces (trim (ToString (orEmpty (rawName club)))) in
  (* Check for duplicates based on name *)
  if existsb (eqs clubName) seenNames then acc else
  let cleanClub :=
    {| clubType := cleaned (rawType club) (str "N/A");
       clubName := clubName;
       clubEmail := cleaned (rawEmail club) (str "N/A");
       instagram := cleaned (rawInstagram club) (str "N/A");
       about := cleaned (rawAbout club) [] |} in
  (validClubs ++ [cleanClub], seenNames ++ [clubName]).

(** [loadClubs()] *)
Definition loadClubs (disk : Disk) : list Club :=
  match clubsFile disk with
  | Parsed rawClubs => fst (fold_left cleanStep rawClubs ([], []))
  | _ => []
  end.

(** [loadNameSystem()] *)
Definition loadNameSystem (disk : Disk) : NameSystem :=
  match nameSystemFile disk with
  | Parsed content => content
  | _ => {| legend := None |}
  end.

(** [departments.add(x)] on a [Set] in insertion order. *)
Definition setAdd (x : jsstring) (set : list jsstring) : list jsstring :=
  if existsb (eqs x) set then set else set ++ [x].

(** The [forEach] of [extractDepartments]: [doctor.department.trim()] is a
    call of a method only strings have. *)
Fixpoint collectDepartments (doctors : list Doctor) (departments : list jsstring)
  : outcome (list jsstring) :=
  match doctors with
  | [] => Returns departments
  | doctor :: rest =>
      if truthy (department doctor) then
        match department doctor with
        | JStr s => collectDepartments rest (setAdd (trim s) departments)
        | _ => Throws (TypeError "doctor.department.trim is not a function")
        end
      else collectDepartments rest departments
  end.

(** Order of the default [sort()]: strings by UTF-16 code units. *)
Fixpoint precedes (a b : jsstring) : bool :=
  match a, b with
  | [], _ :: _ => true
  | x :: a', y :: b' => (x <? y)%N || (x =? y)%N && precedes a' b'
  | _, [] => false
  end.

Fixpoint insertSorted (x : jsstring) (sorted : list jsstring) : list jsstring :=
  match sorted with
  | [] => [x]
  | y :: l => if precedes y x then y :: insertSorted x l else x :: sorted
  end.

(** [extractDepartments()], reading [this.doctors]. *)
Definition extractDepartments (this : HTUAssistant) : outcome (list jsstring) :=
  departments <- collectDepartments (doctors this) [] ;;
  Returns (fold_right insertSorted [] departments).

(** What [reload()] returns: [{ ok: true, doctors, clubs }] or
    [{ ok: false, error }]. *)
Inductive ReloadResult :=
| Reloaded (doctorCount clubCount : nat)
| Failed (error : string).

Definition ok (r : ReloadResult) : bool :=
  match r with Reloaded _ _ => true | Failed _ => false end.

(** Statements of a method: they update [this] and may throw; what was
    assigned before a throw stays assigned. *)
Definition method (A : Type) := HTUAssistant -> HTUAssistant * outcome A.

Definition ret {A} (a : A) : method A := fun this => (this, Returns a).

Definition lift {A} (o : outcome A) : method A := fun this => (this, o).

Definition andThen {A B} (m : method A) (k : A -> method B) : method B :=
  fun this =>
    match m this with
    | (this', Returns a) => k a this'
    | (this', Throws e) => (this', Throws e)
    end.

Definition getThis : method HTUAssistant := fun this => (this, Returns this).

Definition assign (update : HTUAssistant -> HTUAssistant) : method unit :=
  fun this => (update this, Returns tt).

(** [try { body } catch (e) { handler(e) }] *)
Definition tryCatch {A} (body : method A) (handler : exn -> method A) : method A :=
  fun this =>
    match body this with
    | (this', Returns a) => (this', Returns a)
    | (this', Throws e) => handler e this'
    end.

Notation "x <~ m ;; k" := (andThen m (fun x => k))
  (at level 61, m at next level, right associativity).
Notation "m ;;; k" := (andThen m (fun _ => k))
  (at level 61, right associativity).

Definition setDoctors (v : list Doctor) (this : HTUAssistant) : HTUAssistant :=
  {| doctors := v; departments := departments this;
     clubs := clubs this; nameSystem := nameSystem this |}.

Definition setDepartments (v : list jsstring) (this : HTUAssistant) : HTUAssistant :=
  {| doctors := doctors this; departments := v;
     clubs := clubs this; nameSystem := nameSystem this |}.

Definition setClubs (v : list Club) (this : HTUAssistant) : HTUAssistant :=
  {| doctors := doctors this; departments := departments this;
     clubs := v; nameSystem := nameSystem this |}.

Definition setNameSystem (v : NameSystem) (this : HTUAssistant) : HTUAssistant :=
  {| doctors := doctors this; departments := departments this;
     clubs := clubs this; nameSystem := v |}.

(** [reload()] *)
Definition reload (disk : Disk) : method ReloadResult :=
  tryCatch
    (assign (setDoctors (loadDoctors disk)) ;;;
     this <~ getThis ;;
     departments <~ lift (extractDepartments this) ;;
     assign (setDepartments departments) ;;;
     assign (setClubs (loadClubs disk)) ;;;
     assign (setNameSystem (loadNameSystem disk)) ;;;
     this <~ getThis ;;
     ret (Reloaded (length (doctors this)) (length (clubs this))))
    (fun e => ret (Failed (describe e))).

End Index.

(* ================================================================== *)
(** ** The intent extractor *)

Module Intent.

(** The regular expressions of [parseNaturalLanguageQuery] use literals,
    [.] and [\s] under [*] and [+], [?], alternation and capture groups.
    Matching is the backtracking one of ECMAScript: alternatives in order,
    quantifiers greedy. *)
Inductive charClass :=
| Dot       (* .  : any unit but a line terminator *)
| White.    (* \s *)

Inductive regex :=
| Lit (s : string)
| Star (c : charClass)
| Plus (c : charClass)
| Opt (r : regex)
| Seq (r1 r2 : regex)
| Alt (r1 r2 : regex)
| Group (n : nat) (r : regex).    (* capture group number [n] *)

Fixpoint cat (rs : list regex) : regex :=
  match rs with
  | [] => Lit EmptyString
  | [r] => r
  | r :: rest => Seq r (cat rest)
  end.

Fixpoint alt (rs : list regex) : regex :=
  match rs with
  | [] => Lit EmptyString
  | [r] => r
  | r :: rest => Alt r (alt rest)
  end.

Definition inClass (c : charClass) (x : N) : bool :=
  match c with
  | Dot => negb ((x =? 10) || (x =? 13) || (x =? 0x2028) || (x =? 0x2029))%N
  | White => isWhiteSpace x
  end.

(** [match[1..]]: a group that took no part in the match is [undefined]. *)
Definition captures := list (option jsstring).

Fixpoint setCapture (n : nat) (v : jsstring) (caps : captures) : captures :=
  match n, caps with
  | _, [] => []
  | O, _ => caps
  | S O, _ :: r => Some v :: r
  | S n', c :: r => c :: setCapture n' v r
  end.

(** What is left to match after a sub-expression: the continuation gets
    the captures so far and the rest of the input. *)
Definition continuation := captures -> jsstring -> option (captures * jsstring).

(** Greedy [c*]: as many units as possible, giving back one at a time. *)
Fixpoint starLoop (c : charClass) (k : continuation) (caps : captures)
  (input : jsstring) : option (captures * jsstring) :=
  match input with
  | x :: rest =>
      if inClass c x then
        match starLoop c k caps rest with
        | Some r => Some r
        | None => k caps input
        end
      else k caps input
  | [] => k caps []
  end.

Fixpoint run (r : regex) (k : continuation) (caps : captures)
  (input : jsstring) : option (captures * jsstring) :=
  match r with
  | Lit s =>
      if startsWith input (str s) then k caps (skipn (length (str s)) input)
      else None
  | Star c => starLoop c k caps input
  | Plus c =>
      match input with
      | x :: rest => if inClass c x then starLoop c k caps rest else None
      | [] => None
      end
  | Opt r1 =>
      match run r1 k caps input with
      | Some res => Some res
      | None => k caps input
      end
  | Seq r1 r2 => run r1 (run r2 k) caps input
  | Alt r1 r2 =>
      match run r1 k caps input with
      | Some res => Some res
      | None => run r2 k caps input
      end
  | Group n r1 =>
      run r1
        (fun caps' rest =>
           k (setCapture n (firstn (length input - length rest) input) caps')
             rest)
        caps input
  end.

Fixpoint groupCount (r : regex) : nat :=
  match r with
  | Lit _ | Star _ | Plus _ => 0
  | Opt r1 => groupCount r1
  | Seq r1 r2 | Alt r1 r2 => Nat.max (groupCount r1) (groupCount r2)
  | Group n r1 => Nat.max n (groupCount r1)
  end.

Definition accept : continuation := fun caps rest => Some (caps, rest).

(** A match anchored at the start of [input]. *)
Definition matchHere (r : regex) (input : jsstring)
  : option (captures * jsstring) :=
  run r accept (repeat None (groupCount r)) input.

(** [input.match(r)] without the [g] flag: the leftmost match. *)
Fixpoint matchFrom (r : regex) (input : jsstring) : option captures :=
  match matchHere r input with
  | Some (caps, _) => Some caps
  | None =>
      match input with
      | [] => None
      | _ :: rest => matchFrom r rest
      end
  end.

Inductive intentTag :=
| officeHours | contactInfo | officeLocation | department
| whoIs | admission | registrar | dean | question.

Definition ofFor : regex := alt [Lit "of"; Lit "for"].
Definition hoursWords : regex :=
  alt [cat [Lit "office hour"; Opt (Lit "s")];
       cat [Lit "hour"; Opt (Lit "s")]; Lit "schedule"].
Definition contactWords : regex := alt [Lit "email"; Lit "contact"; Lit "phone"].
Definition placeWords : regex := alt [Lit "office"; Lit "room"; Lit "location"].
Definition unitWords : regex := alt [Lit "department"; Lit "school"; Lit "faculty"].
Definition whoWhereWhat : regex :=
  alt [cat [Lit "who i"; Opt (Lit "s")]; cat [Lit "where i"; Opt (Lit "s")];
       cat [Lit "what i"; Opt (Lit "s")]].
Definition admissionWords : regex :=
  alt [Lit "admission"; cat [Lit "admission"; Opt (Lit "s")]; Lit "enrollment"].
Definition registrarWords : regex :=
  alt [Lit "registrar"; Lit "registration";
       cat [Lit "academic record"; Opt (Lit "s")]].

(** [patterns], in declaration order. *)
Definition patterns : list (intentTag * list regex) :=
  [ (officeHours,
     [ cat [alt [cat [Lit "what ar"; Opt (Lit "e")];
                 cat [Lit "when ar"; Opt (Lit "e")]; Lit "tell me about"];
            Star Dot; Group 1 hoursWords; Star Dot; Group 2 ofFor;
            Plus White; Group 3 (Plus Dot)];
       cat [hoursWords; Star Dot; Group 1 ofFor; Plus White; Group 2 (Plus Dot)];
       cat [Lit "when ";
            alt [Lit "is"; Lit "does";
                 cat [Lit "can i "; alt [Lit "find"; Lit "see"; Lit "meet"]]];
            Plus White; Group 1 (Plus Dot); Star White;
            Opt (alt [Lit "available"; Lit "in office"; Lit "at office"])];
       cat [Group 1 (Plus Dot); Plus White; hoursWords] ]);
    (contactInfo,
     [ cat [alt [cat [Lit "what i"; Opt (Lit "s")]; Lit "give me"; Lit "tell me"];
            Star Dot; Group 1 contactWords; Star Dot; Group 2 ofFor;
            Plus White; Group 3 (Plus Dot)];
       cat [contactWords; Star Dot; Group 1 ofFor; Plus White; Group 2 (Plus Dot)];
       cat [Lit "how "; alt [Lit "can i"; Lit "do i"]; Lit " ";
            alt [Lit "contact"; Lit "reach"; Lit "email"];
            Plus White; Group 1 (Plus Dot)];
       cat [Group 1 (Plus Dot); Plus White; contactWords] ]);
    (officeLocation,
     [ cat [alt [cat [Lit "where i"; Opt (Lit "s")];
                 cat [Lit "what i"; Opt (Lit "s")]];
            Star Dot; Group 1 placeWords; Star Dot; Group 2 ofFor;
            Plus White; Group 3 (Plus Dot)];
       cat [placeWords; Star Dot; Group 1 ofFor; Plus White; Group 2 (Plus Dot)];
       cat [Lit "where "; alt [Lit "can i find"; Lit "is"];
            Plus White; Group 1 (Plus Dot);
            Opt (alt [cat [Plus White; Lit "located"];
                      cat [Plus White; Lit "office"]])];
       cat [Group 1 (Plus Dot); Plus White; placeWords] ]);
    (department,
     [ cat [alt [Lit "what"; Lit "which"]; Plus White; unitWords; Star Dot;
            Group 1 (alt [Lit "is"; Lit "does"]); Plus White;
            Group 2 (Plus Dot); Plus White;
            alt [Lit "in"; Lit "work"; Lit "belong"; Lit "teach"]];
       cat [Group 1 (Plus Dot); Plus White; unitWords];
       cat [unitWords; Star Dot; Group 1 ofFor; Plus White; Group 2 (Plus Dot)] ]);
    (whoIs,
     [ cat [Lit "who is"; Plus White; Group 1 (Plus Dot)];
       cat [Lit "tell me about"; Plus White; Group 1 (Plus Dot)];
       cat [alt [Lit "what"; Lit "who"]; Plus White;
            alt [Lit "is"; Lit "are"]; Plus White; Group 1 (Plus Dot)] ]);
    (admission,
     [ cat [whoWhereWhat; Star Dot; Group 1 admissionWords; Star Dot;
            Opt (Group 2 (alt [Lit "office"; Lit "department"; Lit "contact"]))];
       cat [admissionWords; Star Dot;
            Group 1 (alt [Lit "office"; Lit "department"; Lit "contact";
                          Lit "info"; Lit "information"])];
       cat [Lit "how "; alt [Lit "can i"; Lit "do i"]; Star Dot;
            Group 1 (alt [Lit "apply"; Lit "enroll"; Lit "admit";
                          Lit "admission"])] ]);
    (registrar,
     [ cat [whoWhereWhat; Star Dot; Group 1 registrarWords; Star Dot;
            Opt (Group 2 (alt [Lit "office"; Lit "department"; Lit "contact"]))];
       cat [registrarWords; Star Dot;
            Group 1 (alt [Lit "office"; Lit "department"; Lit "contact";
                          Lit "info"])] ]);
    (dean,
     [ cat [Lit "who i"; Opt (Lit "s"); Star Dot;
            Group 1 (alt [Lit "dean"; Lit "head"]); Star Dot;
            Opt (Group 2 ofFor); Star White; Opt (Group 3 (Plus Dot))];
       cat [Group 1 (Plus Dot); Plus White; alt [Lit "dean"; Lit "head"]] ]) ].

(** [/^(what|who|where|when|how)\s+(is|are|can|do|does)\s*/] *)
Definition questionLead : regex :=
  cat [Group 1 (alt [Lit "what"; Lit "who"; Lit "where"; Lit "when"; Lit "how"]);
       Plus White;
       Group 2 (alt [Lit "is"; Lit "are"; Lit "can"; Lit "do"; Lit "does"]);
       Star White].

Record IntentResult := {
  intent : intentTag;
  entity : jsstring;
  confidence : Q;
  originalQuery : jsval
}.

(** [v || w], on a capture. *)
Definition orElse (v : option jsstring) (w : jsstring) : jsstring :=
  match v with
  | Some s => if isEmpty s then w else s
  | None => w
  end.

(** [entity.trim().replace(/[?.,!]/g, '')] *)
Definition stripMarks (s : jsstring) : jsstring :=
  filter (fun c => negb ((c =? 63) || (c =? 46) || (c =? 44) || (c =? 33))%N)
         (trim s).

(** [match[match.length - 1] || match[1] || ''], then the clean-up.  Every
    pattern has a group, so [match.length >= 2] holds. *)
Definition entityOf (caps : captures) : jsstring :=
  match caps with
  | [] => []
  | first :: _ => stripMarks (orElse (last caps None) (orElse first []))
  end.

(** The inner loop: the patterns of one intent, in order. *)
Fixpoint firstPattern (intentPatterns : list regex) (normalizedQuery : jsstring)
  : option captures :=
  match intentPatterns with
  | [] => None
  | pattern :: rest =>
      match matchFrom pattern normalizedQuery with
      | Some caps => Some caps
      | None => firstPattern rest normalizedQuery
      end
  end.

(** The outer loop over [Object.entries(patterns)]. *)
Fixpoint firstIntent (table : list (intentTag * list regex))
  (normalizedQuery : jsstring) : option (intentTag * captures) :=
  match table with
  | [] => None
  | (tag, intentPatterns) :: rest =>
      match firstPattern intentPatterns normalizedQuery with
      | Some caps => Some (tag, caps)
      | None => firstIntent rest normalizedQuery
      end
  end.

Section Parser.
Context {U : Unicode}.

(** [parseNaturalLanguageQuery(query)]; [null] in the source is [None]. *)
Definition parseNaturalLanguageQuery (query : jsval)
  : outcome (option IntentResult) :=
  match query with
  | JStr q =>
      let normalizedQuery := trim (toLowerCase q) in
      match firstIntent patterns normalizedQuery with
      | Some (tag, caps) =>
          Returns (Some {| intent := tag; entity := entityOf caps;
                           confidence := 8 # 10; originalQuery := query |})
      | None =>
          if includes normalizedQuery (str "what")
             || includes normalizedQuery (str "who")
             || includes normalizedQuery (str "where")
             || includes normalizedQuery (str "when")
             || includes normalizedQuery (str "how")
          then
            Returns (Some {| intent := question;
                             entity := match matchHere questionLead normalizedQuery with
                                       | Some (_, rest) => rest
                                       | None => normalizedQuery
                                       end;
                             confidence := 6 # 10; originalQuery := query |})
          else Returns None
      end
  | JUndefined | JNull =>
      Throws (TypeError "Cannot read properties of null or undefined (reading 'toLowerCase')")
  | _ => Throws (TypeError "query.toLowerCase is not a function")
  end.

End Parser.

End Intent.

(* ================================================================== *)
(** ** Vocabulary of the statements *)

(** [before a b l]: an occurrence of [a] comes before one of [b]. *)
Definition before {A} (a b : A) (l : list A) : Prop :=
  exists l1 l2 l3, l = l1 ++ a :: l2 ++ b :: l3.

(** Position of the first occurrence of a key ([length ks] when absent). *)
Fixpoint firstIndex (k : jsstring) (ks : list jsstring) : nat :=
  match ks with
  | [] => 0
  | x :: r => if eqs x k then 0 else S (firstIndex k r)
  end.

(** Keys in the order of their first occurrence. *)
Definition addKey (seen : list jsstring) (k : jsstring) : list jsstring :=
  if existsb (eqs k) seen then seen else seen ++ [k].

Definition firstOccurrences (ks : list jsstring) : list jsstring :=
  fold_left addKey ks [].

(** What the [Map] holds after the entries [seen] have gone through
    [keepBest]. *)
Definition mapInvariant {R} (key : Scored R -> jsstring)
  (m : list (jsstring * Scored R)) (seen : list (Scored R)) : Prop :=
  NoDup (map fst m)
  /\ map fst m = firstOccurrences (map key seen)
  /\ forall k v, In (k, v) m ->
       key v = k /\ In v seen
       /\ forall y, In y seen -> key y = k -> (score y <= score v)%Z.

(** The order [sortByScore] establishes. *)
Definition descending {R} (a b : Scored R) : Prop := (score b <= score a)%Z.

(** The three steps together. *)
Definition ranked {R} (key : Scored R -> jsstring) (cap : Z)
  (results : list (Scored R)) : list (Scored R) :=
  slice0 cap (sortByScore (dedupe key results)).

Section QueryVocabulary.
Context {U : Unicode}.

(** [searchTerm] and [normQuery] of the searches, from the query text. *)
Definition searchTermOf (q : jsstring) : jsstring := toLowerCase (trim q).
Definition normQueryOf (q : jsstring) : jsstring :=
  normalize (JStr (searchTermOf q)).

(** The scored entry [search] computes for a doctor, and its score. *)
Definition scoredDoctor (q : jsstring) (d : Doctor) : Scored Doctor :=
  scoreDoctor (searchTermOf q) (normQueryOf q) (tokens (normQueryOf q)) d.
Definition doctorScore (q : jsstring) (d : Doctor) : Z :=
  score (scoredDoctor q d).

(** The normalized name [search] computes for a doctor. *)
Definition normNameOf (d : Doctor) : jsstring :=
  normalize (JStr (fieldText (name d))).

(** The canonical key of a doctor: the key of the deduplication. *)
Definition canonicalKey (d : Doctor) : jsstring :=
  if negb (isEmpty (normNameOf d)) then normNameOf d
  else normalize (orEmpty (name d)).

(** The doctors that get a positive score, in the order of the collection. *)
Definition qualifying (doctors : list Doctor) (q : jsstring) : list Doctor :=
  filter (fun d => (0 <? doctorScore q d)%Z) doctors.



(** The same for clubs. *)
Definition scoredClub (q : jsstring) (c : Club) : Scored Club :=
  scoreClub (searchTermOf q) (normQueryOf q) (tokens (normQueryOf q)) c.
Definition clubScore (q : jsstring) (c : Club) : Z :=
  score (scoredClub q c).
Definition clubCanonicalKey (c : Club) : jsstring :=
  normalize (JStr (clubName c)).
Definition qualifyingClubs (clubs : list Club) (q : jsstring) : list Club :=
  filter (fun c => (0 <? clubScore q c)%Z) clubs.

End QueryVocabulary.

(** The shape both searches share: score every record, keep the positive
    scores, rank, and give the records back. *)
Definition candidates {R} (scoreOf : R -> Scored R) (records : list R)
  : list (Scored R) :=
  filter (fun r => (0 <? score r)%Z) (map scoreOf records).

Definition answer {R} (scoreOf : R -> Scored R) (key : Scored R -> jsstring)
  (cap : Z) (records : list R) : list R :=
  map item (ranked key cap (candidates scoreOf records)).

(** The records with a positive score, in the order of the collection. *)
Definition positive {R} (scoreOf : R -> Scored R) (records : list R) : list R :=
  filter (fun d => (0 <? score (scoreOf d))%Z) records.


(** The last three steps of [normalize], from the text without
    diacritics. *)
Definition finish {U : Unicode} (s : jsstring) : jsstring :=
  trim (collapseSpaces (map (fun c => if isPunctuation c then 32%N else c) s)).

(** Records of the worked examples. *)
Definition doctorNamed (n dept off : string) : Doctor :=
  {| name := JStr (str n); department := JStr (str dept);
     office := JStr (str off); school := JUndefined; email := JUndefined |}.

Definition omarKhalil : Doctor := doctorNamed "Omar Khalil" "Computer Science" EmptyString.
Definition omar : Doctor := doctorNamed "Omar" "Civil" EmptyString.

(** Three doctors for the query "omar": the first and the third share the
    name, the second and the third share the score. *)
Definition khalilPlain : Doctor := doctorNamed "Omar Khalil" "Civil" "S-101".
Definition salehInOmar : Doctor := doctorNamed "Omar Saleh" "Civil" "Omar".
Definition khalilInOmar : Doctor := doctorNamed "Omar Khalil" "Civil" "Omar".

(** A fourth doctor that qualifies for "omar", below the others, and a
    cap that the four exceed. *)
Definition omarZaid : Doctor := doctorNamed "Omar Zaid" "Civil" "S-102".
Definition fourForOmar : list Doctor :=
  [khalilPlain; salehInOmar; khalilInOmar; omarZaid].
Definition capOfTwo : Config := {| MAX_RESULTS := 2 |}.

(** Ties of the result in the order of the input collection: of two
    returned records with the same score, the one returned first also
    comes first in the collection. *)
Definition tiesInCollectionOrder {R} (scoreOf : R -> Z)
  (collection result : list R) : Prop :=
  forall a b, before a b result -> scoreOf a = scoreOf b ->
              before a b collection.

(** A data file the loaders cannot use. *)
Definition unusable {A} (f : Index.file A) : bool :=
  match f with
  | Index.Parsed _ => false
  | _ => true
  end.

(** No candidate path of the doctors file can be used. *)
Definition doctorsUnavailable (disk : Index.Disk) : Prop :=
  unusable (Index.configuredPath disk) = true
  /\ unusable (Index.besideBot disk) = true
  /\ unusable (Index.inWorkingDir disk) = true.

(** [reload] as a fail-safe: the collections are the ones loaded before
    and the result is [ok: false] with an error description. *)
Definition keepsLastGood (disk : Index.Disk) (this : Index.HTUAssistant) : Prop :=
  Index.doctors (fst (Index.reload disk this)) = Index.doctors this
  /\ Index.clubs (fst (Index.reload disk this)) = Index.clubs this
  /\ exists error, snd (Index.reload disk this) = Returns (Index.Failed error).

(** An index with one doctor and one club, and a disk without any file. *)
Definition lastGood : Index.HTUAssistant :=
  {| Index.doctors := [omar];
     Index.departments := [str "Civil"];
     Index.clubs := [ {| clubType := str "Club"; clubName := str "Chess";
                         clubEmail := str "N/A"; instagram := str "N/A";
                         about := [] |} ];
     Index.nameSystem := {| Index.legend := None |} |}.

Definition noFiles : Index.Disk :=
  {| Index.configuredPath := Index.Missing;
     Index.besideBot := Index.Missing;
     Index.inWorkingDir := Index.Missing;
     Index.clubsFile := Index.Missing;
     Index.nameSystemFile := Index.Missing |}.

(** A doctors file in which a department is a number. *)
Definition numberedDepartment : Index.Disk :=
  {| Index.configuredPath :=
       Index.Parsed [ {| name := JStr (str "Omar"); department := JNum 7;
                         office := JUndefined; school := JUndefined;
                         email := JUndefined |} ];
     Index.besideBot := Index.Missing;
     Index.inWorkingDir := Index.Missing;
     Index.clubsFile := Index.Missing;
     Index.nameSystemFile := Index.Missing |}.

(** The (intent, pattern) pairs in declaration order. *)
Definition declared : list (Intent.intentTag * Intent.regex) :=
  flat_map (fun entry => map (pair (fst entry)) (snd entry)) Intent.patterns.

(** The first pair of a list whose pattern matches. *)
Fixpoint firstDeclared (pairs : list (Intent.intentTag * Intent.regex))
  (text : jsstring) : option (Intent.intentTag * Intent.captures) :=
  match pairs with
  | [] => None
  | (tag, pattern) :: rest =>
      match Intent.matchFrom pattern text with
      | Some caps => Some (tag, caps)
      | None => firstDeclared rest text
      end
  end.

(** The flags of the matching loop of [jaroWinkler] when the first [i] of
    [n] slots are taken. *)
Definition taken (n i : nat) : list bool :=
  repeat true i ++ repeat false (n - i).

(** Number of taken slots. *)
Fixpoint takenCount (flags : list bool) : nat :=
  match flags with
  | [] => 0
  | true :: r => S (takenCount r)
  | false :: r => takenCount r
  end.

(** The [while] of the transposition loop finds a taken slot every time
    it is entered. *)
Fixpoint whileStops (p1 rest2 : list (N * bool)) : Prop :=
  match p1 with
  | [] => True
  | (_, false) :: r1 => whileStops r1 rest2
  | (_, true) :: r1 =>
      match skipFree rest2 with
      | _ :: r2 => whileStops r1 r2
      | [] => False
      end
  end.

(** What holds of the matching loop of [jaroWinkler] before index [i]. *)
Definition matchingInvariant (s1 s2 : jsstring) (i : nat) (st : matching) : Prop :=
  length (s1Matches st) = length s1
  /\ length (s2Matches st) = length s2
  /\ takenCount (s1Matches st) = matches st
  /\ takenCount (s2Matches st) = matches st
  /\ forall x, (i <= x)%nat -> nth x (s1Matches st) false = false.


(** Text without leading white space. *)
Definition noLead (l : jsstring) : Prop :=
  match l with
  | c :: _ => isWhiteSpace c = false
  | [] => True
  end.

(** Text in which white space occurs only as single spaces between other
    units or at the end. *)
Fixpoint spaced (l : jsstring) : Prop :=
  match l with
  | [] => True
  | c :: r =>
      (isWhiteSpace c = true -> c = 32%N /\ noLead r) /\ spaced r
  end.

(** A text of ASCII units. *)
Definition isAscii (s : jsstring) : Prop := Forall (fun c => (c < 128)%N) s.

(** ASCII and not an upper-case letter. *)
Definition plain (c : N) : Prop := (c < 128)%N /\ Excerpt.lowerUnit c = c.

(** A text on which [normalize] is not idempotent: "a", COMBINING LEFT
    HARPOON ABOVE (class 230), CIRCUMFLEX ACCENT (a diacritic) and
    COMBINING LONG VERTICAL LINE OVERLAY (class 1). *)
Definition harpoonText : jsval :=
  JStr (str "a" ++ [0x20D0; 0x5E; 0x20D2]%N).


(* ================================================================== *)
(** ** Further operations of the assistant *)

(** [escapeMarkdown]: the units of the class
    [[\\`*_\[\]()~>#+\-=|{}.!]]. *)
Definition isMarkdownSpecial (c : N) : bool :=
  existsb (N.eqb c)
    [ 92; 96; 42; 95; 91; 93; 40; 41; 126; 62; 35; 43; 45; 61; 124; 123;
      125; 46; 33 ]%N.

(** [escapeMarkdown(text)]: [replace(/([...])/g, '\\$1')] puts a backslash
    before every unit of the class. *)
Definition escapeMarkdown (text : jsval) : jsstring :=
  if negb (truthy text)
     && negb (match text with JNum z => (z =? 0)%Z | _ => false end)
  then []
  else flat_map (fun c => if isMarkdownSpecial c then [92%N; c] else [c])
                (ToString text).

(** [String.prototype.toUpperCase] of the host engine. *)
Class UpperCase := {
  toUpperCase : jsstring -> jsstring
}.

(** Upper case on the excerpt: Basic Latin and Latin-1 Supplement, with
    the three units of Latin-1 whose upper case lies outside it. *)
Module ExcerptUpper.

Definition upperUnit (c : N) : list N :=
  if Excerpt.between 0x61 0x7A c then [c - 32]%N
  else if Excerpt.between 0xE0 0xFE c && negb (c =? 0xF7)%N then [c - 32]%N
  else if (c =? 0xDF)%N then [0x53; 0x53]%N
  else if (c =? 0xFF)%N then [0x178]%N
  else if (c =? 0xB5)%N then [0x39C]%N
  else [c].

#[global] Instance tables : UpperCase := {|
  toUpperCase := flat_map upperUnit
|}.

End ExcerptUpper.

Module Directory.
Import Index.

(** [S.split(r)] for a regular expression [r] without capture groups, as
    [RegExp.prototype[Symbol.split]] runs it: [q] walks over [S], and a
    match of [r] at [q] that ends at [e] closes the piece [S[p..q)] unless
    [e = p].  Here [rest] is [S] from [q] on, [piece] is [S[p..q)] and
    [skip] counts the units of the last match still to pass. *)
Fixpoint splitLoop (r : Intent.regex) (piece : jsstring) (skip : nat)
  (rest : jsstring) : list jsstring :=
  match rest with
  | [] => [piece]
  | c :: rest' =>
      match skip with
      | S n => splitLoop r piece n rest'
      | O =>
          match Intent.matchHere r rest with
          | None => splitLoop r (piece ++ [c]) 0 rest'
          | Some (_, after) =>
              match (length rest - length after)%nat with
              | O =>
                  (* an empty match: at [q = p] it is passed over; later
                     it closes the piece, and is then passed over *)
                  if isEmpty piece then splitLoop r [c] 0 rest'
                  else piece :: splitLoop r [c] 0 rest'
              | S n => piece :: splitLoop r [] n rest'
              end
          end
      end
  end.

Definition splitRegex (r : Intent.regex) (s : jsstring) : list jsstring :=
  match s with
  | [] =>
      match Intent.matchHere r [] with
      | Some _ => []
      | None => [[]]
      end
  | _ :: _ => splitLoop r [] 0 s
  end.

(** [/\s*-?\s*/] *)
Definition separator : Intent.regex :=
  Intent.cat [Intent.Star Intent.White; Intent.Opt (Intent.Lit "-");
              Intent.Star Intent.White].

(** [[...new Set(xs)]] *)
Definition distinct (xs : list jsstring) : list jsstring :=
  fold_left (fun set x => setAdd x set) xs [].

(** An entry of the result of [detectDuplicates]. *)
Record Duplicate := {
  dupName : jsstring;
  indices : list nat;
  count : nat
}.

(** The callback of [this.clubs.forEach((club, idx) => ...)] in
    [detectDuplicates]. *)
Definition countStep (counts : list (jsstring * list nat)) (entry : nat * Club)
  : list (jsstring * list nat) :=
  let (idx, club) := entry in
  let name := trim (clubName club) in
  let prev := match mapGet name counts with
              | Some indices => indices
              | None => []
              end in
  mapSet name (prev ++ [idx]) counts.

(** [commonMistakes] of [getSmartSuggestions], in declaration order. *)
Definition commonMistakes : list (string * string) :=
  [ ("computer", "Computer Science"); ("cs", "Computer Science");
    ("it", "Information Technology"); ("eng", "Engineering");
    ("bus", "Business"); ("admin", "Administration") ]%string.

(** [commonTerms] of [getClubSuggestions], in declaration order. *)
Definition commonTerms : list (string * string) :=
  [ ("tech", "Technology Club"); ("programming", "Programming Club");
    ("coding", "Programming Club"); ("volunteer", "Volunteer team");
    ("sports", "Sports Club"); ("art", "Art Club"); ("music", "Music Club");
    ("drama", "Drama team"); ("debate", "Debate Club");
    ("chess", "Chess Club") ]%string.

(** [filter] with a callback that can throw. *)
Fixpoint filterM {A} (keep : A -> outcome bool) (l : list A)
  : outcome (list A) :=
  match l with
  | [] => Returns []
  | x :: rest =>
      kept <- keep x ;;
      others <- filterM keep rest ;;
      Returns (if kept : bool then x :: others else others)
  end.

(** The fields of a fresh instance before the constructor assigns them;
    no step of the constructor reads a field it has not assigned. *)
Definition unassigned : HTUAssistant :=
  {| doctors := []; departments := []; clubs := [];
     nameSystem := {| legend := None |} |}.

(** [new HTUAssistant()]: the four assignments of the constructor, outside
    any [try]. *)
Definition construct (disk : Disk) : outcome HTUAssistant :=
  match (assign (setDoctors (loadDoctors disk)) ;;;
         this <~ getThis ;;
         departments <~ lift (extractDepartments this) ;;
         assign (setDepartments departments) ;;;
         assign (setClubs (loadClubs disk)) ;;;
         assign (setNameSystem (loadNameSystem disk))) unassigned with
  | (this, Returns _) => Returns this
  | (_, Throws e) => Throws e
  end.

(** [getDepartments()] *)
Definition getDepartments (this : HTUAssistant) : list jsstring :=
  departments this.

(** [detectDuplicates()] *)
Definition detectDuplicates (this : HTUAssistant) : list Duplicate :=
  let counts :=
    fold_left countStep
      (combine (seq 0 (length (clubs this))) (clubs this)) [] in
  map (fun entry => {| dupName := fst entry; indices := snd entry;
                       count := length (snd entry) |})
      (filter (fun entry => (1 <? length (snd entry))%nat) counts).

Section Operations.
Context {U : Unicode} {C : UpperCase}.

(** [v.toLowerCase()], a method only strings have. *)
Definition lowerCased (v : jsval) : outcome jsstring :=
  match v with
  | JStr s => Returns (toLowerCase s)
  | JUndefined | JNull =>
      Throws (TypeError "Cannot read properties of null or undefined (reading 'toLowerCase')")
  | _ => Throws (TypeError "toLowerCase is not a function")
  end.

(** The callback of [filter] in [searchByDepartment]:
    [doctor.department &&
     doctor.department.toLowerCase().includes(department.toLowerCase())]. *)
Definition inDepartment (wanted : jsval) (doctor : Doctor) : outcome bool :=
  if truthy (department doctor) then
    own <- lowerCased (department doctor) ;;
    sought <- lowerCased wanted ;;
    Returns (includes own sought)
  else Returns false.

(** [searchByDepartment(department)] *)
Definition searchByDepartment (this : HTUAssistant) (wanted : jsval)
  : outcome (list Doctor) :=
  filterM (inDepartment wanted) (doctors this).

(** [this.calculateSimilarity(a, b) > 0.6].  The similarity is a quotient
    of two lengths: where it is not 3/5 it is further from 3/5, for texts
    of the length an engine holds, than doubles are apart, so the
    comparison of the doubles is the comparison of the rationals. *)
Definition similar (a b : jsstring) : bool :=
  if Qlt_le_dec (6 # 10) (calculateSimilarity a b) then true else false.

(** The [forEach] over [this.doctors] in [getSmartSuggestions]: the names
    pushed, in order. *)
Fixpoint similarNames (queryLower : jsstring) (doctors : list Doctor)
  : outcome (list jsstring) :=
  match doctors with
  | [] => Returns []
  | doctor :: rest =>
      if truthy (name doctor) then
        nameLower <- lowerCased (name doctor) ;;
        others <- similarNames queryLower rest ;;
        Returns (if similar nameLower queryLower
                 then ToString (name doctor) :: others else others)
      else similarNames queryLower rest
  end.

(** The corrections whose key the query contains. *)
Definition corrections (table : list (string * string)) (queryLower : jsstring)
  : list jsstring :=
  map (fun entry => str (snd entry))
      (filter (fun entry => includes queryLower (str (fst entry))) table).

(** [getSmartSuggestions(query)] *)
Definition getSmartSuggestions (this : HTUAssistant) (query : jsval)
  : outcome (list jsstring) :=
  queryLower <- lowerCased (orEmpty query) ;;
  (* Check for similar department names *)
  let fromDepartments :=
    filter (fun dept => similar (toLowerCase dept) queryLower)
           (departments this) in
  (* Check for similar doctor names *)
  fromDoctors <- similarNames queryLower (doctors this) ;;
  (* Check for common misspellings *)
  let fromMistakes := corrections commonMistakes queryLower in
  Returns (slice0 3 (distinct (fromDepartments ++ fromDoctors ++ fromMistakes))).

(** [getClubSuggestions(query)] *)
Definition getClubSuggestions (this : HTUAssistant) (query : jsval)
  : outcome (list jsstring) :=
  queryLower <- lowerCased query ;;
  (* Check for similar club names *)
  let fromNames :=
    map clubName
        (filter (fun club =>
                   negb (isEmpty (clubName club))
                   && similar (toLowerCase (clubName club)) queryLower)
                (clubs this)) in
  (* Check for similar club types *)
  let clubTypes := distinct (map clubType (clubs this)) in
  let fromTypes :=
    filter (fun type => similar (toLowerCase type) queryLower) clubTypes in
  (* Check for common club-related terms *)
  let fromTerms := corrections commonTerms queryLower in
  Returns (slice0 3 (distinct (fromNames ++ fromTypes ++ fromTerms))).

(** [getBuildingInfo(officeCode)] *)
Definition getBuildingInfo (this : HTUAssistant) (officeCode : jsval)
  : outcome (option Building) :=
  match legend (nameSystem this) with
  | None => Returns None
  | Some entries =>
      (* Normalize input and attempt to find matching legend entry *)
      if negb (truthy officeCode) then Returns None else
      match splitRegex separator (trim (ToString officeCode)) with
      | first :: _ => Returns (mapGet (toUpperCase first) entries)
      | [] =>
          Throws (TypeError "Cannot read properties of undefined (reading 'toUpperCase')")
      end
  end.

End Operations.

End Directory.

(* ================================================================== *)
(** ** Vocabulary of the further statements *)

(** The recurrence of the matrix of [calculateSimilarity], on texts read
    from their last unit: for prefixes [a] of [str1] and [b] of [str2],
    [lev (rev a) (rev b)] is the cell [matrix[length b][length a]]. *)
Fixpoint lev (a : list N) : list N -> nat :=
  fix inner (b : list N) : nat :=
    match a, b with
    | [], _ => length b
    | _, [] => length a
    | x :: a', y :: b' =>
        if (y =? x)%N then lev a' b'
        else Nat.min (lev a' b' + 1)
                     (Nat.min (lev a' b + 1) (inner b' + 1))
    end.

(** The clean club [loadClubs] makes of an entry of the clubs file. *)
Definition cleanClub (club : Index.RawClub) : Club :=
  {| clubType := Index.cleaned (Index.rawType club) (str "N/A");
     clubName :=
       collapseSpaces (trim (ToString (orEmpty (Index.rawName club))));
     clubEmail := Index.cleaned (Index.rawEmail club) (str "N/A");
     instagram := Index.cleaned (Index.rawInstagram club) (str "N/A");
     about := Index.cleaned (Index.rawAbout club) [] |}.

(** An entry with the two fields [loadClubs] requires. *)
Definition hasRequiredFields (club : Index.RawClub) : bool :=
  truthy (Index.rawType club) && truthy (Index.rawName club).

(** The positions of the clubs whose trimmed name is [name]. *)
Definition positionsOf (name : jsstring) (entries : list (nat * Club))
  : list nat :=
  map fst (filter (fun entry => eqs (trim (clubName (snd entry))) name) entries).

(** A text in which every unit of the class of [escapeMarkdown] stands
    right after a backslash that escapes it. *)
Fixpoint escaped (s : jsstring) : bool :=
  match s with
  | [] => true
  | c :: r =>
      if (c =? 92)%N then
        match r with
        | d :: r' => isMarkdownSpecial d && escaped r'
        | [] => false
        end
      else negb (isMarkdownSpecial c) && escaped r
  end.

(** The text an escaped text stands for: each escaping backslash is
    dropped. *)
Fixpoint unescaped (s : jsstring) : jsstring :=
  match s with
  | [] => []
  | c :: r =>
      if (c =? 92)%N then
        match r with
        | d :: r' => d :: unescaped r'
        | [] => []
        end
      else c :: unescaped r
  end.

(** An index with a legend of two buildings, one under a key of three
    letters. *)
Definition twoBuildings : Index.HTUAssistant :=
  {| Index.doctors := [];
     Index.departments := [];
     Index.clubs := [];
     Index.nameSystem :=
       {| Index.legend :=
            Some [ (str "IJC",
                    {| Index.buildingName := str "Innovation Center";
                       Index.nickname := str "IJC";
                       Index.color := str "blue" |});
                   (str "S",
                    {| Index.buildingName := str "South";
                       Index.nickname := str "S";
                       Index.color := str "green" |}) ] |} |}.

(** What [escapeMarkdown] makes of one unit. *)
Definition escapeUnit (c : N) : list N :=
  if isMarkdownSpecial c then [92%N; c] else [c].

(** What holds of [(validClubs, seenNames)] once the entries [seen] have
    gone through [cleanStep]. *)
Definition cleanInvariant (seen : list Index.RawClub) (acc : list Club * list jsstring)
  : Prop :=
  snd acc = map clubName (fst acc)
  /\ NoDup (snd acc)
  /\ (forall c, In c (fst acc) ->
        exists raw, In raw seen /\ hasRequiredFields raw = true
                    /\ c = cleanClub raw)
  /\ (forall raw, In raw seen -> hasRequiredFields raw = true ->
        In (clubName (cleanClub raw)) (snd acc)).

(** What the [Map] of [detectDuplicates] holds once the clubs of [seen]
    have been counted. *)
Definition countInvariant (seen : list (nat * Club))
  (counts : list (jsstring * list nat)) : Prop :=
  NoDup (map fst counts)
  /\ forall name,
       mapGet name counts
       = if isEmpty (positionsOf name seen) then None
         else Some (positionsOf name seen).

(** Strictly ascending in the order of the default [sort()]. *)
Definition ascending (l : list jsstring) : Prop :=
  StronglySorted (fun a b => Index.precedes a b = true) l.

(** A doctor whose department is a text that is not empty. *)
Definition inDepartmentNamed (x : jsstring) (doctor : Doctor) : Prop :=
  exists s, department doctor = JStr s /\ s <> [] /\ x = trim s.

(** What the callback of a [filter] that can throw keeps. *)
Definition keeps {A} (keep : A -> outcome bool) (x : A) : bool :=
  match keep x with
  | Returns true => true
  | _ => false
  end.

(** A value that is not a text. *)
Definition notText (v : jsval) : Prop := forall s, v <> JStr s.

(** The doctor is listed under a department whose lower case contains the
    lower case of the text sought. *)
Definition departmentContains {U : Unicode} (wanted : jsval) (doctor : Doctor)
  : Prop :=
  exists own sought,
    department doctor = JStr own /\ own <> [] /\ wanted = JStr sought
    /\ includes (toLowerCase own) (toLowerCase sought) = true.

(** The corrections a table can give. *)
Definition correctionsOf (table : list (string * string)) : list jsstring :=
  map (fun entry => str (snd entry)) table.

(** Captures made of units of a text. *)
Definition drawnFrom (text : jsstring) (caps : Intent.captures) : Prop :=
  forall s, In (Some s) caps -> forall c, In c s -> In c text.

(** The units [parseNaturalLanguageQuery] strips from an entity:
    [?], [.], [,] and [!]. *)
Definition isMark (c : N) : bool :=
  ((c =? 63) || (c =? 46) || (c =? 44) || (c =? 33))%N.

(** Entries of a clubs file, and a file that names the same club twice
    and holds an entry without a type. *)
Definition rawClubNamed (type : jsval) (name : string) : Index.RawClub :=
  {| Index.rawType := type; Index.rawName := JStr (str name);
     Index.rawEmail := JUndefined; Index.rawInstagram := JUndefined;
     Index.rawAbout := JUndefined |}.

Definition chessTwice : Index.Disk :=
  {| Index.configuredPath := Index.Missing;
     Index.besideBot := Index.Missing;
     Index.inWorkingDir := Index.Missing;
     Index.clubsFile :=
       Index.Parsed [ rawClubNamed (JStr (str "Club")) " Chess   Club ";
                      rawClubNamed (JStr (str "Club")) "Chess Club";
                      rawClubNamed JUndefined "Art" ];
     Index.nameSystemFile := Index.Missing |}.

(** An index in which two clubs differ by white space around the name
    only. *)
Definition clubNamed (n : string) : Club :=
  {| clubType := str "Club"; clubName := str n; clubEmail := str "N/A";
     instagram := str "N/A"; about := [] |}.


Definition twoChessClubs : Index.HTUAssistant :=
  Index.setClubs [clubNamed "Chess"; clubNamed "Art"; clubNamed " Chess"]
    lastGood.

(** A disk whose doctors file holds three doctors of two departments. *)
Definition threeDoctors : Index.Disk :=
  {| Index.configuredPath := Index.Parsed [omarKhalil; omar; khalilPlain];
     Index.besideBot := Index.Missing;
     Index.inWorkingDir := Index.Missing;
     Index.clubsFile := Index.Missing;
     Index.nameSystemFile := Index.Missing |}.

(* ================================================================== *)
(** * Properties *)

(** ** Strings *)

Lemma eqs_true (a b : jsstring) : eqs a b = true <-> a = b.
Proof.
  unfold eqs. destruct (list_eq_dec N.eq_dec a b); split; intro H;
    congruence.
Qed.

Lemma eqs_false (a b : jsstring) : eqs a b = false <-> a <> b.
Proof.
  unfold eqs. destruct (list_eq_dec N.eq_dec a b); split; intro H;
    congruence.
Qed.

Lemma eqs_refl (a : jsstring) : eqs a a = true.
Proof. now apply eqs_true. Qed.

Lemma existsb_eqs (x : jsstring) (l : list jsstring) :
  existsb (eqs x) l = true <-> In x l.
Proof.
  rewrite existsb_exists. split.
  - intros (y & Hy & E). apply eqs_true in E. now subst.
  - intro H. exists x. split; [assumption | apply eqs_refl].
Qed.

(* ------------------------------------------------------------------ *)
(** ** Lists: order of occurrence *)

Lemma before_nth_error {A} (a b : A) (l : list A) :
  before a b l <->
  exists i j, (i < j)%nat /\ nth_error l i = Some a /\ nth_error l j = Some b.
Proof.
  split.
  - intros (l1 & l2 & l3 & ->).
    exists (length l1), (length l1 + S (length l2))%nat. repeat split.
    + lia.
    + rewrite nth_error_app2 by lia. now rewrite Nat.sub_diag.
    + rewrite nth_error_app2 by lia.
      replace (length l1 + S (length l2) - length l1)%nat
        with (S (length l2)) by lia.
      simpl. rewrite nth_error_app2 by lia. now rewrite Nat.sub_diag.
  - intros (i & j & Hij & Hi & Hj).
    destruct (nth_error_split l i Hi) as (l1 & r & -> & Hl1).
    rewrite nth_error_app2 in Hj by lia.
    destruct (j - length l1)%nat as [|n] eqn:E; [lia|].
    simpl in Hj.
    destruct (nth_error_split r n Hj) as (l2 & l3 & -> & _).
    now exists l1, l2, l3.
Qed.

Lemma before_map {A B} (f : A -> B) (a b : A) (l : list A) :
  before a b l -> before (f a) (f b) (map f l).
Proof.
  intros (l1 & l2 & l3 & ->).
  exists (map f l1), (map f l2), (map f l3).
  now rewrite map_app; simpl; rewrite map_app.
Qed.

Lemma before_filter {A} (f : A -> bool) (a b : A) (l : list A) :
  f a = true -> f b = true -> before a b l -> before a b (filter f l).
Proof.
  intros Ha Hb (l1 & l2 & l3 & ->).
  exists (filter f l1), (filter f l2), (filter f l3).
  rewrite filter_app. simpl. rewrite Ha, filter_app. simpl. now rewrite Hb.
Qed.

Lemma filter_eq_cons {A} (f : A -> bool) (l : list A) a y :
  filter f l = a :: y ->
  exists l0 l1, l = l0 ++ a :: l1 /\ filter f l1 = y.
Proof.
  induction l as [|x l IH]; simpl; [discriminate|].
  destruct (f x) eqn:E.
  - intros [= -> <-]. now exists [], l.
  - intro H. destruct (IH H) as (l0 & l1 & -> & H1).
    now exists (x :: l0), l1.
Qed.

Lemma filter_eq_app {A} (f : A -> bool) (l : list A) x y :
  filter f l = x ++ y ->
  exists lx ly, l = lx ++ ly /\ filter f lx = x /\ filter f ly = y.
Proof.
  revert l. induction x as [|a x IH]; simpl; intros l H.
  - now exists [], l.
  - destruct (filter_eq_cons f l _ _ H) as (l0 & l1 & -> & H1).
    destruct (IH l1 H1) as (lx & ly & -> & Hx & Hy).
    exists (l0 ++ a :: lx), ly. repeat split.
    + now rewrite <- app_assoc.
    + rewrite filter_app. simpl.
      rewrite filter_app in H. simpl in H.
      destruct (f a) eqn:E.
      * rewrite Hx.
        destruct (filter f l0) as [|z t] eqn:E0; [reflexivity|].
        exfalso.
        assert (length (z :: t ++ a :: filter f (lx ++ ly))
                = length (a :: x ++ y)) as L by (now rewrite <- H).
        rewrite filter_app, Hx, Hy in L. simpl in L.
        rewrite !length_app in L. simpl in L. rewrite length_app in L. lia.
      * exfalso.
        assert (In a (filter f (l0 ++ lx ++ ly))) as Hin.
        { rewrite filter_app, H. now left. }
        apply filter_In in Hin. destruct Hin as [_ Hin]. congruence.
    + assumption.
Qed.

Lemma before_of_filter {A} (f : A -> bool) (a b : A) (l : list A) :
  before a b (filter f l) -> before a b l.
Proof.
  intros (x1 & x2 & x3 & H).
  destruct (filter_eq_app f l _ _ H) as (l1 & r & -> & _ & Hr).
  destruct (filter_eq_cons f r _ _ Hr) as (r0 & r1 & -> & Hr1).
  destruct (filter_eq_app f r1 _ _ Hr1) as (l2 & r2 & -> & _ & Hr2).
  destruct (filter_eq_cons f r2 _ _ Hr2) as (r3 & r4 & -> & _).
  exists (l1 ++ r0), (l2 ++ r3), r4.
  now rewrite <- !app_assoc.
Qed.

Lemma before_firstn {A} (a b : A) n (l : list A) :
  before a b (firstn n l) -> before a b l.
Proof.
  intros (l1 & l2 & l3 & H).
  exists l1, l2, (l3 ++ skipn n l).
  rewrite <- (firstn_skipn n l) at 1. rewrite H.
  now rewrite <- !app_assoc; simpl; rewrite <- app_assoc.
Qed.

Lemma In_firstn {A} (x : A) n (l : list A) : In x (firstn n l) -> In x l.
Proof.
  intro H. rewrite <- (firstn_skipn n l). apply in_app_iff. now left.
Qed.

Lemma firstIndex_lt k ks : In k ks <-> (firstIndex k ks < length ks)%nat.
Proof.
  induction ks as [|x r IH]; simpl.
  - split; [tauto | lia].
  - destruct (eqs x k) eqn:E.
    + apply eqs_true in E. split; [lia | now left].
    + apply eqs_false in E. rewrite <- Nat.succ_lt_mono, <- IH. tauto.
Qed.

Lemma firstIndex_app_in k p q :
  In k p -> firstIndex k (p ++ q) = firstIndex k p.
Proof.
  induction p as [|x r IH]; simpl; [tauto|].
  destruct (eqs x k) eqn:E; [reflexivity|].
  apply eqs_false in E. intros [H|H]; [congruence|]. now rewrite IH.
Qed.

Lemma firstIndex_app_out k p q :
  ~ In k p -> firstIndex k (p ++ q) = (length p + firstIndex k q)%nat.
Proof.
  induction p as [|x r IH]; simpl; [reflexivity|].
  destruct (eqs x k) eqn:E.
  - apply eqs_true in E. tauto.
  - intro H. rewrite IH; tauto.
Qed.

Lemma firstOccurrences_spec ks :
  NoDup (firstOccurrences ks)
  /\ (forall k, In k (firstOccurrences ks) <-> In k ks)
  /\ (forall x y, before x y (firstOccurrences ks) ->
                  (firstIndex x ks < firstIndex y ks)%nat).
Proof.
  unfold firstOccurrences.
  induction ks as [|k ks IH] using rev_ind.
  - simpl. repeat split; try tauto; [constructor|].
    intros x y (l1 & l2 & l3 & H). now destruct l1.
  - rewrite fold_left_app. simpl.
    destruct IH as (ND & Hin & Hord).
    set (acc := fold_left addKey ks []) in *.
    unfold addKey. destruct (existsb (eqs k) acc) eqn:E.
    + apply existsb_eqs in E. repeat split.
      * assumption.
      * rewrite Hin, in_app_iff. tauto.
      * rewrite in_app_iff. simpl. intros [H|[<-|[]]];
          [now apply Hin | assumption].
      * intros x y Hb. pose proof (Hord x y Hb) as Hlt.
        assert (In x ks /\ In y ks) as [Hx Hy].
        { destruct Hb as (l1 & l2 & l3 & Hb). split; apply Hin; rewrite Hb;
            rewrite !in_app_iff; simpl; rewrite ?in_app_iff; simpl; tauto. }
        now rewrite !firstIndex_app_in.
    + assert (~ In k acc) as Hk.
      { intro H. apply existsb_eqs in H. congruence. }
      repeat split.
      * apply NoDup_app; [assumption | repeat constructor; tauto | ].
        intros z Hz [<-|[]]. tauto.
      * rewrite !in_app_iff. intros [H|H]; [left; now apply Hin | now right].
      * rewrite !in_app_iff. intros [H|H]; [left; now apply Hin | now right].
      * intros x y (l1 & l2 & l3 & Hb).
        destruct l3 as [|z l3 _] using rev_ind.
        -- (* [y] is the key just added *)
           assert (acc = l1 ++ x :: l2 /\ y = k) as [Hacc ->].
           { replace (l1 ++ x :: l2 ++ [y]) with ((l1 ++ x :: l2) ++ [y]) in Hb
               by (now rewrite <- app_assoc).
             apply app_inj_tail in Hb. destruct Hb as [Hb1 Hb2]. now split. }
           assert (In x ks) as Hx.
           { apply Hin. rewrite Hacc, in_app_iff. simpl. tauto. }
           rewrite firstIndex_app_in by assumption.
           rewrite firstIndex_app_out by (now rewrite <- Hin).
           apply firstIndex_lt in Hx. lia.
        -- assert (acc = l1 ++ x :: l2 ++ y :: l3) as Hacc.
           { replace (l1 ++ x :: l2 ++ y :: l3 ++ [z])
               with ((l1 ++ x :: l2 ++ y :: l3) ++ [z]) in Hb.
             - apply app_inj_tail in Hb. tauto.
             - rewrite <- app_assoc. simpl. f_equal. f_equal.
               now rewrite <- app_assoc. }
           assert (before x y acc) as Hb' by (now exists l1, l2, l3).
           pose proof (Hord x y Hb') as Hlt.
           assert (In x ks /\ In y ks) as [Hx Hy].
           { split; apply Hin; rewrite Hacc;
               rewrite !in_app_iff; simpl; rewrite ?in_app_iff; simpl; tauto. }
           now rewrite !firstIndex_app_in.
Qed.

(* ------------------------------------------------------------------ *)
(** ** The pipeline after scoring: deduplicate, sort, truncate *)

Section Pipeline.
Variable R : Type.
Variable key : Scored R -> jsstring.

Implicit Types (m : list (jsstring * Scored R)) (l : list (Scored R)).

Lemma mapGet_None {V} (k : jsstring) (m : list (jsstring * V)) :
  mapGet k m = None <-> ~ In k (map fst m).
Proof.
  induction m as [|[k' v] m IH]; simpl.
  - tauto.
  - destruct (eqs k' k) eqn:E.
    + apply eqs_true in E. subst. split; [discriminate | tauto].
    + apply eqs_false in E. rewrite IH. tauto.
Qed.

Lemma mapGet_Some {V} (k : jsstring) (v : V) (m : list (jsstring * V)) :
  mapGet k m = Some v -> In (k, v) m.
Proof.
  induction m as [|[k' v'] m IH]; simpl; [discriminate|].
  destruct (eqs k' k) eqn:E.
  - apply eqs_true in E. intros [= ->]. subst. now left.
  - intro H. right. auto.
Qed.

Lemma mapSet_absent {V} (k : jsstring) (v : V) (m : list (jsstring * V)) :
  ~ In k (map fst m) -> mapSet k v m = m ++ [(k, v)].
Proof.
  induction m as [|[k' v'] m IH]; simpl; intro H; [reflexivity|].
  destruct (eqs k' k) eqn:E.
  - apply eqs_true in E. tauto.
  - rewrite IH; tauto.
Qed.

Lemma mapSet_keys {V} (k : jsstring) (v : V) (m : list (jsstring * V)) :
  In k (map fst m) -> map fst (mapSet k v m) = map fst m.
Proof.
  induction m as [|[k' v'] m IH]; simpl; intro H; [tauto|].
  destruct (eqs k' k) eqn:E; simpl.
  - reflexivity.
  - apply eqs_false in E. f_equal. apply IH. tauto.
Qed.

Lemma mapSet_In {V} (k : jsstring) (v : V) (m : list (jsstring * V)) kv :
  NoDup (map fst m) ->
  In kv (mapSet k v m) -> kv = (k, v) \/ (In kv m /\ fst kv <> k).
Proof.
  induction m as [|[k' v'] m IH]; simpl; intro ND.
  - intros [<-|[]]. now left.
  - inversion ND as [|? ? Hk' ND']; subst.
    destruct (eqs k' k) eqn:E; simpl.
    + apply eqs_true in E. subst k'. intros [<-|H]; [now left|].
      right. split; [now right|].
      intros <-. apply Hk'. now apply in_map.
    + apply eqs_false in E. intros [<-|H].
      * right. split; [now left | assumption].
      * destruct (IH ND' H) as [->|[H1 H2]]; [now left|].
        right. split; [now right | assumption].
Qed.

Lemma NoDup_keys_unique {V} (k : jsstring) (v1 v2 : V) (m : list (jsstring * V)) :
  NoDup (map fst m) -> In (k, v1) m -> In (k, v2) m -> v1 = v2.
Proof.
  induction m as [|[k' v'] m IH]; simpl; intro ND; [tauto|].
  inversion ND as [|? ? Hk' ND']; subst.
  intros [H1|H1] [H2|H2].
  - congruence.
  - exfalso. apply Hk'. apply (in_map fst) in H2. simpl in H2. congruence.
  - exfalso. apply Hk'. apply (in_map fst) in H1. simpl in H1. congruence.
  - now apply IH.
Qed.

Lemma keepBest_invariant (results : list (Scored R)) :
  mapInvariant key (fold_left (keepBest key) results []) results.
Proof.
  induction results as [|r results IH] using rev_ind.
  - split; [constructor|]. split; [reflexivity|]. intros k v [].
  - rewrite fold_left_app. simpl.
    set (m := fold_left (keepBest key) results []) in *.
    destruct IH as (ND & Hkeys & Hent).
    assert (forall y, In y results -> In (key y) (map fst m)) as Hcomplete.
    { intros y Hy. rewrite Hkeys.
      apply (proj1 (proj2 (firstOccurrences_spec _))). now apply in_map. }
    assert (firstOccurrences (map key (results ++ [r]))
            = addKey (map fst m) (key r)) as Hfo.
    { unfold firstOccurrences. rewrite map_app, fold_left_app. simpl.
      now rewrite Hkeys. }
    unfold keepBest. destruct (mapGet (key r) m) as [prev|] eqn:G.
    + pose proof (mapGet_Some _ _ _ G) as Hprev.
      assert (In (key r) (map fst m)) as Hin.
      { now apply (in_map fst) in Hprev. }
      assert (addKey (map fst m) (key r) = map fst m) as Hadd.
      { unfold addKey.
        now rewrite (proj2 (existsb_eqs (key r) (map fst m)) Hin). }
      destruct (score prev <? score r)%Z eqn:Hlt.
      * apply Z.ltb_lt in Hlt.
        split; [now rewrite mapSet_keys|].
        split; [now rewrite mapSet_keys, Hfo, Hadd|].
        intros k v H.
        destruct (mapSet_In _ _ _ _ ND H) as [E|[H1 H2]].
        -- injection E as -> ->.
           split; [reflexivity|]. split; [apply in_app_iff; right; now left|].
           intros y Hy Hk. apply in_app_iff in Hy.
           destruct Hy as [Hy|[<-|[]]]; [|lia].
           destruct (Hent _ _ Hprev) as (_ & _ & Hmax).
           specialize (Hmax y Hy Hk). lia.
        -- destruct (Hent _ _ H1) as (Hk & Hv & Hmax). simpl in H2.
           split; [assumption|]. split; [apply in_app_iff; now left|].
           intros y Hy Hyk. apply in_app_iff in Hy.
           destruct Hy as [Hy|[<-|[]]]; [now apply Hmax | congruence].
      * apply Z.ltb_ge in Hlt.
        split; [assumption|]. split; [now rewrite Hfo, Hadd|].
        intros k v H. destruct (Hent _ _ H) as (Hk & Hv & Hmax).
        split; [assumption|]. split; [apply in_app_iff; now left|].
        intros y Hy Hyk. apply in_app_iff in Hy.
        destruct Hy as [Hy|[<-|[]]]; [now apply Hmax|].
        subst k. rewrite Hyk in Hprev.
        now rewrite (NoDup_keys_unique _ _ _ _ ND H Hprev).
    + apply mapGet_None in G.
      assert (addKey (map fst m) (key r) = map fst m ++ [key r]) as Hadd.
      { unfold addKey. destruct (existsb (eqs (key r)) (map fst m)) eqn:E;
          [|reflexivity].
        apply existsb_eqs in E. tauto. }
      rewrite mapSet_absent by assumption.
      split.
      { rewrite map_app. simpl. apply NoDup_app;
          [assumption | repeat constructor; tauto|].
        intros z Hz [<-|[]]. tauto. }
      split; [now rewrite map_app, Hfo, Hadd|].
      intros k v H. apply in_app_iff in H. destruct H as [H|[E|[]]].
      * destruct (Hent _ _ H) as (Hk & Hv & Hmax).
        split; [assumption|]. split; [apply in_app_iff; now left|].
        intros y Hy Hyk. apply in_app_iff in Hy.
        destruct Hy as [Hy|[<-|[]]]; [now apply Hmax|].
        exfalso. apply G. rewrite Hyk. now apply (in_map fst) in H.
      * injection E as <- <-.
        split; [reflexivity|]. split; [apply in_app_iff; right; now left|].
        intros y Hy Hyk. apply in_app_iff in Hy.
        destruct Hy as [Hy|[<-|[]]]; [|lia].
        exfalso. apply G. rewrite <- Hyk. now apply Hcomplete.
Qed.

(** [dedupe]: one entry per key, the keys in the order in which they first
    occur, each entry a highest-scoring one of its key. *)
Lemma dedupe_keys (results : list (Scored R)) :
  map key (dedupe key results) = firstOccurrences (map key results).
Proof.
  destruct (keepBest_invariant results) as (_ & Hkeys & Hent).
  unfold dedupe. rewrite <- Hkeys, map_map.
  apply map_ext_in. intros [k v] H. simpl. now apply Hent.
Qed.

Lemma dedupe_NoDup (results : list (Scored R)) :
  NoDup (map key (dedupe key results)).
Proof.
  rewrite dedupe_keys. apply firstOccurrences_spec.
Qed.

Lemma dedupe_best (results : list (Scored R)) (v : Scored R) :
  In v (dedupe key results) ->
  In v results
  /\ forall y, In y results -> key y = key v -> (score y <= score v)%Z.
Proof.
  destruct (keepBest_invariant results) as (_ & _ & Hent).
  unfold dedupe. rewrite in_map_iff. intros ([k v'] & E & H).
  simpl in E. subst v'. destruct (Hent _ _ H) as (Hk & Hin & Hmax).
  split; [assumption|]. intros y Hy Hyk. apply Hmax; congruence.
Qed.

Lemma dedupe_complete (results : list (Scored R)) (y : Scored R) :
  In y results ->
  exists v, In v (dedupe key results) /\ key v = key y
            /\ (score y <= score v)%Z.
Proof.
  intro Hy.
  assert (In (key y) (map key (dedupe key results))) as H.
  { rewrite dedupe_keys. apply firstOccurrences_spec. now apply in_map. }
  apply in_map_iff in H. destruct H as (v & Hk & Hv).
  exists v. repeat split; try assumption.
  destruct (dedupe_best _ _ Hv) as [_ Hmax]. apply Hmax; congruence.
Qed.

Lemma insertByScore_perm (r : Scored R) l :
  Permutation (insertByScore r l) (r :: l).
Proof.
  induction l as [|y l IH]; simpl; [reflexivity|].
  destruct (0 <? score y - score r)%Z; [|reflexivity].
  rewrite IH. apply perm_swap.
Qed.

Lemma sortByScore_perm l : Permutation (sortByScore l) l.
Proof.
  induction l as [|r l IH]; simpl; [constructor|].
  rewrite insertByScore_perm. now constructor.
Qed.

Lemma insertByScore_sorted (r : Scored R) l :
  StronglySorted descending l -> StronglySorted descending (insertByScore r l).
Proof.
  induction l as [|y l IH]; simpl; intro S.
  - repeat constructor.
  - inversion S as [|? ? S' Hall]; subst.
    destruct (0 <? score y - score r)%Z eqn:E.
    + apply Z.ltb_lt in E. constructor; [now apply IH|].
      apply Forall_forall. intros z Hz.
      apply (Permutation_in _ (insertByScore_perm r l)) in Hz.
      destruct Hz as [<-|Hz].
      * unfold descending. lia.
      * rewrite Forall_forall in Hall. now apply Hall.
    + apply Z.ltb_ge in E. constructor; [assumption|].
      constructor; [unfold descending; lia|].
      rewrite Forall_forall in Hall |- *. intros z Hz.
      specialize (Hall z Hz). unfold descending in *. lia.
Qed.

Lemma sortByScore_sorted l : StronglySorted descending (sortByScore l).
Proof.
  induction l as [|r l IH]; simpl; [constructor|].
  now apply insertByScore_sorted.
Qed.

Lemma insertByScore_stable (s : Z) (r : Scored R) l :
  filter (fun x => (score x =? s)%Z) (insertByScore r l)
  = filter (fun x => (score x =? s)%Z) (r :: l).
Proof.
  induction l as [|y l IH]; [reflexivity|].
  simpl insertByScore. destruct (0 <? score y - score r)%Z eqn:E;
    [|reflexivity].
  apply Z.ltb_lt in E.
  simpl. simpl in IH. rewrite IH.
  destruct (score y =? s)%Z eqn:Ey, (score r =? s)%Z eqn:Er; simpl;
    try reflexivity.
  apply Z.eqb_eq in Ey, Er. lia.
Qed.

Lemma sortByScore_stable (s : Z) l :
  filter (fun x => (score x =? s)%Z) (sortByScore l)
  = filter (fun x => (score x =? s)%Z) l.
Proof.
  induction l as [|r l IH]; [reflexivity|].
  simpl sortByScore. rewrite insertByScore_stable. simpl. now rewrite IH.
Qed.

Lemma sortByScore_ties (a b : Scored R) l :
  score a = score b -> before a b (sortByScore l) -> before a b l.
Proof.
  intros E Hb.
  apply (before_of_filter (fun x => (score x =? score a)%Z)).
  rewrite <- sortByScore_stable.
  apply before_filter; [apply Z.eqb_refl | now apply Z.eqb_eq | assumption].
Qed.

Lemma StronglySorted_before {A} (P : A -> A -> Prop) (a b : A) (l : list A) :
  StronglySorted P l -> before a b l -> P a b.
Proof.
  intros S (l1 & l2 & l3 & ->).
  induction l1 as [|x l1 IH]; simpl in S.
  - inversion S as [|? ? _ Hall]; subst.
    rewrite Forall_forall in Hall. apply Hall.
    rewrite in_app_iff. right. now left.
  - inversion S; subst. now apply IH.
Qed.

(** A descending list is determined by its classes of equal score: every
    stable sort yields what [sortByScore] yields. *)
Lemma descending_stable_unique l1 : forall l2,
  StronglySorted descending l1 -> StronglySorted descending l2 ->
  (forall s, filter (fun x => (score x =? s)%Z) l1
             = filter (fun x => (score x =? s)%Z) l2) ->
  l1 = l2.
Proof.
  induction l1 as [|a l1 IH]; intros l2 S1 S2 H.
  - destruct l2 as [|b l2]; [reflexivity|].
    specialize (H (score b)). simpl in H. rewrite Z.eqb_refl in H.
    discriminate H.
  - destruct l2 as [|b l2].
    + specialize (H (score a)). simpl in H. rewrite Z.eqb_refl in H.
      discriminate H.
    + inversion S1 as [|? ? S1' A1]; subst.
      inversion S2 as [|? ? S2' A2]; subst.
      rewrite Forall_forall in A1, A2.
      assert (In a (b :: l2)) as Ha.
      { pose proof (H (score a)) as Hs. simpl in Hs.
        rewrite Z.eqb_refl in Hs.
        assert (In a (filter (fun x => (score x =? score a)%Z) (b :: l2)))
          as Hin by (simpl; rewrite <- Hs; now left).
        now apply filter_In in Hin. }
      assert (In b (a :: l1)) as Hb.
      { pose proof (H (score b)) as Hs. simpl in Hs.
        rewrite Z.eqb_refl in Hs.
        assert (In b (filter (fun x => (score x =? score b)%Z) (a :: l1)))
          as Hin by (simpl; rewrite Hs; now left).
        now apply filter_In in Hin. }
      assert (score a = score b) as E.
      { assert (score a <= score b)%Z.
        { destruct Ha as [->|Ha]; [lia | exact (A2 _ Ha)]. }
        assert (score b <= score a)%Z.
        { destruct Hb as [->|Hb]; [lia | exact (A1 _ Hb)]. }
        lia. }
      assert (a = b) as ->.
      { pose proof (H (score a)) as Hs. simpl in Hs.
        rewrite <- E, Z.eqb_refl in Hs. now injection Hs. }
      f_equal. apply IH; try assumption.
      intro s. specialize (H s). simpl in H.
      destruct (score b =? s)%Z; [now injection H | assumption].
Qed.

Lemma sortByScore_unique l l' :
  StronglySorted descending l' ->
  (forall s, filter (fun x => (score x =? s)%Z) l'
             = filter (fun x => (score x =? s)%Z) l) ->
  l' = sortByScore l.
Proof.
  intros S H. apply descending_stable_unique;
    [assumption | apply sortByScore_sorted|].
  intro s. now rewrite sortByScore_stable.
Qed.

(** [slice0]: a prefix, of the length of the cap when that is not
    negative and there are enough entries. *)
Lemma slice0_firstn {A} (stop : Z) (l : list A) :
  (0 <= stop)%Z ->
  slice0 stop l = firstn (Nat.min (Z.to_nat stop) (length l)) l.
Proof.
  intro H. unfold slice0.
  destruct (stop <? 0)%Z eqn:E; [apply Z.ltb_lt in E; lia|].
  f_equal. lia.
Qed.

Lemma slice0_prefix {A} (stop : Z) (l : list A) :
  exists n, slice0 stop l = firstn n l.
Proof. unfold slice0. eauto. Qed.

Lemma slice0_length {A} (stop : Z) (l : list A) :
  (0 <= stop)%Z ->
  length (slice0 stop l) = Nat.min (Z.to_nat stop) (length l).
Proof.
  intro H. rewrite slice0_firstn by assumption.
  rewrite length_firstn. lia.
Qed.

Lemma ranked_NoDup cap results : NoDup (map key (ranked key cap results)).
Proof.
  unfold ranked. destruct (slice0_prefix cap (sortByScore (dedupe key results)))
    as [n ->].
  assert (NoDup (map key (sortByScore (dedupe key results)))) as ND.
  { eapply Permutation_NoDup; [|apply dedupe_NoDup].
    apply Permutation_map. symmetry. apply sortByScore_perm. }
  rewrite <- (firstn_skipn n (sortByScore (dedupe key results))) in ND.
  rewrite map_app in ND. now apply NoDup_app_remove_r in ND.
Qed.

Lemma ranked_In cap results v :
  In v (ranked key cap results) ->
  In v results
  /\ forall y, In y results -> key y = key v -> (score y <= score v)%Z.
Proof.
  unfold ranked. destruct (slice0_prefix cap (sortByScore (dedupe key results)))
    as [n ->].
  intro H. apply In_firstn in H.
  apply (Permutation_in _ (sortByScore_perm _)) in H.
  now apply dedupe_best.
Qed.

Lemma ranked_sorted cap results a b :
  before a b (ranked key cap results) -> (score b <= score a)%Z.
Proof.
  unfold ranked. destruct (slice0_prefix cap (sortByScore (dedupe key results)))
    as [n ->].
  intro H. apply before_firstn in H.
  exact (StronglySorted_before _ _ _ _ (sortByScore_sorted _) H).
Qed.

Lemma ranked_ties cap results a b :
  before a b (ranked key cap results) -> score a = score b ->
  (firstIndex (key a) (map key results)
   < firstIndex (key b) (map key results))%nat.
Proof.
  unfold ranked. destruct (slice0_prefix cap (sortByScore (dedupe key results)))
    as [n ->].
  intros H E. apply before_firstn in H.
  apply (sortByScore_ties _ _ _ E) in H.
  apply (before_map key) in H. rewrite dedupe_keys in H.
  now apply firstOccurrences_spec.
Qed.

Lemma ranked_length cap results :
  (0 <= cap)%Z ->
  length (ranked key cap results)
  = Nat.min (Z.to_nat cap)
            (length (firstOccurrences (map key results))).
Proof.
  intro H. unfold ranked. rewrite slice0_length by assumption.
  rewrite (Permutation_length (sortByScore_perm _)).
  now rewrite <- dedupe_keys, length_map.
Qed.

(** Whoever qualifies is represented by the best entry of its key, or the
    result is full and nothing in it scores less. *)
Lemma ranked_top cap results y :
  (0 <= cap)%Z -> In y results ->
  (exists v, In v (ranked key cap results) /\ key v = key y
             /\ (score y <= score v)%Z)
  \/ (length (ranked key cap results) = Z.to_nat cap
      /\ forall v, In v (ranked key cap results) -> (score y <= score v)%Z).
Proof.
  intros Hcap Hy.
  destruct (dedupe_complete _ _ Hy) as (w & Hw & Hk & Hs).
  apply (Permutation_in _ (Permutation_sym (sortByScore_perm _))) in Hw.
  pose proof (sortByScore_sorted (dedupe key results)) as S.
  unfold ranked. rewrite slice0_firstn by assumption.
  set (sorted := sortByScore (dedupe key results)) in *.
  set (n := Nat.min (Z.to_nat cap) (length sorted)).
  rewrite <- (firstn_skipn n sorted) in Hw, S.
  apply in_app_iff in Hw. destruct Hw as [Hw|Hw].
  - left. now exists w.
  - right. split.
    + rewrite length_firstn. fold n.
      assert (n < length sorted)%nat.
      { destruct (Nat.lt_ge_cases n (length sorted)) as [|Hge]; [assumption|].
        rewrite skipn_all2 in Hw by assumption. destruct Hw. }
      lia.
    + intros v Hv.
      apply in_split in Hv. destruct Hv as (l1 & l2 & Hv).
      apply in_split in Hw. destruct Hw as (l3 & l4 & Hw2).
      assert (before v w (firstn n sorted ++ skipn n sorted)) as Hb.
      { exists l1, (l2 ++ l3), l4. rewrite Hv, Hw2.
        now rewrite <- !app_assoc. }
      pose proof (StronglySorted_before _ _ _ _ S Hb) as Hd.
      unfold descending in Hd. lia.
Qed.

End Pipeline.

(* ------------------------------------------------------------------ *)
(** ** The searches as instances of one shape *)

Section Answer.
Variable R : Type.
Variable scoreOf : R -> Scored R.
Variable key : Scored R -> jsstring.
Hypothesis item_scoreOf : forall d, item (scoreOf d) = d.

Lemma candidates_positive records :
  candidates scoreOf records = map scoreOf (positive scoreOf records).
Proof.
  unfold candidates, positive.
  induction records as [|d records IH]; simpl; [reflexivity|].
  destruct (0 <? score (scoreOf d))%Z; simpl; now rewrite IH.
Qed.

Lemma candidates_In records v :
  In v (candidates scoreOf records) ->
  v = scoreOf (item v) /\ In (item v) records /\ (0 < score v)%Z.
Proof.
  unfold candidates. rewrite filter_In, in_map_iff.
  intros [(d & <- & Hd) Hpos]. rewrite item_scoreOf.
  repeat split; [assumption | now apply Z.ltb_lt].
Qed.

Lemma answer_kept cap records v :
  In v (ranked key cap (candidates scoreOf records)) ->
  v = scoreOf (item v) /\ In (item v) records /\ (0 < score v)%Z.
Proof.
  intro H. apply candidates_In. now apply (ranked_In _ _ _ _ _ H).
Qed.

Lemma answer_keys cap records :
  map (fun d => key (scoreOf d)) (answer scoreOf key cap records)
  = map key (ranked key cap (candidates scoreOf records)).
Proof.
  unfold answer. rewrite map_map.
  apply map_ext_in. intros v Hv.
  destruct (answer_kept _ _ _ Hv) as (E & _). now rewrite <- E.
Qed.

Lemma answer_NoDup cap records :
  NoDup (map (fun d => key (scoreOf d)) (answer scoreOf key cap records)).
Proof. rewrite answer_keys. apply ranked_NoDup. Qed.

Lemma answer_In cap records r :
  In r (answer scoreOf key cap records) ->
  In r records /\ (0 < score (scoreOf r))%Z
  /\ forall d, In d records -> key (scoreOf d) = key (scoreOf r) ->
               (score (scoreOf d) <= score (scoreOf r))%Z.
Proof.
  unfold answer. rewrite in_map_iff.
  intros (v & <- & Hv).
  destruct (answer_kept _ _ _ Hv) as (E & Hin & Hpos).
  rewrite <- E. repeat split; try assumption.
  intros d Hd Hk.
  destruct (Z.ltb_spec 0 (score (scoreOf d))) as [Hp|Hp]; [|lia].
  destruct (ranked_In _ _ _ _ _ Hv) as [_ Hmax]. apply Hmax; [|assumption].
  unfold candidates. rewrite filter_In. split;
    [now apply in_map | now apply Z.ltb_lt].
Qed.

Lemma answer_before cap records a b :
  before a b (answer scoreOf key cap records) ->
  exists va vb, before va vb (ranked key cap (candidates scoreOf records))
                /\ va = scoreOf a /\ vb = scoreOf b.
Proof.
  unfold answer.
  set (kept := ranked key cap (candidates scoreOf records)).
  intros (l1 & l2 & l3 & H).
  apply map_eq_app in H. destruct H as (k1 & r1 & Ek & <- & H).
  apply map_eq_cons in H. destruct H as (va & r2 & -> & <- & H).
  apply map_eq_app in H. destruct H as (k2 & r3 & -> & <- & H).
  apply map_eq_cons in H. destruct H as (vb & k3 & -> & <- & <-).
  exists va, vb. split; [now exists k1, k2, k3|].
  assert (In va kept /\ In vb kept) as [Ha Hb].
  { rewrite Ek. split; rewrite !in_app_iff; simpl; rewrite ?in_app_iff;
      simpl; tauto. }
  split; [apply (answer_kept _ _ _ Ha) | apply (answer_kept _ _ _ Hb)].
Qed.

Lemma answer_sorted cap records a b :
  before a b (answer scoreOf key cap records) ->
  (score (scoreOf b) <= score (scoreOf a))%Z.
Proof.
  intro H. apply answer_before in H. destruct H as (va & vb & Hb & -> & ->).
  now apply ranked_sorted in Hb.
Qed.

Lemma answer_ties cap records a b :
  before a b (answer scoreOf key cap records) ->
  score (scoreOf a) = score (scoreOf b) ->
  (firstIndex (key (scoreOf a))
     (map (fun d => key (scoreOf d)) (positive scoreOf records))
   < firstIndex (key (scoreOf b))
       (map (fun d => key (scoreOf d)) (positive scoreOf records)))%nat.
Proof.
  intros H E. apply answer_before in H.
  destruct H as (va & vb & Hb & -> & ->).
  apply ranked_ties in Hb; [|exact E].
  now rewrite candidates_positive, map_map in Hb.
Qed.

Lemma answer_length cap records :
  (0 <= cap)%Z ->
  length (answer scoreOf key cap records)
  = Nat.min (Z.to_nat cap)
      (length (firstOccurrences
                 (map (fun d => key (scoreOf d)) (positive scoreOf records)))).
Proof.
  intro H. unfold answer.
  rewrite length_map, ranked_length by assumption.
  now rewrite candidates_positive, map_map.
Qed.

Lemma answer_top cap records d :
  (0 <= cap)%Z -> In d records -> (0 < score (scoreOf d))%Z ->
  (exists r, In r (answer scoreOf key cap records)
             /\ key (scoreOf r) = key (scoreOf d)
             /\ (score (scoreOf d) <= score (scoreOf r))%Z)
  \/ (length (answer scoreOf key cap records) = Z.to_nat cap
      /\ forall r, In r (answer scoreOf key cap records) ->
                   (score (scoreOf d) <= score (scoreOf r))%Z).
Proof.
  intros Hcap Hd Hpos.
  assert (In (scoreOf d) (candidates scoreOf records)) as Hc.
  { unfold candidates. rewrite filter_In. split;
      [now apply in_map | now apply Z.ltb_lt]. }
  unfold answer.
  destruct (ranked_top _ key _ _ _ Hcap Hc) as [(v & Hv & Hk & Hs)|[Hl Hall]].
  - left. exists (item v).
    destruct (answer_kept _ _ _ Hv) as (E & _).
    rewrite <- E. repeat split; try assumption.
    now apply in_map.
  - right. split; [now rewrite length_map|].
    intros r Hr. apply in_map_iff in Hr. destruct Hr as (v & <- & Hv).
    destruct (answer_kept _ _ _ Hv) as (E & _). rewrite <- E.
    now apply Hall.
Qed.

End Answer.

(* ------------------------------------------------------------------ *)
(** ** The two searches *)

Section SearchFacts.
Context {U : Unicode}.

Lemma search_answer config doctors (q : jsstring) :
  search config doctors (JStr q)
  = if isEmpty q || (length (trim q) <? 2)%nat then Returns []
    else Returns (answer (scoredDoctor q) doctorKey (MAX_RESULTS config) doctors).
Proof.
  unfold search. simpl. destruct q as [|c q]; [reflexivity|]. simpl.
  destruct (length (trim (c :: q)) <? 2)%nat; reflexivity.
Qed.

Lemma searchClubs_answer config clubs (q : jsstring) :
  searchClubs config clubs (JStr q)
  = if isEmpty q || (length (trim q) <? 2)%nat then Returns []
    else Returns (answer (scoredClub q) clubKey (MAX_RESULTS config) clubs).
Proof.
  unfold searchClubs. simpl. destruct q as [|c q]; [reflexivity|]. simpl.
  destruct (length (trim (c :: q)) <? 2)%nat; reflexivity.
Qed.

(** What a returning call of [search] returns. *)
Lemma search_returns config doctors query rs :
  search config doctors query = Returns rs ->
  rs = []
  \/ exists q, query = JStr q /\ (2 <= length (trim q))%nat
               /\ rs = answer (scoredDoctor q) doctorKey (MAX_RESULTS config) doctors.
Proof.
  destruct query as [| |b| |z|q|o];
    try (unfold search; simpl; intros [= <-]; now left).
  - unfold search. simpl. destruct b; simpl; [discriminate|].
    intros [= <-]. now left.
  - unfold search. simpl. destruct (z =? 0)%Z; simpl; [|discriminate].
    intros [= <-]. now left.
  - rewrite search_answer.
    destruct (isEmpty q) eqn:E1; simpl; [intros [= <-]; now left|].
    destruct (Nat.ltb_spec (length (trim q)) 2); intros [= <-];
      [now left|].
    right. now exists q.
Qed.

Lemma searchClubs_returns config clubs query rs :
  searchClubs config clubs query = Returns rs ->
  rs = []
  \/ exists q, query = JStr q /\ (2 <= length (trim q))%nat
               /\ rs = answer (scoredClub q) clubKey (MAX_RESULTS config) clubs.
Proof.
  destruct query as [| |b| |z|q|o];
    try (unfold searchClubs; simpl; intros [= <-]; now left).
  - unfold searchClubs. simpl. destruct b; simpl; [discriminate|].
    intros [= <-]. now left.
  - unfold searchClubs. simpl. destruct (z =? 0)%Z; simpl; [|discriminate].
    intros [= <-]. now left.
  - rewrite searchClubs_answer.
    destruct (isEmpty q) eqn:E1; simpl; [intros [= <-]; now left|].
    destruct (Nat.ltb_spec (length (trim q)) 2); intros [= <-];
      [now left|].
    right. now exists q.
Qed.

(** A text query never makes the searches throw. *)
Lemma search_total_on_text config doctors (q : jsstring) :
  exists rs, search config doctors (JStr q) = Returns rs.
Proof. rewrite search_answer. destruct (_ || _); eauto. Qed.

Lemma doctorKey_scored q d : doctorKey (scoredDoctor q d) = canonicalKey d.
Proof. reflexivity. Qed.

Lemma clubKey_scored q c : clubKey (scoredClub q c) = clubCanonicalKey c.
Proof.
  unfold clubKey, scoredClub, scoreClub, clubCanonicalKey. simpl.
  now destruct (isEmpty (normalize (JStr (clubName c)))).
Qed.

End SearchFacts.

(* ------------------------------------------------------------------ *)
(** ** Score tiers of [search] *)

Section Tiers.
Context {U : Unicode}.

Lemma exactOrContains_bounds field searchTerm exact exactTag part partTag :
  (0 <= part <= exact)%Z ->
  (0 <= fst (exactOrContains field searchTerm exact exactTag part partTag)
   <= exact)%Z.
Proof.
  intro H. unfold exactOrContains.
  destruct (negb (isEmpty field) && eqs (toLowerCase field) searchTerm);
    [simpl; lia|].
  destruct (negb (isEmpty field) && includes (toLowerCase field) searchTerm);
    simpl; lia.
Qed.

Lemma containsOnly_bounds field searchTerm part partTag :
  (0 <= part)%Z ->
  (0 <= fst (containsOnly field searchTerm part partTag) <= part)%Z.
Proof.
  intro H. unfold containsOnly.
  destruct (negb (isEmpty field) && includes (toLowerCase field) searchTerm);
    simpl; lia.
Qed.

(** The secondary fields add between 0 and 100 + 80 + 25 + 10. *)
Lemma doctorScore_range q d :
  let n := fst (nameScore (normNameOf d) (normQueryOf q)
                  (tokens (normNameOf d)) (tokens (normQueryOf q))) in
  (n <= doctorScore q d <= n + 215)%Z.
Proof.
  unfold doctorScore, scoredDoctor, scoreDoctor, normNameOf. simpl.
  set (st := searchTermOf q).
  pose proof (exactOrContains_bounds (fieldText (department d)) st
                100%Z "exact_department"%string 60%Z "department"%string
                ltac:(lia)) as H1.
  pose proof (exactOrContains_bounds (fieldText (office d)) st
                80%Z "exact_office"%string 30%Z "office"%string
                ltac:(lia)) as H2.
  pose proof (containsOnly_bounds (fieldText (school d)) st 25%Z "school"%string
                ltac:(lia)) as H3.
  pose proof (containsOnly_bounds (fieldText (email d)) st 10%Z "email"%string
                ltac:(lia)) as H4.
  lia.
Qed.



End Tiers.


(* ------------------------------------------------------------------ *)
(** ** Loaders and reload *)

Module IndexFacts.
Import Index.

Lemma firstReadable_unavailable disk :
  doctorsUnavailable disk -> loadDoctors disk = [].
Proof.
  intros (H1 & H2 & H3). unfold loadDoctors. simpl.
  destruct (configuredPath disk); try discriminate;
    destruct (besideBot disk); try discriminate;
    destruct (inWorkingDir disk); try discriminate; reflexivity.
Qed.

Lemma loadClubs_unusable disk :
  unusable (clubsFile disk) = true -> loadClubs disk = [].
Proof.
  unfold loadClubs. now destruct (clubsFile disk).
Qed.

(** [reload], step by step. *)
Lemma reload_unfold disk this :
  reload disk this
  = match extractDepartments (setDoctors (loadDoctors disk) this) with
    | Returns departments =>
        ({| doctors := loadDoctors disk; departments := departments;
            clubs := loadClubs disk; nameSystem := loadNameSystem disk |},
         Returns (Reloaded (length (loadDoctors disk))
                           (length (loadClubs disk))))
    | Throws e =>
        (setDoctors (loadDoctors disk) this, Returns (Failed (describe e)))
    end.
Proof.
  unfold reload, tryCatch, andThen, assign, getThis, lift, ret.
  destruct (extractDepartments (setDoctors (loadDoctors disk) this));
    reflexivity.
Qed.

End IndexFacts.

(* ------------------------------------------------------------------ *)
(** ** The intent extractor *)

Module IntentFacts.
Import Intent.

Lemma firstIntent_declared table text :
  firstIntent table text
  = firstDeclared
      (flat_map (fun entry => map (pair (fst entry)) (snd entry)) table) text.
Proof.
  induction table as [|[tag ps] table IH]; [reflexivity|].
  simpl. induction ps as [|p ps IHp]; simpl.
  - exact IH.
  - destruct (matchFrom p text); [reflexivity|]. exact IHp.
Qed.

Lemma firstDeclared_first earlier tag pattern later text caps :
  (forall x, In x earlier -> matchFrom (snd x) text = None) ->
  matchFrom pattern text = Some caps ->
  firstDeclared (earlier ++ (tag, pattern) :: later) text = Some (tag, caps).
Proof.
  intros Hnone Hm. induction earlier as [|[t p] earlier IH]; simpl.
  - now rewrite Hm.
  - pose proof (Hnone (t, p) (or_introl eq_refl)) as Hp. simpl in Hp.
    rewrite Hp. apply IH. intros x Hx. apply Hnone. now right.
Qed.

Lemma startsWith_split (input p : jsstring) :
  startsWith input p = true -> input = p ++ skipn (length p) input.
Proof.
  revert input. induction p as [|a p IH]; intros input H; [reflexivity|].
  destruct input as [|b input]; [discriminate|]. simpl in H.
  apply andb_true_iff in H. destruct H as [E H]. apply N.eqb_eq in E.
  subst b. simpl. f_equal. now apply IH.
Qed.

Lemma starLoop_consumes c k caps : forall input res,
  starLoop c k caps input = Some res ->
  exists pre rest, input = pre ++ rest /\ k caps rest = Some res.
Proof.
  induction input as [|x input IH]; intros res H; simpl in H.
  - now exists [], [].
  - destruct (inClass c x).
    + destruct (starLoop c k caps input) as [r|] eqn:E.
      * injection H as <-. destruct (IH _ eq_refl) as (pre & rest & -> & Hk).
        now exists (x :: pre), rest.
      * now exists [], (x :: input).
    + now exists [], (x :: input).
Qed.

(** A successful run hands the rest of the input, after what the
    expression consumed, to its continuation. *)
Lemma run_consumes r : forall k caps input res,
  run r k caps input = Some res ->
  exists caps' pre rest, input = pre ++ rest /\ k caps' rest = Some res.
Proof.
  induction r as [s|c|c|r IH|r1 IH1 r2 IH2|r1 IH1 r2 IH2|n r IH];
    intros k caps input res H; simpl in H.
  - destruct (startsWith input (str s)) eqn:E; [|discriminate].
    exists caps, (str s), (skipn (length (str s)) input).
    split; [now apply startsWith_split | assumption].
  - destruct (starLoop_consumes _ _ _ _ _ H) as (pre & rest & E & Hk).
    now exists caps, pre, rest.
  - destruct input as [|x input]; [discriminate|].
    destruct (inClass c x); [|discriminate].
    destruct (starLoop_consumes _ _ _ _ _ H) as (pre & rest & -> & Hk).
    now exists caps, (x :: pre), rest.
  - destruct (run r k caps input) as [r0|] eqn:E.
    + injection H as <-. now apply IH in E.
    + now exists caps, [], input.
  - destruct (IH1 _ _ _ _ H) as (caps1 & pre1 & rest1 & -> & H1).
    destruct (IH2 _ _ _ _ H1) as (caps2 & pre2 & rest2 & -> & H2).
    exists caps2, (pre1 ++ pre2), rest2. split; [now rewrite app_assoc|].
    assumption.
  - destruct (run r1 k caps input) as [r0|] eqn:E.
    + injection H as <-. now apply IH1 in E.
    + now apply IH2 in H.
  - destruct (IH _ _ _ _ H) as (caps1 & pre & rest & -> & H1).
    now exists (setCapture n (firstn (length (pre ++ rest) - length rest)
                               (pre ++ rest)) caps1), pre, rest.
Qed.

(** What a capture group records is the text its expression consumed. *)
Lemma captured_text (pre rest : jsstring) :
  firstn (length (pre ++ rest) - length rest) (pre ++ rest) = pre.
Proof.
  rewrite length_app. replace (length pre + length rest - length rest)%nat
    with (length pre + 0)%nat by lia.
  rewrite firstn_app_2. simpl. apply app_nil_r.
Qed.

End IntentFacts.

(* ------------------------------------------------------------------ *)
(** ** Token-aware similarity *)

Section TokenFacts.







End TokenFacts.

(* ------------------------------------------------------------------ *)
(** ** The scorers on identical strings *)

Section Reflexivity.

Lemma fillRow_length c2 str1 : forall prev left,
  length prev = S (length str1) ->
  length (fillRow c2 str1 prev left) = length str1.
Proof.
  induction str1 as [|c1 r1 IH]; intros prev left H; [reflexivity|].
  destruct prev as [|diag [|up rest]]; simpl in H; try lia.
  simpl. f_equal. apply IH. simpl. lia.
Qed.

(** Where the units agree the entry is the one on the diagonal. *)
Lemma fillRow_diagonal c2 str1 : forall prev left j,
  length prev = S (length str1) ->
  (j < length str1)%nat ->
  nth j str1 0%N = c2 ->
  nth j (fillRow c2 str1 prev left) 0%nat = nth j prev 0%nat.
Proof.
  induction str1 as [|c1 r1 IH]; intros prev left j H Hj Hc;
    [simpl in Hj; lia|].
  destruct prev as [|diag [|up rest]]; simpl in H; try lia.
  destruct j as [|j]; simpl in *.
  - subst c2. now rewrite N.eqb_refl.
  - apply IH; [simpl; lia | lia | assumption].
Qed.

Lemma lastRow_diagonal (p r : jsstring) :
  let row := fold_left (nextRow (p ++ r)) p
               (0%nat, seq 0 (S (length (p ++ r)))) in
  fst row = length p
  /\ length (snd row) = S (length (p ++ r))
  /\ nth (length p) (snd row) 0%nat = 0%nat.
Proof.
  revert r. induction p as [|c p IH] using rev_ind; intro r.
  - simpl. rewrite length_seq. auto.
  - rewrite <- app_assoc. simpl app.
    specialize (IH (c :: r)). simpl in IH.
    destruct IH as (Hi & Hl & Hz).
    rewrite fold_left_app. simpl fold_left.
    set (row := fold_left (nextRow (p ++ c :: r)) p
                  (0%nat, 0%nat :: seq 1 (length (p ++ c :: r)))) in *.
    unfold nextRow. simpl fst. simpl snd. rewrite Hi.
    rewrite length_app. simpl length.
    split; [apply eq_sym, Nat.add_1_r|]. split.
    + simpl. rewrite fillRow_length; [reflexivity | assumption].
    + replace (length p + 1)%nat with (S (length p)) by lia.
      simpl nth. rewrite fillRow_diagonal; try assumption.
      * rewrite length_app. simpl. lia.
      * rewrite app_nth2 by lia. now rewrite Nat.sub_diag.
Qed.

Lemma distance_refl (s : jsstring) : distance s s = 0%nat.
Proof.
  pose proof (lastRow_diagonal s []) as H. simpl in H.
  rewrite app_nil_r in H. unfold distance, lastRow. apply H.
Qed.

Lemma ofNat_nonzero n : n <> 0%nat -> ~ (ofNat n == 0)%Q.
Proof.
  intros H E. unfold ofNat, Qeq in E. simpl in E. lia.
Qed.

(** The edit-distance ratio of a non-empty string with itself is 1. *)
Lemma calculateSimilarity_refl (s : jsstring) :
  s <> [] -> (calculateSimilarity s s == 1)%Q.
Proof.
  intro Hs. unfold calculateSimilarity. rewrite distance_refl.
  destruct s as [|c s]; [congruence|].
  rewrite Nat.max_id.
  change (length (c :: s) =? 0)%nat with false. cbv iota.
  rewrite Z.sub_0_r. fold (ofNat (length (c :: s))).
  field. now apply ofNat_nonzero.
Qed.

(** The matching loop on identical strings pairs every index with itself. *)

Lemma taken_nth_before n i x :
  (x < i)%nat -> nth x (taken n i) false = true.
Proof.
  intro H. unfold taken. rewrite app_nth1 by (rewrite repeat_length; lia).
  now apply nth_repeat_lt.
Qed.

Lemma taken_nth_at n i : nth i (taken n i) false = false.
Proof.
  unfold taken. rewrite app_nth2 by (rewrite repeat_length; lia).
  rewrite repeat_length, Nat.sub_diag.
  destruct (n - i)%nat; reflexivity.
Qed.

Lemma mark_taken n i : (i < n)%nat -> mark i (taken n i) = taken n (S i).
Proof.
  intro H. unfold mark, taken.
  rewrite firstn_app, firstn_all2 by (rewrite repeat_length; lia).
  rewrite repeat_length, Nat.sub_diag. simpl firstn. rewrite app_nil_r.
  rewrite skipn_app, skipn_all2 by (rewrite repeat_length; lia).
  rewrite repeat_length. replace (S i - i)%nat with 1%nat by lia.
  replace (n - i)%nat with (S (n - S i)) by lia. simpl.
  change (true :: repeat false (n - S i))
    with ([true] ++ repeat false (n - S i)).
  rewrite app_assoc, <- repeat_cons. reflexivity.
Qed.

Lemma findSlot_own_index c s2 flags i : forall n j,
  (j <= i)%nat -> (i < j + n)%nat ->
  (forall x, (j <= x < i)%nat -> nth x flags false = true) ->
  nth i flags false = false ->
  nth i s2 0%N = c ->
  findSlot c s2 flags j n = Some i.
Proof.
  induction n as [|n IH]; intros j Hj Hn Hbefore Hat Hc; [lia|].
  simpl. destruct (Nat.eq_dec j i) as [->|Hne].
  - rewrite Hat, Hc, N.eqb_refl. reflexivity.
  - rewrite Hbefore by lia. apply IH; try assumption; try lia.
    intros x Hx. apply Hbefore. lia.
Qed.

Lemma matchStep_refl (s : jsstring) i :
  (2 <= length s)%nat -> (i < length s)%nat ->
  matchStep s s {| s1Matches := taken (length s) i;
                   s2Matches := taken (length s) i; matches := i |} i
  = {| s1Matches := taken (length s) (S i);
       s2Matches := taken (length s) (S i); matches := S i |}.
Proof.
  intros H2 Hi. unfold matchStep. simpl s2Matches. simpl s1Matches.
  assert (0 <= matchDistance s s)%Z as Hd.
  { unfold matchDistance. rewrite Nat.max_id.
    assert (1 <= Z.of_nat (length s) / 2)%Z; [|lia].
    apply Z.div_le_lower_bound; lia. }
  rewrite (findSlot_own_index (nth i s 0%N) s (taken (length s) i) i).
  - simpl matches. now rewrite mark_taken.
  - lia.
  - lia.
  - intros x Hx. apply taken_nth_before. lia.
  - apply taken_nth_at.
  - reflexivity.
Qed.

Lemma findMatches_from (s : jsstring) : forall k i,
  (2 <= length s)%nat -> (i + k = length s)%nat ->
  fold_left (matchStep s s) (seq i k)
    {| s1Matches := taken (length s) i;
       s2Matches := taken (length s) i; matches := i |}
  = {| s1Matches := taken (length s) (length s);
       s2Matches := taken (length s) (length s); matches := length s |}.
Proof.
  induction k as [|k IH]; intros i H2 Hk; simpl.
  - replace i with (length s) by lia. reflexivity.
  - rewrite matchStep_refl by lia. apply IH; [assumption | lia].
Qed.

Lemma findMatches_refl (s : jsstring) :
  (2 <= length s)%nat ->
  findMatches s s
  = {| s1Matches := repeat true (length s);
       s2Matches := repeat true (length s); matches := length s |}.
Proof.
  intro H2. unfold findMatches.
  pose proof (findMatches_from s (length s) 0 H2 eq_refl) as H.
  unfold taken in H. rewrite Nat.sub_0_r, Nat.sub_diag in H. simpl in H.
  rewrite app_nil_r in H. exact H.
Qed.

Lemma countTranspositions_refl (s : jsstring) :
  countTranspositions (combine s (repeat true (length s)))
                      (combine s (repeat true (length s))) = 0%nat.
Proof.
  induction s as [|c s IH]; simpl; [reflexivity|].
  now rewrite N.eqb_refl, IH.
Qed.

(** The prefix-weighted score of a string of two units or more with
    itself is 1. *)
Lemma jaroWinkler_refl (s : jsstring) :
  (2 <= length s)%nat -> (jaroWinkler s s == 1)%Q.
Proof.
  intro H2. unfold jaroWinkler.
  destruct s as [|c s]; [simpl in H2; lia|].
  cbv [isEmpty orb]. rewrite findMatches_refl by assumption.
  cbv [matches s1Matches s2Matches].
  rewrite countTranspositions_refl.
  destruct (length (c :: s) =? 0)%nat eqn:E;
    [apply Nat.eqb_eq in E; simpl in E; lia|].
  set (m := ofNat (length (c :: s))).
  assert (~ (m == 0)%Q) as Hm by (apply ofNat_nonzero; simpl; lia).
  assert (((m / m + m / m + (m - ofNat 0 / 2) / m) / 3 == 1)%Q) as Hj.
  { unfold ofNat at 1. simpl inject_Z. field. assumption. }
  rewrite Hj. ring.
Qed.

(** With one unit the window of the matching loop is empty. *)
Lemma jaroWinkler_single (c : N) : jaroWinkler [c] [c] = 0%Q.
Proof. reflexivity. Qed.

End Reflexivity.

(* ------------------------------------------------------------------ *)
(** ** Trimming and collapsing *)

Section TrimFacts.

Lemma trimStart_noLead l : noLead (trimStart l).
Proof.
  induction l as [|c l IH]; simpl; [exact I|].
  destruct (isWhiteSpace c) eqn:E; [assumption | exact E].
Qed.

Lemma trimStart_fixed l : noLead l -> trimStart l = l.
Proof.
  destruct l as [|c l]; simpl; [reflexivity|]. now intros ->.
Qed.

Lemma trimStart_idem l : trimStart (trimStart l) = trimStart l.
Proof. apply trimStart_fixed, trimStart_noLead. Qed.

Lemma trimStart_snoc l c :
  trimStart (l ++ [c])
  = match trimStart l with
    | [] => if isWhiteSpace c then [] else [c]
    | _ => trimStart l ++ [c]
    end.
Proof.
  induction l as [|d l IH]; simpl; [reflexivity|].
  destruct (isWhiteSpace d); [exact IH | reflexivity].
Qed.

Lemma trimEnd_cons c l :
  trimEnd (c :: l)
  = match trimEnd l with
    | [] => if isWhiteSpace c then [] else [c]
    | _ => c :: trimEnd l
    end.
Proof.
  unfold trimEnd. simpl rev. rewrite trimStart_snoc.
  destruct (trimStart (rev l)) as [|d t] eqn:E; simpl.
  - now destruct (isWhiteSpace c).
  - rewrite rev_app_distr. simpl.
    destruct (rev t ++ [d]) eqn:E2; [now destruct (rev t)|reflexivity].
Qed.

Lemma trimEnd_idem l : trimEnd (trimEnd l) = trimEnd l.
Proof.
  unfold trimEnd. now rewrite rev_involutive, trimStart_idem.
Qed.

Lemma trimEnd_noLead l : noLead l -> noLead (trimEnd l).
Proof.
  destruct l as [|c l]; [intros _; exact I|].
  simpl. intro H. rewrite trimEnd_cons.
  destruct (trimEnd l); [rewrite H|]; exact H.
Qed.

Lemma trimStart_In c l : In c (trimStart l) -> In c l.
Proof.
  induction l as [|d l IH]; simpl; [tauto|].
  destruct (isWhiteSpace d); [intro; right; auto | now simpl].
Qed.

Lemma trimEnd_In c l : In c (trimEnd l) -> In c l.
Proof.
  unfold trimEnd. intro H. apply in_rev in H. apply trimStart_In in H.
  now apply in_rev.
Qed.

Lemma trim_In c l : In c (trim l) -> In c l.
Proof. intro H. now apply trimStart_In, trimEnd_In. Qed.

Lemma trim_idem l : trim (trim l) = trim l.
Proof.
  unfold trim.
  rewrite (trimStart_fixed (trimEnd (trimStart l)))
    by apply trimEnd_noLead, trimStart_noLead.
  apply trimEnd_idem.
Qed.

Lemma spaced_trimStart l : spaced l -> spaced (trimStart l).
Proof.
  induction l as [|c l IH]; simpl; [tauto|].
  intros [H1 H2]. destruct (isWhiteSpace c) eqn:E; [now apply IH|].
  simpl. split; [rewrite E; discriminate | assumption].
Qed.

Lemma spaced_trimEnd l : spaced l -> spaced (trimEnd l).
Proof.
  induction l as [|c l IH]; [intros _; exact I|].
  intros [H1 H2]. rewrite trimEnd_cons. specialize (IH H2).
  destruct (trimEnd l) as [|d t] eqn:E.
  - destruct (isWhiteSpace c) eqn:Ec; [exact I|].
    split; [rewrite Ec; discriminate | exact I].
  - split; [|exact IH]. intro Hc. destruct (H1 Hc) as [-> Hl].
    split; [reflexivity|].
    (* the head of [trimEnd l] is the head of [l] *)
    destruct l as [|e l]; [discriminate E|].
    rewrite trimEnd_cons in E. simpl in Hl.
    destruct (trimEnd l) as [|x y]; [rewrite Hl in E|];
      injection E as <- _; exact Hl.
Qed.

Lemma collapseFrom_spaced l :
  spaced (collapseFrom false l)
  /\ spaced (collapseFrom true l) /\ noLead (collapseFrom true l).
Proof.
  induction l as [|c l (IH1 & IH2 & IH3)]; simpl; [tauto|].
  destruct (isWhiteSpace c) eqn:E.
  - repeat split; try assumption.
  - repeat split; try assumption; congruence.
Qed.

Lemma collapseFrom_fixed l : spaced l ->
  collapseFrom false l = l /\ (noLead l -> collapseFrom true l = l).
Proof.
  induction l as [|c l IH]; simpl; [tauto|].
  intros [H1 H2]. destruct (IH H2) as [IHf IHt].
  destruct (isWhiteSpace c) eqn:E.
  - destruct (H1 eq_refl) as [-> Hl]. split.
    + now rewrite IHt.
    + discriminate.
  - split; [now rewrite IHf | intros _; now rewrite IHf].
Qed.

Lemma collapseFrom_In b c l :
  In c (collapseFrom b l) -> c = 32%N \/ In c l.
Proof.
  revert b. induction l as [|d l IH]; intro b; simpl; [tauto|].
  destruct (isWhiteSpace d).
  - destruct b; simpl.
    + intro H. destruct (IH true H); auto.
    + intros [<-|H]; [now left|]. destruct (IH true H); auto.
  - simpl. intros [<-|H]; [auto|]. destruct (IH false H); auto.
Qed.

End TrimFacts.

(* ------------------------------------------------------------------ *)
(** ** The normalizer *)

Section NormalizeFacts.
Context {U : Unicode}.

Lemma normalize_cases x :
  normalize x = []
  \/ normalize x
     = finish (filter (fun c => negb (isDiacritic c))
                 (nfd (trim (toLowerCase (ToString x))))).
Proof.
  unfold normalize.
  destruct (negb (truthy x) && _); [now left | now right].
Qed.

Lemma finish_fixed (s : jsstring) :
  isDiacritic 32%N = false ->
  let r := finish (filter (fun c => negb (isDiacritic c)) s) in
  trim r = r
  /\ filter (fun c => negb (isDiacritic c)) r = r
  /\ finish r = r.
Proof.
  intros Hsp r. subst r. unfold finish.
  set (t := map (fun c => if isPunctuation c then 32%N else c)
                (filter (fun c => negb (isDiacritic c)) s)).
  assert (forall c, In c t ->
            c = 32%N \/ (isDiacritic c = false /\ isPunctuation c = false))
    as Ht.
  { intros c Hc. unfold t in Hc. apply in_map_iff in Hc.
    destruct Hc as (d & E & Hd). apply filter_In in Hd.
    destruct Hd as [_ Hd]. apply negb_true_iff in Hd.
    destruct (isPunctuation d) eqn:Ep; [now left | right; now subst]. }
  set (r := trim (collapseSpaces t)).
  assert (forall c, In c r ->
            c = 32%N \/ (isDiacritic c = false /\ isPunctuation c = false))
    as Hr.
  { intros c Hc. unfold r in Hc. apply trim_In in Hc.
    unfold collapseSpaces in Hc.
    destruct (collapseFrom_In _ _ _ Hc) as [->|Hc']; [now left | auto]. }
  assert (spaced r) as Hs.
  { unfold r, trim. apply spaced_trimEnd, spaced_trimStart.
    apply collapseFrom_spaced. }
  assert (trim r = r) as Htrim by apply trim_idem.
  assert (filter (fun c => negb (isDiacritic c)) r = r) as Hfilter.
  { apply forallb_filter_id. apply forallb_forall. intros c Hc.
    destruct (Hr c Hc) as [->|[Hd _]]; now rewrite ?Hsp, ?Hd. }
  assert (map (fun c => if isPunctuation c then 32%N else c) r = r) as Hmap.
  { rewrite <- (map_id r) at 2. apply map_ext_in. intros c Hc.
    destruct (Hr c Hc) as [->|[_ Hp]].
    - now destruct (isPunctuation 32%N).
    - now rewrite Hp. }
  split; [assumption|]. split; [assumption|].
  rewrite Hmap. unfold collapseSpaces.
  rewrite (proj1 (collapseFrom_fixed r Hs)). assumption.
Qed.

(** A second pass changes nothing when lowercasing and canonical
    decomposition leave the result of the first pass alone. *)
Lemma normalize_twice x :
  isDiacritic 32%N = false ->
  toLowerCase (normalize x) = normalize x ->
  nfd (normalize x) = normalize x ->
  normalize (JStr (normalize x)) = normalize x.
Proof.
  intros Hsp Hlow Hnfd.
  destruct (normalize_cases x) as [H|H]; [now rewrite H|].
  pose proof (finish_fixed (nfd (trim (toLowerCase (ToString x)))) Hsp) as F.
  simpl in F. rewrite <- H in F. destruct F as (Ft & Ff & Fn).
  remember (normalize x) as r eqn:E. clear E H.
  destruct r as [|c r]; [reflexivity|].
  unfold normalize. simpl ToString.
  change (negb (truthy (JStr (c :: r))) && negb false) with false.
  cbv iota. rewrite Hlow, Ft, Hnfd, Ff. exact Fn.
Qed.

End NormalizeFacts.

(* ------------------------------------------------------------------ *)
(** ** The tabulated Unicode data on ASCII text *)

Module ExcerptFacts.
Import Excerpt.

Ltac decide_ranges :=
  repeat match goal with
    | |- context [(?a <=? ?b)%N] =>
        destruct (N.leb_spec a b); cbn [andb orb negb]; try lia
    | |- context [(?a =? ?b)%N] =>
        destruct (N.eqb_spec a b); cbn [andb orb negb]; try lia
    end.

Lemma lowerUnit_ascii c : (c < 128)%N -> (lowerUnit c < 128)%N.
Proof.
  intro H. unfold lowerUnit, between. decide_ranges.
Qed.

Lemma lowerUnit_idem c : (c < 128)%N -> lowerUnit (lowerUnit c) = lowerUnit c.
Proof.
  intro H.
  assert (lowerUnit c = c \/ ((65 <= c <= 90)%N /\ lowerUnit c = (c + 32)%N))
    as [E|[R E]].
  { unfold lowerUnit, between. decide_ranges; auto. }
  - now rewrite !E.
  - rewrite E. unfold lowerUnit, between. decide_ranges; reflexivity.
Qed.

Lemma lowerUnit_plain c : (c < 128)%N -> plain (lowerUnit c).
Proof.
  intro H. split; [now apply lowerUnit_ascii | now apply lowerUnit_idem].
Qed.

Lemma ccc_ascii c : (c < 128)%N -> ccc c = 0%N.
Proof.
  intro H. unfold ccc, between. decide_ranges; reflexivity.
Qed.

Lemma lookup_absent c (t : list (N * (N * N))) :
  Forall (fun kv => c <> fst kv) t -> lookup c t = None.
Proof.
  induction 1 as [|[k v] t Hk _ IH]; simpl; [reflexivity|].
  simpl in Hk. destruct (N.eqb_spec c k); [contradiction | assumption].
Qed.

Lemma decompose_ascii c : (c < 128)%N -> decompose c = [c].
Proof.
  intro H. unfold decompose. rewrite lookup_absent.
  - decide_ranges; reflexivity.
  - unfold latin1Decomposition. repeat constructor; cbn [fst]; lia.
Qed.

Lemma canonicalOrder_starters s :
  Forall (fun c => ccc c = 0%N) s -> canonicalOrder s = s.
Proof.
  intro H. unfold canonicalOrder.
  assert (forall out,
            fold_left (fun out c => if (ccc c =? 0)%N then c :: out
                                    else placeMark c out) s out
            = rev s ++ out) as Hfold.
  { induction H as [|c s Hc _ IH]; intro out; [reflexivity|].
    simpl. rewrite Hc. simpl. rewrite IH, <- app_assoc. reflexivity. }
  rewrite Hfold, app_nil_r. apply rev_involutive.
Qed.

Lemma nfd_ascii s : isAscii s -> nfd s = s.
Proof.
  intro H. simpl. assert (flat_map decompose s = s) as ->.
  { induction H as [|c s Hc _ IH]; [reflexivity|].
    simpl. now rewrite decompose_ascii, IH. }
  apply canonicalOrder_starters.
  eapply Forall_impl; [|exact H]. intros c Hc. now apply ccc_ascii.
Qed.

(** What [normalize] yields on ASCII text is plain. *)
Lemma normalize_plain x :
  isAscii (ToString x) -> Forall plain (normalize x).
Proof.
  intro H. destruct (normalize_cases x) as [E|E]; rewrite E; [constructor|].
  apply Forall_forall. intros c Hc.
  apply trim_In in Hc. unfold collapseSpaces in Hc.
  assert (plain 32%N) as H32 by (split; [lia | reflexivity]).
  destruct (collapseFrom_In _ _ _ Hc) as [->|Hc']; [assumption|].
  apply in_map_iff in Hc'. destruct Hc' as (d & Ed & Hd).
  assert (plain d) as Pd.
  { apply filter_In in Hd. destruct Hd as [Hd _].
    assert (isAscii (trim (toLowerCase (ToString x)))) as Ha.
    { apply Forall_forall. intros e He. apply trim_In in He.
      simpl in He. apply in_map_iff in He. destruct He as (f & <- & Hf).
      unfold isAscii in H. rewrite Forall_forall in H.
      apply lowerUnit_plain. now apply H. }
    rewrite (nfd_ascii _ Ha) in Hd. apply trim_In in Hd.
    simpl in Hd. apply in_map_iff in Hd. destruct Hd as (f & <- & Hf).
    unfold isAscii in H. rewrite Forall_forall in H.
    apply lowerUnit_plain. now apply H. }
  destruct (isPunctuation d); subst; assumption.
Qed.

(** On ASCII text the result of [normalize] is left alone by lowercasing
    and by canonical decomposition. *)
Lemma normalize_ascii_stable x :
  isAscii (ToString x) ->
  toLowerCase (normalize x) = normalize x /\ nfd (normalize x) = normalize x.
Proof.
  intro H. pose proof (normalize_plain x H) as P. split.
  - simpl. rewrite <- (map_id (normalize x)) at 2.
    apply map_ext_in. intros c Hc. rewrite Forall_forall in P.
    now apply P.
  - apply nfd_ascii. eapply Forall_impl; [|exact P]. now intros c [Hc _].
Qed.

End ExcerptFacts.

(* ------------------------------------------------------------------ *)
(** ** The canonical key and the normalized name *)

Section KeyFacts.
Context {U : Unicode}.

(** [search] normalizes the trimmed name; when lowercasing commutes with
    trimming that is the normalization of the name itself. *)
Lemma canonicalKey_normalized_name (d : Doctor) :
  (forall s, trim (toLowerCase (trim s)) = trim (toLowerCase s)) ->
  canonicalKey d = normalize (orEmpty (name d)).
Proof.
  intro Hlaw. unfold canonicalKey, normNameOf, fieldText, orEmpty.
  destruct (truthy (name d)) eqn:T; [|reflexivity].
  destruct (isEmpty (normalize (JStr (trim (ToString (name d)))))) eqn:E;
    [reflexivity|]. simpl.
  destruct (trim (ToString (name d))) as [|c t] eqn:Et.
  - unfold normalize in E. simpl in E. discriminate E.
  - unfold normalize. rewrite T.
    change (negb (truthy (JStr (c :: t))) && negb false) with false.
    cbv iota. simpl andb. cbv iota. simpl ToString.
    now rewrite <- Et, Hlaw.
Qed.

End KeyFacts.

Module ExcerptLaws.
Import Excerpt.

Lemma lowerUnit_cases c :
  lowerUnit c = c
  \/ (((65 <= c <= 90)%N \/ (192 <= c <= 222)%N)
      /\ lowerUnit c = (c + 32)%N).
Proof.
  unfold lowerUnit, between. ExcerptFacts.decide_ranges; auto.
Qed.

Lemma isWhiteSpace_letters c :
  (65 <= c <= 122)%N \/ (192 <= c <= 254)%N -> isWhiteSpace c = false.
Proof.
  intro H. unfold isWhiteSpace. ExcerptFacts.decide_ranges; reflexivity.
Qed.

Lemma isWhiteSpace_lowerUnit c : isWhiteSpace (lowerUnit c) = isWhiteSpace c.
Proof.
  destruct (lowerUnit_cases c) as [->|[H ->]]; [reflexivity|].
  rewrite !isWhiteSpace_letters by lia. reflexivity.
Qed.

Lemma trimStart_lower s :
  trimStart (map lowerUnit s) = map lowerUnit (trimStart s).
Proof.
  induction s as [|c s IH]; simpl; [reflexivity|].
  rewrite isWhiteSpace_lowerUnit. now destruct (isWhiteSpace c).
Qed.

Lemma trim_lower s : trim (map lowerUnit s) = map lowerUnit (trim s).
Proof.
  unfold trim, trimEnd.
  now rewrite trimStart_lower, <- map_rev, trimStart_lower, map_rev.
Qed.

(** Lowercasing commutes with trimming for the tabulated data. *)
Lemma lower_trim_law s : trim (toLowerCase (trim s)) = trim (toLowerCase s).
Proof.
  simpl. now rewrite !trim_lower, trim_idem.
Qed.

End ExcerptLaws.

(* ------------------------------------------------------------------ *)
(** ** Worked examples *)

Example normalize_strips_diacritics_and_punctuation :
  normalize (JStr ([0xC0%N] ++ str "l-Hussein, Dr. Omar!"))
  = str "al hussein dr omar".
Proof. vm_compute. reflexivity. Qed.

Example normalize_zero : normalize (JNum 0) = str "0".
Proof. vm_compute. reflexivity. Qed.

Example short_query_finds_nothing :
  search defaultConfig [omar; omarKhalil] (JStr (str " o ")) = Returns [].
Proof. vm_compute. reflexivity. Qed.

(** A prefix match with bonuses of secondary fields (220 + 100 + 80) can
    outrank an exact name match (350): the exact tier tops the containment
    tier, not every tier. *)
Example prefix_with_bonuses_outranks_exact :
  search defaultConfig
    [omar; doctorNamed "Omar Khalil" "omar" "omar"] (JStr (str "omar"))
  = Returns [doctorNamed "Omar Khalil" "omar" "omar"; omar].
Proof. vm_compute. reflexivity. Qed.

Example tokenSimilarity_value :
  Qred (tokenSimilarity (JStr (str "Mohammad Al Rashid"))
                        (JStr (str "Al Rashid"))) = 61 # 72.
Proof. vm_compute. reflexivity. Qed.

Example question_fallback :
  Intent.parseNaturalLanguageQuery (JStr (str "what does x do"))
  = Returns (Some {| Intent.intent := Intent.question;
                     Intent.entity := str "es x do";
                     Intent.confidence := 6 # 10;
                     Intent.originalQuery := JStr (str "what does x do") |}).
Proof. vm_compute. reflexivity. Qed.

Example reload_reports_failure :
  snd (Index.reload numberedDepartment lastGood)
  = Returns (Index.Failed
               "TypeError: doctor.department.trim is not a function").
Proof. vm_compute. reflexivity. Qed.

(* ------------------------------------------------------------------ *)
(** ** The transposition loop of [jaroWinkler] terminates *)

Section Matching.

Lemma findSlot_Some c s2 flags : forall n j k,
  findSlot c s2 flags j n = Some k ->
  (j <= k < j + n)%nat /\ nth k flags false = false.
Proof.
  induction n as [|n IH]; intros j k H; simpl in H; [discriminate|].
  destruct (nth j flags false) eqn:E.
  - destruct (IH _ _ H). split; [lia | assumption].
  - destruct (negb (c =? nth j s2 0%N)%N).
    + destruct (IH _ _ H). split; [lia | assumption].
    + injection H as <-. split; [lia | assumption].
Qed.

Lemma mark_length i flags :
  (i < length flags)%nat -> length (mark i flags) = length flags.
Proof.
  intro H. unfold mark. rewrite length_app. cbn [length].
  rewrite length_firstn, length_skipn. lia.
Qed.

Lemma takenCount_app a b : takenCount (a ++ b) = (takenCount a + takenCount b)%nat.
Proof.
  induction a as [|[|] a IH]; simpl; [reflexivity | now rewrite IH | exact IH].
Qed.

Lemma takenCount_free n : takenCount (repeat false n) = 0%nat.
Proof. induction n; simpl; auto. Qed.

Lemma mark_count i flags :
  (i < length flags)%nat -> nth i flags false = false ->
  takenCount (mark i flags) = S (takenCount flags).
Proof.
  intros H Hn. unfold mark.
  rewrite <- (firstn_skipn i flags) at 3.
  rewrite !takenCount_app.
  assert (skipn i flags = false :: skipn (S i) flags) as ->.
  { rewrite <- Hn. revert i H Hn. induction flags as [|b flags IH];
      intros i H Hn; simpl in H; [lia|].
    destruct i as [|i]; [reflexivity|]. simpl. apply IH; [lia|exact Hn]. }
  simpl. lia.
Qed.

Lemma mark_nth_other i x flags :
  (i < length flags)%nat -> x <> i ->
  nth x (mark i flags) false = nth x flags false.
Proof.
  intros H Hx. unfold mark.
  rewrite <- (firstn_skipn i flags) at 3.
  assert (length (firstn i flags) = i) as L by (rewrite length_firstn; lia).
  destruct (Nat.lt_ge_cases x i) as [Hlt|Hge].
  - now rewrite !app_nth1 by lia.
  - rewrite !app_nth2 by lia. rewrite L.
    destruct (x - i)%nat as [|d] eqn:E; [lia|]. simpl.
    assert (skipn i flags = nth i flags false :: skipn (S i) flags) as ->.
    { clear -H. revert i H. induction flags as [|b flags IH];
        intros i H; simpl in H; [lia|].
      destruct i as [|i]; [reflexivity|]. simpl. apply IH. lia. }
    reflexivity.
Qed.

Lemma matchStep_invariant s1 s2 i st :
  (i < length s1)%nat ->
  matchingInvariant s1 s2 i st ->
  matchingInvariant s1 s2 (S i) (matchStep s1 s2 st i).
Proof.
  intros Hi (L1 & L2 & C1 & C2 & Hfree). unfold matchStep.
  set (start := Z.max 0 (Z.of_nat i - matchDistance s1 s2)).
  set (stop := Z.min (Z.of_nat i + matchDistance s1 s2 + 1)
                     (Z.of_nat (length s2))).
  destruct (findSlot (nth i s1 0%N) s2 (s2Matches st)
              (Z.to_nat start) (Z.to_nat (stop - start))) as [j|] eqn:F.
  - destruct (findSlot_Some _ _ _ _ _ _ F) as [Hj Hfj].
    assert (j < length s2)%nat as Hlt by (unfold start, stop in Hj; lia).
    repeat split; simpl.
    + now rewrite mark_length by lia.
    + now rewrite mark_length by lia.
    + rewrite mark_count; [lia | lia | apply Hfree; lia].
    + rewrite mark_count; [lia | lia | assumption].
    + intros x Hx. rewrite mark_nth_other by lia. apply Hfree. lia.
  - repeat split; try assumption. intros x Hx. apply Hfree. lia.
Qed.

Lemma findMatches_invariant s1 s2 :
  matchingInvariant s1 s2 (length s1) (findMatches s1 s2).
Proof.
  unfold findMatches.
  assert (forall k i st, (i + k = length s1)%nat ->
            matchingInvariant s1 s2 i st ->
            matchingInvariant s1 s2 (length s1)
              (fold_left (matchStep s1 s2) (seq i k) st)) as Hfold.
  { induction k as [|k IH]; intros i st Hk Hinv; simpl.
    - now replace (length s1) with i by lia.
    - apply IH; [lia|]. apply matchStep_invariant; [lia | assumption]. }
  apply Hfold; [reflexivity|].
  repeat split; simpl.
  - apply repeat_length.
  - apply repeat_length.
  - apply takenCount_free.
  - apply takenCount_free.
  - intros x _. destruct (Nat.lt_ge_cases x (length s1)).
    + now apply nth_repeat_lt.
    + apply nth_overflow. rewrite repeat_length. lia.
Qed.

Lemma skipFree_count rest2 :
  takenCount (map snd (skipFree rest2)) = takenCount (map snd rest2).
Proof.
  induction rest2 as [|[c [|]] r IH]; simpl; try reflexivity. exact IH.
Qed.

Lemma whileStops_balanced p1 : forall rest2,
  (takenCount (map snd p1) <= takenCount (map snd rest2))%nat ->
  whileStops p1 rest2.
Proof.
  induction p1 as [|[c [|]] r1 IH]; intros rest2 H; simpl.
  - exact I.
  - rewrite <- (skipFree_count rest2) in H.
    destruct (skipFree rest2) as [|[c2 b2] r2] eqn:E.
    + simpl in H. lia.
    + apply IH.
      assert (b2 = true) as ->.
      { clear -E. induction rest2 as [|[c' [|]] r IHr]; simpl in E.
        - discriminate.
        - now injection E.
        - now apply IHr. }
      simpl in H. lia.
  - apply IH. simpl in H. exact H.
Qed.

Lemma map_snd_combine (s : jsstring) (flags : list bool) :
  length flags = length s -> map snd (combine s flags) = flags.
Proof.
  revert flags. induction s as [|c s IH]; intros [|b flags] H;
    simpl in *; try discriminate; try reflexivity.
  f_equal. apply IH. lia.
Qed.

(** In [jaroWinkler] the [while] of the transposition loop stops every
    time: the embedding leaves no run of the source out. *)
Lemma transposition_loop_stops (s1 s2 : jsstring) :
  whileStops (combine s1 (s1Matches (findMatches s1 s2)))
             (combine s2 (s2Matches (findMatches s1 s2))).
Proof.
  destruct (findMatches_invariant s1 s2) as (L1 & L2 & C1 & C2 & _).
  apply whileStops_balanced.
  rewrite !map_snd_combine by assumption. lia.
Qed.

End Matching.

(* ================================================================== *)
(** * The claims *)

(* ------------------------------------------------------------------ *)
(** C1, as the code has it.  [reload] never throws.  The doctors are
    replaced by what [loadDoctors] delivers, and a loader that fails
    delivers the empty collection: when no candidate path of the doctors
    file can be used, the doctors are empty afterwards and the result is
    [ok: true] with [doctors: 0]; when the clubs file cannot be used, a
    reload that reports [ok: true] leaves no clubs.  The result is
    [ok: false], with the description of the error, exactly when the
    extraction of the departments throws on the doctors just loaded. *)
Theorem reload_replaces_with_loader_output :
  forall disk this,
    let after := fst (Index.reload disk this) in
    let result := snd (Index.reload disk this) in
    (exists r, result = Returns r)
    /\ Index.doctors after = Index.loadDoctors disk
    /\ (doctorsUnavailable disk ->
        Index.doctors after = []
        /\ result = Returns (Index.Reloaded 0 (length (Index.loadClubs disk))))
    /\ (unusable (Index.clubsFile disk) = true ->
        forall n m, result = Returns (Index.Reloaded n m) ->
                    Index.clubs after = [] /\ m = 0%nat)
    /\ (forall error,
          result = Returns (Index.Failed error) <->
          exists e, Index.extractDepartments
                      (Index.setDoctors (Index.loadDoctors disk) this)
                    = Throws e
                    /\ error = describe e).
Proof.
  intros disk this after result. subst after result.
  rewrite IndexFacts.reload_unfold.
  destruct (Index.extractDepartments
              (Index.setDoctors (Index.loadDoctors disk) this))
    as [deps|e] eqn:E; simpl.
  - split; [eauto|]. split; [reflexivity|]. split.
    { intro H. rewrite (IndexFacts.firstReadable_unavailable _ H).
      now split. }
    split.
    { intros H n m [= <- <-]. rewrite (IndexFacts.loadClubs_unusable _ H).
      now split. }
    intro error. split; [discriminate|]. intros (e & He & _). discriminate.
  - split; [eauto|]. split; [reflexivity|]. split.
    { intro H. exfalso. revert E.
      unfold Index.extractDepartments.
      rewrite (IndexFacts.firstReadable_unavailable _ H). discriminate. }
    split; [discriminate|].
    intro error. split.
    + intros [= <-]. now exists e.
    + intros (e' & [= <-] & ->). reflexivity.
Qed.

Lemma reload_replaces_with_loader_output_witness :
  Index.doctors (fst (Index.reload noFiles lastGood)) = []
  /\ snd (Index.reload noFiles lastGood)
     = Returns (Index.Reloaded 0 (length (Index.loadClubs noFiles))).
Proof.
  refine (proj1 (proj2 (proj2
            (reload_replaces_with_loader_output noFiles lastGood))) _).
  repeat split.
Defined.

(** C1 as stated fails: with no data file on the disk, [reload] empties
    the doctors and the clubs that were loaded and reports [ok: true]. *)
Lemma reload_keeps_last_good_counterexample :
  doctorsUnavailable noFiles
  /\ Index.reload noFiles lastGood
     = ({| Index.doctors := []; Index.departments := [];
           Index.clubs := []; Index.nameSystem := {| Index.legend := None |} |},
        Returns (Index.Reloaded 0 0))
  /\ ~ keepsLastGood noFiles lastGood.
Proof.
  split; [repeat split|]. split; [reflexivity|].
  intros (H & _). discriminate H.
Qed.

(* ------------------------------------------------------------------ *)
(** C2: the code misses the one-unit case.  [jaroWinkler] of a one-unit
    string with itself is 0, not 1: the match window
    [floor(1 / 2) - 1] is negative and no slot is visited.  Elsewhere both
    scorers are reflexive: the edit-distance ratio of every non-empty
    string with itself is 1, and so is [jaroWinkler] from two units on. *)
Theorem jaroWinkler_not_reflexive_on_one_unit :
  (forall c, jaroWinkler [c] [c] = 0%Q)
  /\ (forall s, s <> [] -> (calculateSimilarity s s == 1)%Q)
  /\ (forall s, (2 <= length s)%nat -> (jaroWinkler s s == 1)%Q).
Proof.
  split; [exact jaroWinkler_single|].
  split; [exact calculateSimilarity_refl | exact jaroWinkler_refl].
Qed.

Lemma jaroWinkler_not_reflexive_on_one_unit_witness :
  (jaroWinkler (str "omar") (str "omar") == 1)%Q.
Proof.
  refine (proj2 (proj2 jaroWinkler_not_reflexive_on_one_unit) (str "omar") _).
  simpl. lia.
Defined.

(* ------------------------------------------------------------------ *)
(** C3: the code raises on absent text.  [parseNaturalLanguageQuery]
    throws a [TypeError] for [null] and for [undefined]; a string, the
    empty string included, never makes it throw, and the empty string
    yields no intent. *)
Theorem parse_throws_on_absent_text :
  (forall (U : Unicode),
      (exists e, Intent.parseNaturalLanguageQuery JNull = Throws e)
      /\ (exists e, Intent.parseNaturalLanguageQuery JUndefined = Throws e)
      /\ forall q, exists r,
           Intent.parseNaturalLanguageQuery (JStr q) = Returns r)
  /\ Intent.parseNaturalLanguageQuery (JStr []) = Returns None.
Proof.
  split; [|vm_compute; reflexivity].
  intro U. split; [simpl; eauto|]. split; [simpl; eauto|].
  intro q. unfold Intent.parseNaturalLanguageQuery.
  destruct (Intent.firstIntent Intent.patterns (trim (toLowerCase q)))
    as [[tag caps]|]; [eauto|].
  destruct (_ || _); eauto.
Qed.



(* ------------------------------------------------------------------ *)
(** C5, as the code has it.  [normalize] always returns a string, the
    empty one for [undefined], [null] and the empty string.  A second pass
    returns the result of the first whenever lowercasing and canonical
    decomposition leave that result unchanged (the space not being a
    diacritic); this is so for every input whose text is ASCII. *)
Theorem normalize_total_and_idempotent_on_stable_text :
  (forall (U : Unicode),
      normalize JUndefined = [] /\ normalize JNull = []
      /\ normalize (JStr []) = [])
  /\ (forall (U : Unicode) x,
        isDiacritic 32%N = false ->
        toLowerCase (normalize x) = normalize x ->
        nfd (normalize x) = normalize x ->
        normalize (JStr (normalize x)) = normalize x)
  /\ (forall x, isAscii (ToString x) ->
        normalize (JStr (normalize x)) = normalize x).
Proof.
  split; [intro U; repeat split|]. split.
  - intros U x. apply normalize_twice.
  - intros x H.
    destruct (ExcerptFacts.normalize_ascii_stable x H) as [Hl Hn].
    now apply normalize_twice.
Qed.

Lemma normalize_total_and_idempotent_on_stable_text_witness :
  normalize (JStr (normalize (JStr (str "  Dr. O'Neil-Smith  "))))
  = normalize (JStr (str "  Dr. O'Neil-Smith  ")).
Proof.
  refine (proj1 (proj2 normalize_total_and_idempotent_on_stable_text)
            Excerpt.tables (JStr (str "  Dr. O'Neil-Smith  ")) _ _ _).
  - reflexivity.
  - vm_compute. reflexivity.
  - vm_compute. reflexivity.
Defined.

(** C5 as stated fails: once the circumflex between them is stripped, the
    two combining marks of [harpoonText] are out of canonical order, and
    the second pass reorders them. *)
Lemma normalize_idempotent_counterexample :
  normalize harpoonText = str "a" ++ [0x20D0; 0x20D2]%N
  /\ normalize (JStr (normalize harpoonText)) = str "a" ++ [0x20D2; 0x20D0]%N
  /\ normalize (JStr (normalize harpoonText)) <> normalize harpoonText.
Proof.
  split; [vm_compute; reflexivity|]. split; [vm_compute; reflexivity|].
  vm_compute. discriminate.
Qed.

(* ------------------------------------------------------------------ *)
(** C6. Deduplication: for every query and every collection, what
    [search] returns holds no two doctors with the same canonical key, and
    each returned doctor scores at least as much as every doctor of the
    collection with its key; the same holds of [searchClubs].  The
    canonical key of a club is the normalization of its name; the one of a
    doctor is the normalization of the trimmed name, which is the
    normalization of the name when lowercasing commutes with trimming. *)
Theorem search_results_deduplicated :
  forall (U : Unicode) config doctors clubs query,
    (forall rs, search config doctors query = Returns rs ->
       NoDup (map canonicalKey rs)
       /\ forall q r, query = JStr q -> In r rs ->
            In r doctors
            /\ forall d, In d doctors -> canonicalKey d = canonicalKey r ->
                         (doctorScore q d <= doctorScore q r)%Z)
    /\ (forall cs, searchClubs config clubs query = Returns cs ->
       NoDup (map clubCanonicalKey cs)
       /\ forall q r, query = JStr q -> In r cs ->
            In r clubs
            /\ forall c, In c clubs -> clubCanonicalKey c = clubCanonicalKey r ->
                         (clubScore q c <= clubScore q r)%Z)
    /\ ((forall s, trim (toLowerCase (trim s)) = trim (toLowerCase s)) ->
        forall d, canonicalKey d = normalize (orEmpty (name d))).
Proof.
  intros U config doctors clubs query.
  split; [|split; [|intros Hlaw d; now apply canonicalKey_normalized_name]].
  - intros rs Hs.
    destruct (search_returns _ _ _ _ Hs) as [->|(q & -> & _ & ->)].
    + split; [constructor | intros q r _ []].
    + split.
      * exact (answer_NoDup _ (scoredDoctor q) doctorKey (fun _ => eq_refl) _ _).
      * intros q' r [= <-] Hr.
        destruct (answer_In _ (scoredDoctor q) doctorKey (fun _ => eq_refl)
                    _ _ _ Hr) as (Hin & _ & Hmax).
        split; [assumption|]. intros d Hd Hk. now apply Hmax.
  - intros cs Hs.
    destruct (searchClubs_returns _ _ _ _ Hs) as [->|(q & -> & _ & ->)].
    + split; [constructor | intros q r _ []].
    + split.
      * pose proof (answer_NoDup _ (scoredClub q) clubKey (fun _ => eq_refl)
                      (MAX_RESULTS config) clubs) as ND.
        erewrite map_ext in ND; [exact ND|].
        intro c. apply clubKey_scored.
      * intros q' r [= <-] Hr.
        destruct (answer_In _ (scoredClub q) clubKey (fun _ => eq_refl)
                    _ _ _ Hr) as (Hin & _ & Hmax).
        split; [assumption|]. intros c Hc Hk. apply Hmax; [assumption|].
        now rewrite !clubKey_scored.
Qed.

Lemma search_results_deduplicated_witness :
  NoDup (map canonicalKey [khalilInOmar; salehInOmar]).
Proof.
  refine (proj1 (proj1 (search_results_deduplicated Excerpt.tables
            defaultConfig [khalilPlain; salehInOmar; khalilInOmar] []
            (JStr (str "omar"))) [khalilInOmar; salehInOmar] _)).
  vm_compute. reflexivity.
Defined.

(* ------------------------------------------------------------------ *)
(** C7, as the code has it.  For a cap that is not negative, [search]
    returns at most the cap; for a query of two characters or more it
    returns as many doctors as the cap and the number of distinct keys
    among the qualifying doctors allow, in descending order of score, and a
    qualifying doctor is either represented by the best doctor of its key
    or scores no more than any of a full result.  Doctors of equal score
    come in the order in which their keys first occur among the qualifying
    doctors of the collection. *)
Theorem search_truncates_and_orders :
  forall (U : Unicode) config doctors q rs,
    (0 <= MAX_RESULTS config)%Z ->
    search config doctors (JStr q) = Returns rs ->
    let cap := Z.to_nat (MAX_RESULTS config) in
    let keys := map canonicalKey (qualifying doctors q) in
    (length rs <= cap)%nat
    /\ ((2 <= length (trim q))%nat ->
        length rs = Nat.min cap (length (firstOccurrences keys)))
    /\ (forall a b, before a b rs -> (doctorScore q b <= doctorScore q a)%Z)
    /\ ((2 <= length (trim q))%nat ->
        forall d, In d doctors -> (0 < doctorScore q d)%Z ->
          (exists r, In r rs /\ canonicalKey r = canonicalKey d
                     /\ (doctorScore q d <= doctorScore q r)%Z)
          \/ (length rs = cap
              /\ forall r, In r rs -> (doctorScore q d <= doctorScore q r)%Z))
    /\ (forall a b, before a b rs -> doctorScore q a = doctorScore q b ->
          (firstIndex (canonicalKey a) keys
           < firstIndex (canonicalKey b) keys)%nat).
Proof.
  intros U config doctors q rs Hcap Hs cap keys.
  pose proof (answer_length _ (scoredDoctor q) doctorKey
                (MAX_RESULTS config) doctors Hcap) as Hlen.
  rewrite search_answer in Hs.
  destruct (isEmpty q || (length (trim q) <? 2)%nat) eqn:Eshort.
  - injection Hs as <-.
    assert (forall a b : Doctor, ~ before a b []) as Hnil.
    { intros a b (l1 & l2 & l3 & H). now destruct l1. }
    split; [simpl; lia|]. split.
    { intro H2. apply orb_true_iff in Eshort. destruct Eshort as [E|E].
      - destruct q; [simpl in H2; lia | discriminate].
      - apply Nat.ltb_lt in E. lia. }
    split; [intros a b H; now apply Hnil in H|]. split.
    { intro H2. apply orb_true_iff in Eshort. destruct Eshort as [E|E].
      - destruct q; [simpl in H2; lia | discriminate].
      - apply Nat.ltb_lt in E. lia. }
    intros a b H; now apply Hnil in H.
  - injection Hs as <-. fold cap in Hlen. split; [rewrite Hlen; lia|].
    split; [intros _; exact Hlen|]. split.
    { intros a b Hb.
      exact (answer_sorted _ (scoredDoctor q) doctorKey (fun _ => eq_refl)
               _ _ _ _ Hb). }
    split.
    { intros _ d Hd Hpos.
      exact (answer_top _ (scoredDoctor q) doctorKey (fun _ => eq_refl)
               _ _ d Hcap Hd Hpos). }
    intros a b Hb E.
    exact (answer_ties _ (scoredDoctor q) doctorKey (fun _ => eq_refl)
             _ _ _ _ Hb E).
Qed.

Lemma search_truncates_and_orders_witness :
  (length [khalilInOmar; salehInOmar] <= 2)%nat.
Proof.
  refine (proj1 (search_truncates_and_orders Excerpt.tables capOfTwo
            fourForOmar (str "omar") [khalilInOmar; salehInOmar] _ _)).
  - vm_compute. discriminate.
  - vm_compute. reflexivity.
Defined.

(** C7 as stated fails on ties.  Under a cap of 2, four doctors qualify
    for "omar", under three keys: more than the cap.  [search] returns
    the third doctor of the collection before the second, and both score
    300. *)
Lemma search_ties_counterexample :
  search capOfTwo fourForOmar (JStr (str "omar"))
  = Returns [khalilInOmar; salehInOmar]
  /\ qualifying fourForOmar (str "omar") = fourForOmar
  /\ firstOccurrences (map canonicalKey fourForOmar)
     = [str "omar khalil"; str "omar saleh"; str "omar zaid"]
  /\ doctorScore (str "omar") khalilInOmar = 300%Z
  /\ doctorScore (str "omar") salehInOmar = 300%Z
  /\ ~ tiesInCollectionOrder (doctorScore (str "omar")) fourForOmar
         [khalilInOmar; salehInOmar].
Proof.
  split; [vm_compute; reflexivity|]. split; [vm_compute; reflexivity|].
  split; [vm_compute; reflexivity|]. split; [vm_compute; reflexivity|].
  split; [vm_compute; reflexivity|].
  unfold fourForOmar.
  intro H.
  assert (before khalilInOmar salehInOmar [khalilInOmar; salehInOmar]) as Hb
    by (now exists [], [], []).
  specialize (H _ _ Hb ltac:(vm_compute; reflexivity)).
  apply before_nth_error in H. destruct H as (i & j & Hij & Hi & Hj).
  destruct j as [|[|[|[|j]]]]; try discriminate Hj.
  - destruct i as [|i]; [discriminate Hi | lia].
  - destruct j; discriminate Hj.
Qed.

(* ------------------------------------------------------------------ *)
(** C8. For "what are the office hours of Dr. Mohammad?" the intent is
    [officeHours] and the entity is "dr mohammad", which contains
    "mohammad"; and in general the first (intent, pattern) pair in
    declaration order whose pattern matches the lowercased, trimmed query
    decides the result. *)
Theorem parse_office_hours_first_match_wins :
  Intent.parseNaturalLanguageQuery
    (JStr (str "what are the office hours of Dr. Mohammad?"))
  = Returns (Some {| Intent.intent := Intent.officeHours;
                     Intent.entity := str "dr mohammad";
                     Intent.confidence := 8 # 10;
                     Intent.originalQuery :=
                       JStr (str "what are the office hours of Dr. Mohammad?") |})
  /\ includes (str "dr mohammad") (str "mohammad") = true
  /\ forall (U : Unicode) q earlier tag pattern later caps,
       declared = earlier ++ (tag, pattern) :: later ->
       (forall x, In x earlier ->
                  Intent.matchFrom (snd x) (trim (toLowerCase q)) = None) ->
       Intent.matchFrom pattern (trim (toLowerCase q)) = Some caps ->
       Intent.parseNaturalLanguageQuery (JStr q)
       = Returns (Some {| Intent.intent := tag;
                          Intent.entity := Intent.entityOf caps;
                          Intent.confidence := 8 # 10;
                          Intent.originalQuery := JStr q |}).
Proof.
  split; [vm_compute; reflexivity|]. split; [vm_compute; reflexivity|].
  intros U q earlier tag pattern later caps Hd Hnone Hm.
  unfold Intent.parseNaturalLanguageQuery.
  rewrite IntentFacts.firstIntent_declared. fold declared. rewrite Hd.
  now rewrite (IntentFacts.firstDeclared_first _ _ _ _ _ _ Hnone Hm).
Qed.

Lemma parse_office_hours_first_match_wins_witness :
  Intent.parseNaturalLanguageQuery (JStr (str "Office hours of Omar"))
  = Returns (Some {| Intent.intent := Intent.officeHours;
                     Intent.entity := str "omar";
                     Intent.confidence := 8 # 10;
                     Intent.originalQuery := JStr (str "Office hours of Omar") |}).
Proof.
  refine (proj2 (proj2 parse_office_hours_first_match_wins) Excerpt.tables
            (str "Office hours of Omar")
            [hd (Intent.officeHours, Intent.Lit EmptyString) declared]
            Intent.officeHours
            (snd (nth 1 declared (Intent.officeHours, Intent.Lit EmptyString)))
            (skipn 2 declared)
            [Some (str "of"); Some (str "omar")] _ _ _).
  - reflexivity.
  - intros x [<-|[]]. vm_compute. reflexivity.
  - vm_compute. reflexivity.
Defined.



(* ------------------------------------------------------------------ *)
(** C10. [searchClubsAll] returns what [searchClubs] returns; so its
    results are deduplicated and, for a cap that is not negative, no more
    than the cap. *)
Theorem searchClubsAll_is_searchClubs :
  forall (U : Unicode) config clubs query,
    searchClubsAll config clubs query = searchClubs config clubs query
    /\ forall cs, searchClubsAll config clubs query = Returns cs ->
         NoDup (map clubCanonicalKey cs)
         /\ ((0 <= MAX_RESULTS config)%Z ->
             (length cs <= Z.to_nat (MAX_RESULTS config))%nat).
Proof.
  intros U config clubs query. split; [reflexivity|].
  unfold searchClubsAll. intros cs Hs.
  destruct (searchClubs_returns _ _ _ _ Hs) as [->|(q & -> & _ & ->)].
  - split; [constructor | simpl; lia].
  - split.
    + pose proof (answer_NoDup _ (scoredClub q) clubKey (fun _ => eq_refl)
                    (MAX_RESULTS config) clubs) as ND.
      erewrite map_ext in ND; [exact ND|].
      intro c. apply clubKey_scored.
    + intro Hcap.
      rewrite (answer_length _ (scoredClub q) clubKey _ _ Hcap). lia.
Qed.

Lemma searchClubsAll_is_searchClubs_witness :
  NoDup (map clubCanonicalKey (Index.clubs lastGood)).
Proof.
  refine (proj1 (proj2 (searchClubsAll_is_searchClubs Excerpt.tables
            defaultConfig (Index.clubs lastGood) (JStr (str "chess")))
            (Index.clubs lastGood) _)).
  vm_compute. reflexivity.
Defined.
(* ================================================================== *)
(** * Further properties *)

(** ** The matrix of [calculateSimilarity] *)

Section EditDistance.

Lemma lev_nil_l b : lev [] b = length b.
Proof. now destruct b. Qed.

Lemma lev_nil_r a : lev a [] = length a.
Proof. now destruct a. Qed.

Lemma lev_cons x a y b :
  lev (x :: a) (y :: b)
  = if (y =? x)%N then lev a b
    else Nat.min (lev a b + 1) (Nat.min (lev a (y :: b) + 1) (lev (x :: a) b + 1)).
Proof. reflexivity. Qed.

Lemma lev_sym : forall a b, lev a b = lev b a.
Proof.
  induction a as [|x a IHa]; intro b.
  - now rewrite lev_nil_l, lev_nil_r.
  - induction b as [|y b IHb]; [reflexivity|].
    rewrite !lev_cons, (N.eqb_sym x y), (IHa b), (IHa (y :: b)), IHb.
    destruct (y =? x)%N; lia.
Qed.

Lemma lev_bounds : forall a b,
  (lev a b <= Nat.max (length a) (length b)
   /\ length a <= lev a b + length b
   /\ length b <= lev a b + length a)%nat.
Proof.
  induction a as [|x a IHa]; intro b.
  - rewrite lev_nil_l. simpl. lia.
  - induction b as [|y b IHb]; [simpl; lia|].
    rewrite lev_cons. pose proof (IHa b). pose proof (IHa (y :: b)).
    cbn [length] in *. destruct (y =? x)%N; lia.
Qed.

Lemma lev_zero : forall a b, lev a b = 0%nat -> a = b.
Proof.
  induction a as [|x a IHa]; intros b H.
  - destruct b; [reflexivity | discriminate].
  - destruct b as [|y b]; [discriminate|].
    rewrite lev_cons in H. destruct (y =? x)%N eqn:E; [|lia].
    apply N.eqb_eq in E. subst y. f_equal. now apply IHa.
Qed.

Lemma lev_refl : forall a, lev a a = 0%nat.
Proof.
  induction a as [|x a IH]; [reflexivity|].
  now rewrite lev_cons, N.eqb_refl.
Qed.

Lemma firstn_length_app {A} (pre suf : list A) :
  firstn (length pre) (pre ++ suf) = pre.
Proof.
  replace (length pre) with (length pre + 0)%nat by lia.
  rewrite firstn_app_2. simpl. apply app_nil_r.
Qed.

(** A row of the matrix from the row above it. *)
Lemma fillRow_lev c2 rp : forall suf pre,
  fillRow c2 suf
    (map (fun j => lev (rev (firstn j (pre ++ suf))) rp)
         (seq (length pre) (S (length suf))))
    (lev (rev pre) (c2 :: rp))
  = map (fun j => lev (rev (firstn j (pre ++ suf))) (c2 :: rp))
        (seq (S (length pre)) (length suf)).
Proof.
  induction suf as [|c1 r1 IH]; intro pre; [reflexivity|].
  cbn [length seq map fillRow].
  assert (firstn (S (length pre)) (pre ++ c1 :: r1) = pre ++ [c1]) as E1.
  { replace (pre ++ c1 :: r1) with ((pre ++ [c1]) ++ r1)
      by now rewrite <- app_assoc.
    replace (S (length pre)) with (length (pre ++ [c1]))
      by (rewrite length_app; simpl; lia).
    apply firstn_length_app. }
  rewrite firstn_length_app, E1, rev_unit, lev_cons.
  f_equal.
  specialize (IH (pre ++ [c1])).
  replace ((pre ++ [c1]) ++ r1) with (pre ++ c1 :: r1) in IH
    by now rewrite <- app_assoc.
  replace (length (pre ++ [c1])) with (S (length pre)) in IH
    by (rewrite length_app; simpl; lia).
  rewrite rev_unit, lev_cons in IH.
  cbn [seq map] in IH. rewrite E1, rev_unit in IH.
  exact IH.
Qed.

Lemma rows_lev str1 : forall l p,
  fold_left (nextRow str1) l
    (length p, map (fun j => lev (rev (firstn j str1)) (rev p))
                   (seq 0 (S (length str1))))
  = (length (p ++ l),
     map (fun j => lev (rev (firstn j str1)) (rev (p ++ l)))
         (seq 0 (S (length str1)))).
Proof.
  induction l as [|c2 l IH]; intro p.
  - now rewrite app_nil_r.
  - cbn [fold_left]. unfold nextRow at 2. cbn [fst snd].
    pose proof (fillRow_lev c2 (rev p) str1 []) as F.
    cbn [app length rev] in F.
    replace (lev [] (c2 :: rev p)) with (S (length p)) in F
      by (simpl; now rewrite length_rev).
    rewrite F.
    specialize (IH (p ++ [c2])).
    replace ((p ++ [c2]) ++ l) with (p ++ c2 :: l) in IH
      by now rewrite <- app_assoc.
    rewrite <- IH. f_equal. rewrite length_app, rev_unit. cbn [length].
    rewrite Nat.add_1_r. f_equal.
    cbn [seq map firstn rev]. f_equal.
    simpl. now rewrite length_rev.
Qed.

(** The cell [matrix[len2][len1]] is the value of the recurrence on the
    two texts. *)
Lemma distance_lev str1 str2 : distance str1 str2 = lev (rev str1) (rev str2).
Proof.
  unfold distance, lastRow.
  pose proof (rows_lev str1 str2 []) as R. cbn [app length rev] in R.
  assert (map (fun j => lev (rev (firstn j str1)) []) (seq 0 (S (length str1)))
          = seq 0 (S (length str1))) as E.
  { rewrite <- (map_id (seq 0 (S (length str1)))) at 2.
    apply map_ext_in. intros j Hj. apply in_seq in Hj.
    rewrite lev_nil_r, length_rev, length_firstn. lia. }
  rewrite E in R. rewrite R. cbn [snd].
  rewrite (nth_indep _ 0%nat
             (lev (rev (firstn 0 str1)) (rev str2)))
    by (rewrite length_map, length_seq; lia).
  rewrite (map_nth (fun j => lev (rev (firstn j str1)) (rev str2))).
  rewrite seq_nth by lia. simpl. now rewrite firstn_all.
Qed.

Lemma distance_sym str1 str2 : distance str1 str2 = distance str2 str1.
Proof. rewrite !distance_lev. apply lev_sym. Qed.

Lemma distance_bounds str1 str2 :
  (distance str1 str2 <= Nat.max (length str1) (length str2)
   /\ length str1 <= distance str1 str2 + length str2
   /\ length str2 <= distance str1 str2 + length str1)%nat.
Proof.
  rewrite distance_lev.
  pose proof (lev_bounds (rev str1) (rev str2)) as H.
  now rewrite !length_rev in H.
Qed.

Lemma distance_zero str1 str2 : distance str1 str2 = 0%nat -> str1 = str2.
Proof.
  rewrite distance_lev. intro H. apply lev_zero in H.
  rewrite <- (rev_involutive str1), <- (rev_involutive str2). now f_equal.
Qed.

End EditDistance.

Lemma ofNat_pos n : (0 < n)%nat -> (0 < ofNat n)%Q.
Proof. intro H. unfold ofNat, Qlt. simpl. lia. Qed.



(** A ratio of a part to the whole lies between 0 and 1. *)
Lemma ratio_range (a b : Q) :
  (0 <= a)%Q -> (a <= b)%Q -> (0 < b)%Q -> (0 <= a / b <= 1)%Q.
Proof.
  intros Ha Hab Hb. split.
  - apply Qle_shift_div_l; [assumption|]. lra.
  - apply Qle_shift_div_r; [assumption|]. lra.
Qed.

(** What [calculateSimilarity] returns when neither text is empty. *)
Lemma calculateSimilarity_ratio (str1 str2 : jsstring) :
  str1 <> [] -> str2 <> [] ->
  calculateSimilarity str1 str2
  = (inject_Z (Z.of_nat (Nat.max (length str1) (length str2))
               - Z.of_nat (distance str1 str2))
     / ofNat (Nat.max (length str1) (length str2)))%Q.
Proof.
  intros H1 H2. unfold calculateSimilarity.
  destruct str1 as [|c1 r1]; [congruence|].
  destruct str2 as [|c2 r2]; [congruence|]. reflexivity.
Qed.

Lemma calculateSimilarity_bounds (str1 str2 : jsstring) :
  (0 <= calculateSimilarity str1 str2 <= 1)%Q
  /\ (calculateSimilarity str1 str2
      * ofNat (Nat.max (length str1) (length str2))
      <= ofNat (Nat.min (length str1) (length str2)))%Q.
Proof.
  destruct str1 as [|c1 r1].
  { destruct str2; simpl; split; try split; try lra;
      unfold Qle; simpl; lia. }
  destruct str2 as [|c2 r2].
  { simpl; split; try split; try lra; unfold Qle; simpl; lia. }
  rewrite calculateSimilarity_ratio by discriminate.
  set (s1 := c1 :: r1). set (s2 := c2 :: r2).
  pose proof (distance_bounds s1 s2) as (Hu & Hl1 & Hl2).
  set (M := Nat.max (length s1) (length s2)) in *.
  set (D := distance s1 s2) in *.
  assert (0 < M)%nat as HM by (unfold M, s1; simpl; lia).
  assert (0 < ofNat M)%Q as HMq by now apply ofNat_pos.
  split.
  - apply ratio_range; [| |assumption].
    + change 0%Q with (inject_Z 0). rewrite <- Zle_Qle. lia.
    + unfold ofNat. rewrite <- Zle_Qle. lia.
  - unfold Qdiv. rewrite <- Qmult_assoc, (Qmult_comm (/ ofNat M)).
    rewrite Qmult_inv_r by lra. rewrite Qmult_1_r.
    unfold ofNat. rewrite <- Zle_Qle. lia.
Qed.

(* ------------------------------------------------------------------ *)
(** X1. [calculateSimilarity] is symmetric: exchanging the two texts does
    not change the similarity. *)
Theorem calculateSimilarity_symmetric (str1 str2 : jsstring) :
  calculateSimilarity str1 str2 = calculateSimilarity str2 str1.
Proof.
  unfold calculateSimilarity.
  rewrite (distance_sym str1 str2), (Nat.max_comm (length str1)).
  destruct (length str1 =? 0)%nat eqn:E1, (length str2 =? 0)%nat eqn:E2;
    reflexivity.
Qed.


(* ------------------------------------------------------------------ *)
(** X3. [calculateSimilarity] is 1 for equal texts only: two texts have
    similarity 1 exactly when they are the same text. *)
Theorem calculateSimilarity_one_iff (str1 str2 : jsstring) :
  (calculateSimilarity str1 str2 == 1)%Q <-> str1 = str2.
Proof.
  split.
  - destruct str1 as [|c1 r1].
    { destruct str2; [reflexivity|]. simpl. intro H. discriminate H. }
    destruct str2 as [|c2 r2].
    { simpl. intro H. discriminate H. }
    rewrite calculateSimilarity_ratio by discriminate.
    set (s1 := c1 :: r1). set (s2 := c2 :: r2).
    pose proof (distance_bounds s1 s2) as (Hu & _).
    set (M := Nat.max (length s1) (length s2)) in *.
    assert (0 < M)%nat as HM by (unfold M, s1; simpl; lia).
    intro H. apply distance_zero.
    assert (inject_Z (Z.of_nat M - Z.of_nat (distance s1 s2))
            == 1 * ofNat M)%Q as E.
    { rewrite <- H. unfold Qdiv. rewrite <- Qmult_assoc.
      rewrite (Qmult_comm (/ ofNat M)), Qmult_inv_r, Qmult_1_r;
        [reflexivity|].
      pose proof (ofNat_pos M HM). lra. }
    rewrite Qmult_1_l in E. unfold ofNat in E. rewrite inject_Z_injective in E.
    lia.
  - intros <-. destruct str1 as [|c r]; [reflexivity|].
    apply calculateSimilarity_refl. discriminate.
Qed.

(* ------------------------------------------------------------------ *)
(** ** The range of the scorers *)

Section ScorerRange.

Lemma takenCount_le flags : (takenCount flags <= length flags)%nat.
Proof. induction flags as [|[|] flags IH]; simpl; lia. Qed.










End ScorerRange.



(* ------------------------------------------------------------------ *)
(** ** Score tiers *)

Section TierFacts.
Context {U : Unicode}.



End TierFacts.



(* ------------------------------------------------------------------ *)
(** ** The guards of the searches *)

Section GuardFacts.
Context {U : Unicode}.

Lemma doctorCandidates_trim doctors q :
  doctorCandidates doctors (trim q) = doctorCandidates doctors q.
Proof. unfold doctorCandidates. now rewrite trim_idem. Qed.

Lemma clubCandidates_trim clubs q :
  clubCandidates clubs (trim q) = clubCandidates clubs q.
Proof. unfold clubCandidates. now rewrite trim_idem. Qed.

Lemma short_trim (q : jsstring) :
  (length (trim q) <? 2)%nat = false -> isEmpty (trim q) = false.
Proof. destruct (trim q); [discriminate | reflexivity]. Qed.

(** With an empty normalized query every name is on the tier
    [name_start]. *)
Lemma nameScore_empty_query normName nameTokens queryTokens :
  nameScore normName [] nameTokens queryTokens
  = (220%Z, ["name_start"%string]).
Proof.
  unfold nameScore.
  destruct normName as [|c n]; [reflexivity|].
  assert (eqs (c :: n) [] = false) as -> by (apply eqs_false; discriminate).
  reflexivity.
Qed.

End GuardFacts.



(* ------------------------------------------------------------------ *)
(** X9. White space around the query does not change the result:
    [search] and [searchClubs] return for a query what they return for the
    trimmed query. *)
Theorem searches_ignore_surrounding_space (U : Unicode)
  (config : Config) (doctors : list Doctor) (clubs : list Club)
  (q : jsstring) :
  search config doctors (JStr q) = search config doctors (JStr (trim q))
  /\ searchClubs config clubs (JStr q)
     = searchClubs config clubs (JStr (trim q)).
Proof.
  unfold search, searchClubs. cbn [truthy].
  rewrite trim_idem, doctorCandidates_trim, clubCandidates_trim.
  destruct (length (trim q) <? 2)%nat eqn:E.
  - split; destruct (negb (isEmpty q)), (negb (isEmpty (trim q)));
      reflexivity.
  - rewrite (short_trim _ E).
    destruct q as [|c q]; [discriminate E|]. split; reflexivity.
Qed.

(* ------------------------------------------------------------------ *)
(** X10. A query that normalizes to the empty text, such as one made of
    punctuation only, matches every doctor by name: each doctor scores at
    least 220, and each doctor of the collection is represented in the
    result by a doctor with the same canonical key unless the result is
    already as long as [MAX_RESULTS] allows. *)
Theorem search_empty_normalized_query_matches_all (U : Unicode)
  (config : Config) (doctors : list Doctor) (q : jsstring)
  (rs : list Doctor) (d : Doctor) :
  normQueryOf q = [] ->
  (2 <= length (trim q))%nat ->
  (0 <= MAX_RESULTS config)%Z ->
  search config doctors (JStr q) = Returns rs ->
  In d doctors ->
  (220 <= doctorScore q d)%Z
  /\ ((exists r, In r rs /\ canonicalKey r = canonicalKey d)
      \/ length rs = Z.to_nat (MAX_RESULTS config)).
Proof.
  intros Hq Hlen Hcap Hs Hd.
  assert (220 <= doctorScore q d)%Z as Hscore.
  { pose proof (doctorScore_range q d) as H. simpl in H.
    rewrite Hq, nameScore_empty_query in H. simpl in H. lia. }
  split; [assumption|].
  rewrite search_answer in Hs.
  assert (isEmpty q || (length (trim q) <? 2)%nat = false) as G.
  { apply orb_false_iff. split.
    - destruct q; [simpl in Hlen; lia | reflexivity].
    - apply Nat.ltb_ge. exact Hlen. }
  rewrite G in Hs. injection Hs as <-.
  destruct (answer_top _ (scoredDoctor q) doctorKey (fun _ => eq_refl)
              _ doctors d Hcap Hd) as [(r & Hr & Hk & _)|[Hl _]].
  - unfold doctorScore in Hscore. lia.
  - left. exists r. split; [assumption|]. exact Hk.
  - now right.
Qed.

Lemma search_empty_normalized_query_matches_all_witness :
  (220 <= doctorScore (str "??") omar)%Z
  /\ ((exists r, In r [omarKhalil; omar]
                 /\ canonicalKey r = canonicalKey omar)
      \/ length [omarKhalil; omar] = Z.to_nat (MAX_RESULTS defaultConfig)).
Proof.
  apply (search_empty_normalized_query_matches_all Excerpt.tables
           defaultConfig [omarKhalil; omar] (str "??")).
  - vm_compute. reflexivity.
  - simpl. lia.
  - simpl. lia.
  - vm_compute. reflexivity.
  - simpl. auto.
Defined.

(* ------------------------------------------------------------------ *)
(** ** The clubs [loadClubs] delivers *)

Section TidyFacts.

Lemma nonWhite_kept c : forall l b,
  In c l -> isWhiteSpace c = false -> In c (collapseFrom b l).
Proof.
  induction l as [|d l IH]; intros b Hin Hc; [destruct Hin|].
  simpl. destruct Hin as [->|Hin].
  - rewrite Hc. now left.
  - destruct (isWhiteSpace d); [destruct b|]; simpl; auto.
Qed.

Lemma collapseFrom_noLead l : noLead l -> noLead (collapseFrom false l).
Proof.
  destruct l as [|c l]; simpl; [tauto|]. intro H. rewrite H. exact H.
Qed.

Lemma trimEnd_fixed_nonWhite l :
  trimEnd l = l -> l <> [] -> exists c, In c l /\ isWhiteSpace c = false.
Proof.
  unfold trimEnd. intros H Hne.
  assert (trimStart (rev l) = rev l) as E.
  { rewrite <- H at 2. now rewrite rev_involutive. }
  pose proof (trimStart_noLead (rev l)) as N. rewrite E in N.
  destruct (rev l) as [|c t] eqn:R.
  - exfalso. apply Hne. rewrite <- (rev_involutive l), R. reflexivity.
  - exists c. split; [|exact N].
    apply in_rev. rewrite R. now left.
Qed.

Lemma trimEnd_keeps x y : trimEnd y = y -> y <> [] -> trimEnd (x :: y) = x :: y.
Proof.
  intros H Hne. rewrite trimEnd_cons, H. destruct y; [congruence | reflexivity].
Qed.

Lemma collapseFrom_trimEnd : forall l b,
  trimEnd l = l -> trimEnd (collapseFrom b l) = collapseFrom b l.
Proof.
  induction l as [|c l IH]; intros b H; [reflexivity|].
  rewrite trimEnd_cons in H.
  destruct (trimEnd l) as [|d t] eqn:E.
  - destruct (isWhiteSpace c) eqn:Ec; [discriminate H|].
    injection H as <-. simpl. rewrite Ec. simpl.
    rewrite trimEnd_cons. simpl. now rewrite Ec.
  - injection H as H.
    assert (l <> []) as Hne by (rewrite <- H; discriminate).
    assert (trimEnd l = l) as Hl by (rewrite E; exact H).
    destruct (trimEnd_fixed_nonWhite l Hl Hne) as (x & Hx & Hw).
    assert (forall b', collapseFrom b' l <> []) as Hc.
    { intros b' Hn. pose proof (nonWhite_kept x l b' Hx Hw) as Hin.
      rewrite Hn in Hin. destruct Hin. }
    assert (forall b', trimEnd (collapseFrom b' l) = collapseFrom b' l) as IH'.
    { intro b'. apply IH. exact H. }
    simpl. destruct (isWhiteSpace c); [destruct b|].
    + apply IH'.
    + apply trimEnd_keeps; [apply IH' | apply Hc].
    + apply trimEnd_keeps; [apply IH' | apply Hc].
Qed.

(** Collapsing the white space of a trimmed text leaves it trimmed. *)
Lemma collapse_trim_tidy s :
  trim (collapseSpaces (trim s)) = collapseSpaces (trim s)
  /\ collapseSpaces (collapseSpaces (trim s)) = collapseSpaces (trim s).
Proof.
  split.
  - unfold trim at 1.
    rewrite trimStart_fixed.
    + apply collapseFrom_trimEnd. unfold trim. apply trimEnd_idem.
    + apply collapseFrom_noLead. unfold trim.
      apply trimEnd_noLead, trimStart_noLead.
  - unfold collapseSpaces at 1.
    apply (proj1 (collapseFrom_fixed _ (proj1 (collapseFrom_spaced _)))).
Qed.

End TidyFacts.

Module ClubFacts.
Import Index.

Lemma cleanStep_cases validClubs seenNames club :
  cleanStep (validClubs, seenNames) club
  = if hasRequiredFields club
    then if existsb (eqs (clubName (cleanClub club))) seenNames
         then (validClubs, seenNames)
         else (validClubs ++ [cleanClub club],
               seenNames ++ [clubName (cleanClub club)])
    else (validClubs, seenNames).
Proof.
  unfold cleanStep, hasRequiredFields.
  destruct (truthy (rawType club)), (truthy (rawName club)); reflexivity.
Qed.

Lemma cleanStep_invariant seen acc club :
  cleanInvariant seen acc -> cleanInvariant (seen ++ [club]) (cleanStep acc club).
Proof.
  destruct acc as [v s]. intros (Hs & ND & Hfrom & Hall).
  simpl in Hs, ND, Hfrom, Hall.
  rewrite cleanStep_cases.
  destruct (hasRequiredFields club) eqn:Hreq;
    [destruct (existsb (eqs (clubName (cleanClub club))) s) eqn:Hseen|];
    unfold cleanInvariant; simpl.
  - split; [assumption|]. split; [assumption|]. split.
    + intros c Hc. destruct (Hfrom c Hc) as (raw & Hr & Hq & E).
      exists raw. split; [apply in_app_iff; now left | now split].
    + intros raw Hr Hq. apply in_app_iff in Hr.
      destruct Hr as [Hr|[<-|[]]]; [now apply Hall|].
      now apply existsb_eqs.
  - assert (~ In (clubName (cleanClub club)) s) as Hnew.
    { intro H. apply existsb_eqs in H. congruence. }
    split; [now rewrite map_app, Hs|]. split.
    + apply NoDup_app; [assumption | repeat constructor; auto |].
      intros x Hx [<-|[]]. contradiction.
    + split.
      * intros c Hc. apply in_app_iff in Hc. destruct Hc as [Hc|[<-|[]]].
        -- destruct (Hfrom c Hc) as (raw & Hr & Hq & E).
           exists raw. split; [apply in_app_iff; now left | now split].
        -- exists club. split; [apply in_app_iff; right; now left|].
           now split.
      * intros raw Hr Hq. apply in_app_iff. apply in_app_iff in Hr.
        destruct Hr as [Hr|[<-|[]]]; [left; now apply Hall|].
        right. now left.
  - split; [assumption|]. split; [assumption|]. split.
    + intros c Hc. destruct (Hfrom c Hc) as (raw & Hr & Hq & E).
      exists raw. split; [apply in_app_iff; now left | now split].
    + intros raw Hr Hq. apply in_app_iff in Hr.
      destruct Hr as [Hr|[<-|[]]]; [now apply Hall | congruence].
Qed.

Lemma cleanFold_invariant rawClubs : forall seen acc,
  cleanInvariant seen acc ->
  cleanInvariant (seen ++ rawClubs) (fold_left cleanStep rawClubs acc).
Proof.
  induction rawClubs as [|club rawClubs IH]; intros seen acc H; simpl.
  - now rewrite app_nil_r.
  - replace (seen ++ club :: rawClubs) with ((seen ++ [club]) ++ rawClubs)
      by now rewrite <- app_assoc.
    apply IH. now apply cleanStep_invariant.
Qed.

Lemma cleanClub_tidy raw :
  trim (clubName (cleanClub raw)) = clubName (cleanClub raw)
  /\ collapseSpaces (clubName (cleanClub raw)) = clubName (cleanClub raw).
Proof. apply collapse_trim_tidy. Qed.

Lemma loadClubs_parsed disk rawClubs :
  clubsFile disk = Parsed rawClubs ->
  cleanInvariant rawClubs (loadClubs disk, map clubName (loadClubs disk)).
Proof.
  intro E. unfold loadClubs. rewrite E.
  pose proof (cleanFold_invariant rawClubs [] ([], [])) as H.
  simpl in H.
  assert (cleanInvariant [] ([], [])) as H0.
  { split; [reflexivity|]. split; [constructor|]. split; intros ? []. }
  specialize (H H0). destruct (fold_left cleanStep rawClubs ([], [])) as [v s].
  destruct H as (Hs & H). simpl in Hs. subst s.
  split; [reflexivity | exact H].
Qed.

Lemma loadClubs_names disk :
  NoDup (map clubName (loadClubs disk))
  /\ forall c, In c (loadClubs disk) -> trim (clubName c) = clubName c.
Proof.
  destruct (clubsFile disk) as [| | |rawClubs] eqn:E;
    try (unfold loadClubs; rewrite E; split; [constructor | intros ? []]).
  destruct (loadClubs_parsed disk rawClubs E) as (_ & ND & Hfrom & _).
  split; [exact ND|].
  intros c Hc. destruct (Hfrom c Hc) as (raw & _ & _ & ->).
  apply cleanClub_tidy.
Qed.

End ClubFacts.

(* ------------------------------------------------------------------ *)
(** X11. The clubs [loadClubs] delivers: no two have the same name; every
    name is trimmed and has its runs of white space collapsed; and every
    club is the clean form of an entry of the file that has a type and a
    name. *)
Theorem loadClubs_invariant (disk : Index.Disk) :
  NoDup (map clubName (Index.loadClubs disk))
  /\ (forall c, In c (Index.loadClubs disk) ->
        trim (clubName c) = clubName c
        /\ collapseSpaces (clubName c) = clubName c)
  /\ forall rawClubs, Index.clubsFile disk = Index.Parsed rawClubs ->
       forall c, In c (Index.loadClubs disk) ->
         exists raw, In raw rawClubs /\ hasRequiredFields raw = true
                     /\ c = cleanClub raw.
Proof.
  split; [apply ClubFacts.loadClubs_names|]. split.
  - intros c Hc.
    destruct (Index.clubsFile disk) as [| | |rawClubs] eqn:E;
      try (unfold Index.loadClubs in Hc; rewrite E in Hc; destruct Hc).
    destruct (ClubFacts.loadClubs_parsed disk rawClubs E) as (_ & _ & Hfrom & _).
    destruct (Hfrom c Hc) as (raw & _ & _ & ->).
    apply ClubFacts.cleanClub_tidy.
  - intros rawClubs E.
    destruct (ClubFacts.loadClubs_parsed disk rawClubs E) as (_ & _ & Hfrom & _).
    exact Hfrom.
Qed.

Lemma loadClubs_invariant_witness :
  exists raw,
    In raw [ rawClubNamed (JStr (str "Club")) " Chess   Club ";
             rawClubNamed (JStr (str "Club")) "Chess Club";
             rawClubNamed JUndefined "Art" ]
    /\ hasRequiredFields raw = true
    /\ clubNamed "Chess Club" = cleanClub raw.
Proof.
  apply (proj2 (proj2 (loadClubs_invariant chessTwice)) _ eq_refl).
  vm_compute. left. reflexivity.
Defined.

(* ------------------------------------------------------------------ *)
(** ** Duplicate detection *)

Module DuplicateFacts.
Import Index Directory.

Lemma mapGet_mapSet_same {V} (k : jsstring) (v : V) m :
  mapGet k (mapSet k v m) = Some v.
Proof.
  induction m as [|[k' v'] m IH]; simpl.
  - now rewrite eqs_refl.
  - destruct (eqs k' k) eqn:E; simpl; rewrite E; [reflexivity | exact IH].
Qed.

Lemma mapGet_mapSet_other {V} (k k' : jsstring) (v : V) m :
  k' <> k -> mapGet k' (mapSet k v m) = mapGet k' m.
Proof.
  intro Hne. induction m as [|[k0 v0] m IH]; simpl.
  - destruct (eqs k k') eqn:E; [apply eqs_true in E; congruence | reflexivity].
  - destruct (eqs k0 k) eqn:E; simpl.
    + apply eqs_true in E. subst k0.
      destruct (eqs k k') eqn:E'; [apply eqs_true in E'; congruence|].
      reflexivity.
    + destruct (eqs k0 k'); [reflexivity | exact IH].
Qed.

Lemma mapSet_NoDup {V} (k : jsstring) (v : V) m :
  NoDup (map fst m) -> NoDup (map fst (mapSet k v m)).
Proof.
  intro ND. destruct (in_dec (list_eq_dec N.eq_dec) k (map fst m)) as [H|H].
  - now rewrite mapSet_keys.
  - rewrite mapSet_absent, map_app by assumption. simpl.
    apply NoDup_app; [assumption | repeat constructor; auto |].
    intros x Hx [<-|[]]. contradiction.
Qed.

Lemma mapGet_In {V} (k : jsstring) (v : V) m :
  NoDup (map fst m) -> In (k, v) m -> mapGet k m = Some v.
Proof.
  intros ND H. destruct (mapGet k m) as [v'|] eqn:G.
  - apply mapGet_Some in G. f_equal. exact (NoDup_keys_unique _ _ _ _ ND G H).
  - apply mapGet_None in G. exfalso. apply G.
    now apply (in_map fst) in H.
Qed.

Lemma positionsOf_snoc name entries idx club :
  positionsOf name (entries ++ [(idx, club)])
  = positionsOf name entries
    ++ (if eqs (trim (clubName club)) name then [idx] else []).
Proof.
  unfold positionsOf. rewrite filter_app, map_app. simpl.
  now destruct (eqs (trim (clubName club)) name).
Qed.

Lemma countStep_invariant seen counts entry :
  countInvariant seen counts ->
  countInvariant (seen ++ [entry]) (countStep counts entry).
Proof.
  destruct entry as [idx club]. intros [ND H]. unfold countStep.
  set (name := trim (clubName club)).
  split; [now apply mapSet_NoDup|].
  intro k. rewrite positionsOf_snoc. fold name.
  destruct (eqs name k) eqn:E.
  - apply eqs_true in E. subst k. rewrite mapGet_mapSet_same, H.
    destruct (positionsOf name seen) as [|i l]; reflexivity.
  - apply eqs_false in E.
    rewrite mapGet_mapSet_other by congruence.
    now rewrite H, app_nil_r.
Qed.

Lemma countFold_invariant entries : forall seen counts,
  countInvariant seen counts ->
  countInvariant (seen ++ entries) (fold_left countStep entries counts).
Proof.
  induction entries as [|e entries IH]; intros seen counts H; simpl.
  - now rewrite app_nil_r.
  - replace (seen ++ e :: entries) with ((seen ++ [e]) ++ entries)
      by now rewrite <- app_assoc.
    apply IH. now apply countStep_invariant.
Qed.

Lemma counts_invariant (entries : list (nat * Club)) :
  countInvariant entries (fold_left countStep entries []).
Proof.
  apply (countFold_invariant entries [] []).
  split; [constructor | reflexivity].
Qed.

Lemma combine_seq_fst {A} (l : list A) : forall s,
  map fst (combine (seq s (length l)) l) = seq s (length l).
Proof.
  induction l as [|x l IH]; intro s; simpl; [reflexivity|].
  now rewrite IH.
Qed.

Lemma combine_seq_In {A} (l : list A) : forall s i x,
  In (i, x) (combine (seq s (length l)) l)
  <-> (s <= i)%nat /\ nth_error l (i - s) = Some x.
Proof.
  induction l as [|y l IH]; intros s i x; simpl.
  - split; [tauto|]. intros [_ H]. now destruct (i - s)%nat.
  - rewrite IH. split.
    + intros [[= <- <-]|[Hs Hn]].
      * split; [lia|]. now rewrite Nat.sub_diag.
      * split; [lia|]. replace (i - s)%nat with (S (i - S s)) by lia.
        exact Hn.
    + intros [Hs Hn]. destruct (Nat.eq_dec s i) as [<-|Hne].
      * left. rewrite Nat.sub_diag in Hn. simpl in Hn. congruence.
      * right. split; [lia|].
        replace (i - s)%nat with (S (i - S s)) in Hn by lia. exact Hn.
Qed.

(** Filtering keeps the images of the entries distinct. *)
Lemma distinct_images_filter {K V : Type} (image : K -> V) (keep : K -> bool) :
  forall entries : list K,
    NoDup (map image entries) -> NoDup (map image (filter keep entries)).
Proof.
  intros entries. induction entries as [|e entries IH]; [intros _; constructor|].
  cbn [map filter]. intro ND. apply NoDup_cons_iff in ND.
  destruct ND as [Hfresh ND]. destruct (keep e); [|now apply IH].
  cbn [map]. apply NoDup_cons; [|now apply IH].
  intro Hin. apply Hfresh. apply in_map_iff in Hin.
  destruct Hin as (y & Ey & Hy). apply filter_In in Hy.
  apply in_map_iff. exists y. tauto.
Qed.

Lemma positionsOf_spec (clubs : list Club) name i :
  In i (positionsOf name (combine (seq 0 (length clubs)) clubs))
  <-> exists c, nth_error clubs i = Some c /\ trim (clubName c) = name.
Proof.
  unfold positionsOf. rewrite in_map_iff. split.
  - intros ([j c] & E & H). simpl in E. subst j.
    apply filter_In in H. destruct H as [H1 H2]. simpl in H2.
    apply combine_seq_In in H1. rewrite Nat.sub_0_r in H1.
    exists c. split; [tauto | now apply eqs_true].
  - intros (c & Hn & E). exists (i, c). split; [reflexivity|].
    apply filter_In. split.
    + apply combine_seq_In. rewrite Nat.sub_0_r. split; [lia | exact Hn].
    + simpl. rewrite E. apply eqs_refl.
Qed.

Lemma positionsOf_NoDup (clubs : list Club) name :
  NoDup (positionsOf name (combine (seq 0 (length clubs)) clubs)).
Proof.
  unfold positionsOf. apply distinct_images_filter.
  rewrite combine_seq_fst. apply seq_NoDup.
Qed.

Lemma two_members {A} (l : list A) (a b : A) :
  In a l -> In b l -> a <> b -> (2 <= length l)%nat.
Proof.
  destruct l as [|x [|y l]]; simpl; try tauto; [|lia].
  intros [<-|[]] [<-|[]]. congruence.
Qed.

(** The entries of the result, by name. *)
Lemma detectDuplicates_In this d :
  In d (detectDuplicates this)
  <-> let l := positionsOf (dupName d)
                 (combine (seq 0 (length (clubs this))) (clubs this)) in
      indices d = l /\ count d = length l /\ (2 <= length l)%nat.
Proof.
  unfold detectDuplicates.
  set (entries := combine (seq 0 (length (clubs this))) (clubs this)).
  destruct (counts_invariant entries) as [ND H].
  set (counts := fold_left countStep entries []) in *.
  rewrite in_map_iff. split.
  - intros ([k l] & <- & Hin). apply filter_In in Hin.
    destruct Hin as [Hin Hlen]. simpl in *. apply Nat.ltb_lt in Hlen.
    apply (mapGet_In _ _ _ ND) in Hin. rewrite H in Hin.
    destruct (positionsOf k entries) as [|i r] eqn:E; [discriminate|].
    injection Hin as <-. simpl in *. repeat split; lia.
  - destruct d as [k l c]. simpl. intros (-> & -> & Hlen).
    exists (k, positionsOf k entries). split; [reflexivity|].
    apply filter_In. split.
    + apply mapGet_Some. rewrite H.
      destruct (positionsOf k entries); [simpl in Hlen; lia | reflexivity].
    + simpl. apply Nat.ltb_lt. lia.
Qed.

Lemma detectDuplicates_names this :
  NoDup (map dupName (detectDuplicates this)).
Proof.
  unfold detectDuplicates.
  set (entries := combine (seq 0 (length (clubs this))) (clubs this)).
  destruct (counts_invariant entries) as [ND _].
  rewrite map_map. simpl.
  now apply distinct_images_filter.
Qed.

End DuplicateFacts.

(* ------------------------------------------------------------------ *)
(** X12. [detectDuplicates] reports exactly the names, after trimming,
    that two or more clubs bear: each reported entry lists the positions
    of the clubs with its name, every position once, and its count is
    their number, at least 2; no name is reported twice; and whenever two
    clubs at different positions have the same trimmed name, that name is
    reported. *)
Theorem detectDuplicates_reports_shared_names (this : Index.HTUAssistant) :
  NoDup (map Directory.dupName (Directory.detectDuplicates this))
  /\ (forall d, In d (Directory.detectDuplicates this) ->
        Directory.count d = length (Directory.indices d)
        /\ (2 <= Directory.count d)%nat
        /\ NoDup (Directory.indices d)
        /\ forall i, In i (Directory.indices d)
                     <-> exists c, nth_error (Index.clubs this) i = Some c
                                   /\ trim (clubName c) = Directory.dupName d)
  /\ (forall i j ci cj,
        i <> j ->
        nth_error (Index.clubs this) i = Some ci ->
        nth_error (Index.clubs this) j = Some cj ->
        trim (clubName ci) = trim (clubName cj) ->
        exists d, In d (Directory.detectDuplicates this)
                  /\ Directory.dupName d = trim (clubName ci)).
Proof.
  split; [apply DuplicateFacts.detectDuplicates_names|]. split.
  - intros d Hd. apply DuplicateFacts.detectDuplicates_In in Hd.
    destruct Hd as (Ei & Ec & Hlen). rewrite Ec, Ei.
    split; [reflexivity|]. split; [exact Hlen|].
    split; [apply DuplicateFacts.positionsOf_NoDup|].
    intro i. apply DuplicateFacts.positionsOf_spec.
  - intros i j ci cj Hne Hi Hj E.
    set (k := trim (clubName ci)).
    set (l := positionsOf k
                (combine (seq 0 (length (Index.clubs this))) (Index.clubs this))).
    exists {| Directory.dupName := k; Directory.indices := l;
              Directory.count := length l |}.
    split; [|reflexivity].
    apply DuplicateFacts.detectDuplicates_In. simpl. fold l.
    split; [reflexivity|]. split; [reflexivity|].
    apply (DuplicateFacts.two_members l i j); [| |exact Hne];
      apply DuplicateFacts.positionsOf_spec; eauto.
Qed.

Lemma detectDuplicates_reports_shared_names_witness :
  exists d, In d (Directory.detectDuplicates twoChessClubs)
            /\ Directory.dupName d = trim (clubName (clubNamed "Chess")).
Proof.
  apply (proj2 (proj2 (detectDuplicates_reports_shared_names twoChessClubs))
           0%nat 2%nat (clubNamed "Chess") (clubNamed " Chess")).
  - lia.
  - reflexivity.
  - reflexivity.
  - vm_compute. reflexivity.
Defined.

(* ------------------------------------------------------------------ *)
(** X13. On the clubs [loadClubs] delivers, [detectDuplicates] finds
    nothing: the loader has already dropped every club whose clean name
    was seen before. *)
Theorem detectDuplicates_empty_after_loadClubs
  (disk : Index.Disk) (this : Index.HTUAssistant) :
  Directory.detectDuplicates (Index.setClubs (Index.loadClubs disk) this) = [].
Proof.
  destruct (Directory.detectDuplicates
              (Index.setClubs (Index.loadClubs disk) this)) as [|d r] eqn:E;
    [reflexivity|].
  exfalso.
  assert (In d (Directory.detectDuplicates
                  (Index.setClubs (Index.loadClubs disk) this))) as Hd
    by (rewrite E; now left).
  apply DuplicateFacts.detectDuplicates_In in Hd.
  destruct Hd as (Ei' & Ec & Hlen).
  pose proof (DuplicateFacts.positionsOf_NoDup
                (Index.clubs (Index.setClubs (Index.loadClubs disk) this))
                (Directory.dupName d)) as ND.
  pose proof (fun i => DuplicateFacts.positionsOf_spec
                (Index.clubs (Index.setClubs (Index.loadClubs disk) this))
                (Directory.dupName d) i) as Hidx.
  rewrite <- Ei' in ND, Hidx, Hlen. simpl in Hidx.
  destruct (ClubFacts.loadClubs_names disk) as [NDn Htidy].
  destruct (Directory.indices d) as [|i [|j l]] eqn:Ei;
    simpl in Hlen; try lia.
  destruct (proj1 (Hidx i) (or_introl eq_refl)) as (ci & Hi & Eci).
  destruct (proj1 (Hidx j) (or_intror (or_introl eq_refl))) as (cj & Hj & Ecj).
  inversion ND as [|? ? Hnotin _]; subst.
  apply Hnotin. left.
  rewrite Htidy in Eci by (eapply nth_error_In; eassumption).
  rewrite Htidy in Ecj by (eapply nth_error_In; eassumption).
  apply (proj1 (NoDup_nth_error (map clubName (Index.loadClubs disk))) NDn).
  - rewrite length_map. apply nth_error_Some. congruence.
  - rewrite !nth_error_map, Hi, Hj. simpl. congruence.
Qed.

(* ------------------------------------------------------------------ *)
(** ** The departments *)

Module DepartmentFacts.
Import Index.

Lemma precedes_irrefl a : precedes a a = false.
Proof.
  induction a as [|x a IH]; [reflexivity|].
  simpl. rewrite N.ltb_irrefl, N.eqb_refl. exact IH.
Qed.

Lemma precedes_trans : forall a b c,
  precedes a b = true -> precedes b c = true -> precedes a c = true.
Proof.
  induction a as [|x a IH]; intros [|y b] [|z c] H1 H2;
    try discriminate; [reflexivity|].
  simpl in *.
  apply orb_true_iff in H1. apply orb_true_iff in H2. apply orb_true_iff.
  destruct H1 as [H1|H1], H2 as [H2|H2].
  - left. apply N.ltb_lt in H1, H2. apply N.ltb_lt. lia.
  - apply andb_true_iff in H2. destruct H2 as [E _]. apply N.eqb_eq in E.
    subst z. now left.
  - apply andb_true_iff in H1. destruct H1 as [E _]. apply N.eqb_eq in E.
    subst y. now left.
  - apply andb_true_iff in H1. destruct H1 as [E1 H1].
    apply andb_true_iff in H2. destruct H2 as [E2 H2].
    apply N.eqb_eq in E1, E2. subst y z. right.
    rewrite N.eqb_refl. simpl. now apply (IH b c).
Qed.

Lemma precedes_total : forall a b,
  precedes a b = false -> a = b \/ precedes b a = true.
Proof.
  induction a as [|x a IH]; intros [|y b] H; try discriminate; auto.
  simpl in *. apply orb_false_iff in H. destruct H as [H1 H2].
  apply N.ltb_ge in H1.
  destruct (N.eq_dec x y) as [<-|Hne].
  - rewrite N.eqb_refl in H2. simpl in H2.
    destruct (IH b H2) as [->|H]; [now left|].
    right. now rewrite N.eqb_refl, H, orb_true_r.
  - right. apply orb_true_iff. left. apply N.ltb_lt. lia.
Qed.

Lemma insertSorted_In x z : forall l,
  In z (insertSorted x l) <-> z = x \/ In z l.
Proof.
  induction l as [|y l IH]; simpl; [intuition congruence|].
  destruct (precedes y x); simpl; [rewrite IH|]; intuition congruence.
Qed.

Lemma insertSorted_ascending x : forall l,
  ascending l -> ~ In x l -> ascending (insertSorted x l).
Proof.
  induction l as [|y l IH]; intros Hs Hx; simpl.
  - repeat constructor.
  - inversion Hs as [|? ? Hl Hy]; subst.
    destruct (precedes y x) eqn:E.
    + constructor.
      * apply IH; [assumption|]. intro H. apply Hx. now right.
      * apply Forall_forall. intros z Hz. apply insertSorted_In in Hz.
        destruct Hz as [->|Hz]; [assumption|].
        rewrite Forall_forall in Hy. now apply Hy.
    + destruct (precedes_total _ _ E) as [->|Hxy];
        [exfalso; apply Hx; now left|].
      constructor; [assumption|].
      constructor; [assumption|].
      apply Forall_forall. intros z Hz. rewrite Forall_forall in Hy.
      apply (precedes_trans x y z); [assumption | now apply Hy].
Qed.

Lemma sort_ascending (l : list jsstring) :
  NoDup l ->
  ascending (fold_right insertSorted [] l)
  /\ forall z, In z (fold_right insertSorted [] l) <-> In z l.
Proof.
  induction l as [|x l IH]; intro ND; simpl.
  - split; [constructor | tauto].
  - inversion ND as [|? ? Hx ND']; subst.
    destruct (IH ND') as [Hs Hin]. split.
    + apply insertSorted_ascending; [assumption|]. now rewrite Hin.
    + intro z. rewrite insertSorted_In, Hin. intuition congruence.
Qed.

Lemma ascending_NoDup (l : list jsstring) : ascending l -> NoDup l.
Proof.
  induction 1 as [|x l Hs IH Hx]; constructor; [|assumption].
  intro H. rewrite Forall_forall in Hx. specialize (Hx x H).
  now rewrite precedes_irrefl in Hx.
Qed.

Lemma setAdd_NoDup x set : NoDup set -> NoDup (setAdd x set).
Proof.
  intro ND. unfold setAdd. destruct (existsb (eqs x) set) eqn:E; [assumption|].
  apply NoDup_app; [assumption | repeat constructor; auto |].
  intros y Hy [<-|[]]. apply existsb_eqs in Hy. congruence.
Qed.

Lemma setAdd_In x y set : In y (setAdd x set) <-> y = x \/ In y set.
Proof.
  unfold setAdd. destruct (existsb (eqs x) set) eqn:E.
  - apply existsb_eqs in E. intuition congruence.
  - rewrite in_app_iff. simpl. intuition congruence.
Qed.

Lemma collectDepartments_returns doctors : forall acc deps,
  collectDepartments doctors acc = Returns deps ->
  NoDup acc ->
  NoDup deps
  /\ forall x, In x deps
               <-> In x acc \/ exists d, In d doctors /\ inDepartmentNamed x d.
Proof.
  induction doctors as [|d doctors IH]; intros acc deps H ND; simpl in H.
  - injection H as <-. split; [assumption|].
    intro x. split; [auto|]. intros [H|(d & [] & _)]. exact H.
  - destruct (truthy (department d)) eqn:T.
    + destruct (department d) as [| |b| |z|s|o] eqn:D; try discriminate H.
      destruct (IH _ _ H (setAdd_NoDup (trim s) acc ND)) as [ND' Hin].
      split; [assumption|]. intro x. rewrite Hin, setAdd_In. split.
      * intros [[->|Hx]|(d' & Hd' & Hn)].
        -- right. exists d. split; [now left|]. exists s.
           split; [assumption|]. split; [|reflexivity].
           intros ->. discriminate T.
        -- now left.
        -- right. exists d'. split; [now right | assumption].
      * intros [Hx|(d' & [<-|Hd'] & Hn)].
        -- left. now right.
        -- destruct Hn as (s' & E & _ & ->). rewrite D in E.
           injection E as <-. left. now left.
        -- right. exists d'. now split.
    + destruct (IH _ _ H ND) as [ND' Hin].
      split; [assumption|]. intro x. rewrite Hin. split.
      * intros [Hx|(d' & Hd' & Hn)]; [now left|].
        right. exists d'. split; [now right | assumption].
      * intros [Hx|(d' & [<-|Hd'] & Hn)]; [now left| |].
        -- destruct Hn as (s' & E & Hne & _). rewrite E in T.
           destruct s'; [congruence | discriminate T].
        -- right. exists d'. now split.
Qed.

Lemma collectDepartments_throws doctors : forall acc,
  (exists e, collectDepartments doctors acc = Throws e)
  <-> exists d, In d doctors /\ truthy (department d) = true
                /\ forall s, department d <> JStr s.
Proof.
  induction doctors as [|d doctors IH]; intro acc; simpl.
  - split; [intros [e H]; discriminate H | intros (d & [] & _)].
  - destruct (truthy (department d)) eqn:T.
    + destruct (department d) as [| |b| |z|s|o] eqn:D;
        try (split; [intros _; exists d; split; [now left|]; rewrite D;
                     split; [exact T | discriminate]
                    | intros _; eauto]).
      rewrite IH. split.
      * intros (d' & Hd' & H). exists d'. split; [now right | assumption].
      * intros (d' & [<-|Hd'] & Ht & Hs).
        -- exfalso. now apply (Hs s).
        -- exists d'. now split.
    + rewrite IH. split.
      * intros (d' & Hd' & H). exists d'. split; [now right | assumption].
      * intros (d' & [<-|Hd'] & Ht & Hs); [congruence|].
        exists d'. now split.
Qed.

Lemma extractDepartments_returns this ds :
  extractDepartments this = Returns ds ->
  ascending ds
  /\ forall x, In x ds <-> exists d, In d (doctors this) /\ inDepartmentNamed x d.
Proof.
  unfold extractDepartments.
  destruct (collectDepartments (doctors this) []) as [deps|e] eqn:E;
    [|discriminate].
  simpl. intros [= <-].
  destruct (collectDepartments_returns _ _ _ E (NoDup_nil _)) as [ND Hin].
  destruct (sort_ascending deps ND) as [Hs Hsame]. split; [assumption|].
  intro x. rewrite Hsame, Hin. split; [intros [[]|H]; exact H | auto].
Qed.

Lemma extractDepartments_doctors this other :
  doctors this = doctors other ->
  extractDepartments this = extractDepartments other.
Proof. unfold extractDepartments. now intros ->. Qed.

End DepartmentFacts.

(* ------------------------------------------------------------------ *)
(** X14. When [extractDepartments] returns, its list is strictly
    ascending in the order of UTF-16 code units, so it holds no
    department twice, and it holds exactly the trimmed departments of the
    doctors whose department is a text that is not empty. *)
Theorem extractDepartments_sorted_distinct
  (this : Index.HTUAssistant) (ds : list jsstring) :
  Index.extractDepartments this = Returns ds ->
  StronglySorted (fun a b => Index.precedes a b = true) ds
  /\ NoDup ds
  /\ forall x, In x ds
               <-> exists d s, In d (Index.doctors this)
                               /\ department d = JStr s /\ s <> []
                               /\ x = trim s.
Proof.
  intro H. apply DepartmentFacts.extractDepartments_returns in H.
  destruct H as [Hs Hin]. split; [exact Hs|].
  split; [now apply DepartmentFacts.ascending_NoDup|].
  intro x. rewrite Hin. split.
  - intros (d & Hd & s & E & Hne & Hx). now exists d, s.
  - intros (d & s & Hd & E & Hne & Hx). exists d. split; [assumption|].
    now exists s.
Qed.

Lemma extractDepartments_sorted_distinct_witness :
  StronglySorted (fun a b => Index.precedes a b = true)
    [str "Civil"; str "Computer Science"]
  /\ NoDup [str "Civil"; str "Computer Science"]
  /\ forall x, In x [str "Civil"; str "Computer Science"]
               <-> exists d s,
                     In d (Index.doctors
                             (Index.setDoctors [omarKhalil; omar; khalilPlain]
                                lastGood))
                     /\ department d = JStr s /\ s <> [] /\ x = trim s.
Proof.
  apply (extractDepartments_sorted_distinct
           (Index.setDoctors [omarKhalil; omar; khalilPlain] lastGood)).
  vm_compute. reflexivity.
Defined.

(* ------------------------------------------------------------------ *)
(** ** The constructor and [reload] *)

Module ReloadFacts.
Import Index Directory.

(** The constructor, step by step. *)
Lemma construct_unfold disk :
  construct disk
  = match extractDepartments (setDoctors (loadDoctors disk) unassigned) with
    | Returns departments =>
        Returns {| doctors := loadDoctors disk; departments := departments;
                   clubs := loadClubs disk;
                   nameSystem := loadNameSystem disk |}
    | Throws e => Throws e
    end.
Proof.
  unfold construct, andThen, assign, getThis, lift.
  destruct (extractDepartments (setDoctors (loadDoctors disk) unassigned));
    reflexivity.
Qed.

Lemma extractDepartments_setDoctors ds this other :
  extractDepartments (setDoctors ds this)
  = extractDepartments (setDoctors ds other).
Proof. now apply DepartmentFacts.extractDepartments_doctors. Qed.

End ReloadFacts.

(* ------------------------------------------------------------------ *)
(** X15. A doctor whose department is truthy and not a text (a number
    other than 0, [true], an array or an object) makes
    [extractDepartments] throw, and with it the constructor, when the
    loader delivers such a doctor. *)
Theorem extractDepartments_throws_on_non_text
  (this : Index.HTUAssistant) (d : Doctor) :
  In d (Index.doctors this) ->
  truthy (department d) = true ->
  (forall s, department d <> JStr s) ->
  (exists e, Index.extractDepartments this = Throws e)
  /\ forall disk, Index.loadDoctors disk = Index.doctors this ->
       exists e, Directory.construct disk = Throws e.
Proof.
  intros Hd Ht Hs.
  assert (forall other,
            Index.doctors other = Index.doctors this ->
            exists e, Index.extractDepartments other = Throws e) as H.
  { intros other E. unfold Index.extractDepartments. rewrite E.
    destruct (proj2 (DepartmentFacts.collectDepartments_throws
                       (Index.doctors this) [])) as [e He].
    - now exists d.
    - exists e. now rewrite He. }
  split; [now apply H|].
  intros disk E. rewrite ReloadFacts.construct_unfold.
  destruct (H (Index.setDoctors (Index.loadDoctors disk) Directory.unassigned))
    as [e He]; [exact E|].
  rewrite He. eauto.
Qed.

Lemma extractDepartments_throws_on_non_text_witness :
  exists e,
    Index.extractDepartments
      (Index.setDoctors (Index.loadDoctors numberedDepartment) lastGood)
    = Throws e.
Proof.
  refine (proj1 (extractDepartments_throws_on_non_text
                   (Index.setDoctors (Index.loadDoctors numberedDepartment)
                      lastGood)
                   {| name := JStr (str "Omar"); department := JNum 7;
                      office := JUndefined; school := JUndefined;
                      email := JUndefined |} _ _ _)).
  - simpl. auto.
  - reflexivity.
  - discriminate.
Defined.

(* ------------------------------------------------------------------ *)
(** X16. [reload] rebuilds what the constructor builds.  When
    [new HTUAssistant()] returns an instance, [reload] on the same files
    leaves exactly that instance, whatever the instance was before, and
    reports [ok: true] with its numbers of doctors and clubs; when the
    constructor throws, [reload] reports [ok: false] with the description
    of that error. *)
Theorem reload_rebuilds_as_constructed
  (disk : Index.Disk) (this : Index.HTUAssistant) :
  match Directory.construct disk with
  | Returns built =>
      Index.reload disk this
      = (built, Returns (Index.Reloaded (length (Index.doctors built))
                                        (length (Index.clubs built))))
  | Throws e =>
      snd (Index.reload disk this) = Returns (Index.Failed (describe e))
  end.
Proof.
  rewrite ReloadFacts.construct_unfold, IndexFacts.reload_unfold.
  rewrite (ReloadFacts.extractDepartments_setDoctors _ this Directory.unassigned).
  destruct (Index.extractDepartments
              (Index.setDoctors (Index.loadDoctors disk) Directory.unassigned));
    reflexivity.
Qed.

(* ------------------------------------------------------------------ *)
(** X17. A [reload] that reports [ok: false] has replaced the doctors and
    nothing else: the departments, the clubs and the building legend are
    the ones from before, so the departments may no longer be those of the
    doctors.  A [reload] that reports [ok: true] leaves the departments
    extracted from the new doctors, the clubs and the legend of the
    loaders, and reports the lengths of the two collections. *)
Theorem reload_failure_replaces_doctors_only
  (disk : Index.Disk) (this : Index.HTUAssistant) :
  let after := fst (Index.reload disk this) in
  (forall error,
      snd (Index.reload disk this) = Returns (Index.Failed error) ->
      Index.doctors after = Index.loadDoctors disk
      /\ Index.departments after = Index.departments this
      /\ Index.clubs after = Index.clubs this
      /\ Index.nameSystem after = Index.nameSystem this)
  /\ (forall n m,
        snd (Index.reload disk this) = Returns (Index.Reloaded n m) ->
        Index.extractDepartments after = Returns (Index.departments after)
        /\ Index.clubs after = Index.loadClubs disk
        /\ Index.nameSystem after = Index.loadNameSystem disk
        /\ n = length (Index.doctors after)
        /\ m = length (Index.clubs after)).
Proof.
  intros after. subst after. rewrite IndexFacts.reload_unfold.
  destruct (Index.extractDepartments
              (Index.setDoctors (Index.loadDoctors disk) this))
    as [deps|e] eqn:E; simpl.
  - split; [discriminate|]. intros n m [= <- <-].
    split; [|now repeat split].
    rewrite <- E. now apply DepartmentFacts.extractDepartments_doctors.
  - split; [|discriminate]. intros error _. now repeat split.
Qed.

Lemma reload_failure_replaces_doctors_only_witness :
  Index.doctors (fst (Index.reload numberedDepartment lastGood))
  = Index.loadDoctors numberedDepartment
  /\ Index.departments (fst (Index.reload numberedDepartment lastGood))
     = [str "Civil"]
  /\ Index.clubs (fst (Index.reload numberedDepartment lastGood))
     = Index.clubs lastGood
  /\ Index.nameSystem (fst (Index.reload numberedDepartment lastGood))
     = Index.nameSystem lastGood.
Proof.
  refine (proj1 (reload_failure_replaces_doctors_only
                   numberedDepartment lastGood) _ _).
  vm_compute. reflexivity.
Defined.

(* ------------------------------------------------------------------ *)
(** ** Office codes *)

Module OfficeFacts.
Import Index Directory.

Lemma starLoop_total c (k : Intent.continuation) :
  (forall caps input, exists r, k caps input = Some r) ->
  forall input caps, exists r, Intent.starLoop c k caps input = Some r.
Proof.
  intros Hk. induction input as [|x input IH]; intro caps; simpl.
  - apply Hk.
  - destruct (Intent.inClass c x); [|apply Hk].
    destruct (IH caps) as [r ->]. eauto.
Qed.

(** The separator matches at every position, if only the empty text. *)
Lemma separator_total input :
  exists caps after, Intent.matchHere separator input = Some (caps, after).
Proof.
  unfold Intent.matchHere, separator. simpl Intent.cat. cbn [Intent.run].
  destruct (starLoop_total Intent.White
              (Intent.run (Intent.Seq (Intent.Opt (Intent.Lit "-"))
                                      (Intent.Star Intent.White))
                          Intent.accept)) with (input := input)
      (caps := repeat (@None jsstring)
                 (Intent.groupCount
                    (Intent.Seq (Intent.Star Intent.White)
                       (Intent.Seq (Intent.Opt (Intent.Lit "-"))
                                   (Intent.Star Intent.White)))))
    as [[caps after] H].
  - intros caps i. cbn [Intent.run].
    destruct (startsWith i (str "-")).
    + destruct (starLoop_total Intent.White Intent.accept) with
        (input := skipn (length (str "-")) i) (caps := caps) as [r Hr];
        [unfold Intent.accept; eauto|].
      rewrite Hr. eauto.
    + apply starLoop_total. unfold Intent.accept. eauto.
  - exists caps, after. exact H.
Qed.

(** Before a unit that is neither white space nor a hyphen the separator
    matches the empty text. *)
Lemma separator_empty_match c rest :
  isWhiteSpace c = false -> c <> 45%N ->
  Intent.matchHere separator (c :: rest) = Some ([], c :: rest).
Proof.
  intros Hw Hc. unfold Intent.matchHere, separator.
  cbn [Intent.cat Intent.run Intent.starLoop Intent.inClass
       Intent.groupCount Nat.max repeat].
  rewrite Hw. change (str "-") with [45%N]. cbn [startsWith].
  assert ((45 =? c)%N = false) as -> by (apply N.eqb_neq; congruence).
  cbn [andb Intent.run Intent.starLoop Intent.inClass]. reflexivity.
Qed.

Lemma splitLoop_closes_piece c rest :
  exists more, splitLoop separator [c] 0 rest = [c] :: more.
Proof.
  destruct rest as [|d rest]; cbn [splitLoop]; [now exists []|].
  destruct (separator_total (d :: rest)) as (caps & after & E).
  rewrite E.
  destruct (length (d :: rest) - length after)%nat; cbn [isEmpty]; eauto.
Qed.

Lemma splitRegex_first_unit c rest :
  isWhiteSpace c = false -> c <> 45%N ->
  exists more, splitRegex separator (c :: rest) = [c] :: more.
Proof.
  intros Hw Hc. unfold splitRegex. cbn [splitLoop].
  rewrite (separator_empty_match c rest Hw Hc).
  rewrite Nat.sub_diag. cbn [isEmpty]. apply splitLoop_closes_piece.
Qed.

Lemma trim_noLead s : noLead (trim s).
Proof. unfold trim. apply trimEnd_noLead, trimStart_noLead. Qed.

End OfficeFacts.

(* ------------------------------------------------------------------ *)
(** X18. [getBuildingInfo] looks the legend up under the upper case of the
    first unit of the trimmed office code and under nothing else: the
    separator [/\s*-?\s*/] also matches the empty text, so [split] cuts
    the code between every two units.  A building whose key has more
    than one letter is therefore never found by its key: for the code
    "IJC-101" the legend is asked for "I". *)
Theorem getBuildingInfo_reads_first_unit (C : UpperCase)
  (this : Index.HTUAssistant) (entries : list (jsstring * Index.Building))
  (officeCode : jsval) (c : N) (rest : jsstring) :
  Index.legend (Index.nameSystem this) = Some entries ->
  truthy officeCode = true ->
  trim (ToString officeCode) = c :: rest ->
  c <> 45%N ->
  Directory.getBuildingInfo this officeCode
  = Returns (mapGet (toUpperCase [c]) entries).
Proof.
  intros Hl Ht Hs Hc. unfold Directory.getBuildingInfo.
  rewrite Hl, Ht, Hs. cbn [negb].
  assert (isWhiteSpace c = false) as Hw.
  { pose proof (OfficeFacts.trim_noLead (ToString officeCode)) as N.
    rewrite Hs in N. exact N. }
  destruct (OfficeFacts.splitRegex_first_unit c rest Hw Hc) as [more ->].
  reflexivity.
Qed.

Lemma getBuildingInfo_reads_first_unit_witness :
  Directory.getBuildingInfo twoBuildings (JStr (str "IJC-101"))
  = Returns (mapGet (toUpperCase (str "I"))
               [ (str "IJC",
                  {| Index.buildingName := str "Innovation Center";
                     Index.nickname := str "IJC";
                     Index.color := str "blue" |});
                 (str "S",
                  {| Index.buildingName := str "South";
                     Index.nickname := str "S";
                     Index.color := str "green" |}) ])
  /\ mapGet (toUpperCase (str "I"))
       (match Index.legend (Index.nameSystem twoBuildings) with
        | Some entries => entries
        | None => []
        end) = None.
Proof.
  split; [|vm_compute; reflexivity].
  apply (getBuildingInfo_reads_first_unit ExcerptUpper.tables twoBuildings _
           (JStr (str "IJC-101")) 73%N (str "JC-101")).
  - reflexivity.
  - reflexivity.
  - vm_compute. reflexivity.
  - discriminate.
Defined.

(* ------------------------------------------------------------------ *)
(** X19. With a legend, [getBuildingInfo] answers [null] for a falsy
    office code, and an office code that is truthy and blank after
    trimming makes it throw, since [split] of the empty text yields no
    piece. *)
Theorem getBuildingInfo_blank_code_throws (C : UpperCase)
  (this : Index.HTUAssistant) (entries : list (jsstring * Index.Building))
  (officeCode : jsval) :
  Index.legend (Index.nameSystem this) = Some entries ->
  (truthy officeCode = false ->
   Directory.getBuildingInfo this officeCode = Returns None)
  /\ (truthy officeCode = true ->
      trim (ToString officeCode) = [] ->
      exists e, Directory.getBuildingInfo this officeCode = Throws e).
Proof.
  intro Hl. unfold Directory.getBuildingInfo. rewrite Hl. split.
  - intro H. now rewrite H.
  - intros Ht Hs. rewrite Ht, Hs. simpl. eauto.
Qed.

Lemma getBuildingInfo_blank_code_throws_witness :
  exists e, Directory.getBuildingInfo twoBuildings (JStr (str "  ")) = Throws e.
Proof.
  refine (proj2 (getBuildingInfo_blank_code_throws ExcerptUpper.tables
                   twoBuildings _ (JStr (str "  ")) eq_refl) _ _).
  - reflexivity.
  - vm_compute. reflexivity.
Defined.

(* ------------------------------------------------------------------ *)
(** ** Markdown escaping *)

Section EscapeFacts.

Lemma backslash_special : isMarkdownSpecial 92%N = true.
Proof. reflexivity. Qed.

Lemma plain_not_backslash c : isMarkdownSpecial c = false -> (c =? 92)%N = false.
Proof.
  intro H. apply N.eqb_neq. intros ->. now rewrite backslash_special in H.
Qed.

Lemma escape_units (s : jsstring) :
  escaped (flat_map escapeUnit s) = true
  /\ unescaped (flat_map escapeUnit s) = s
  /\ length (flat_map escapeUnit s)
     = (length s + length (filter isMarkdownSpecial s))%nat.
Proof.
  induction s as [|c s (IH1 & IH2 & IH3)]; [now repeat split|].
  cbn [flat_map filter]. unfold escapeUnit at 1 3 5.
  destruct (isMarkdownSpecial c) eqn:E.
  - cbn [app escaped unescaped length]. rewrite N.eqb_refl, E, IH1, IH2, IH3.
    repeat split. lia.
  - cbn [app escaped unescaped length].
    rewrite (plain_not_backslash c E), E, IH1, IH2, IH3. now repeat split.
Qed.

End EscapeFacts.

(* ------------------------------------------------------------------ *)
(** X20. [escapeMarkdown] returns the empty text for [undefined], [null],
    [false], [NaN] and the empty text, and escapes the text of every other
    value, 0 included: in the result every unit of the class stands right
    after a backslash that escapes it, dropping the escaping backslashes
    gives the text back, and the result is longer than the text by the
    number of its units of the class. *)
Theorem escapeMarkdown_escapes_every_special (text : jsval) :
  (truthy text = false -> text <> JNum 0 -> escapeMarkdown text = [])
  /\ (truthy text = true \/ text = JNum 0 ->
      escaped (escapeMarkdown text) = true
      /\ unescaped (escapeMarkdown text) = ToString text
      /\ length (escapeMarkdown text)
         = (length (ToString text)
            + length (filter isMarkdownSpecial (ToString text)))%nat).
Proof.
  unfold escapeMarkdown. split.
  - intros Ht Hz. rewrite Ht.
    destruct text as [| |b| |z|s|o]; try reflexivity.
    simpl in Ht. apply negb_false_iff in Ht. apply Z.eqb_eq in Ht.
    subst z. congruence.
  - intros H.
    assert (negb (truthy text)
            && negb (match text with JNum z => (z =? 0)%Z | _ => false end)
            = false) as ->.
    { destruct H as [->| ->]; reflexivity. }
    apply escape_units.
Qed.

Lemma escapeMarkdown_escapes_every_special_witness :
  escaped (escapeMarkdown (JStr (str "Dr. A_B (CS)"))) = true
  /\ unescaped (escapeMarkdown (JStr (str "Dr. A_B (CS)")))
     = str "Dr. A_B (CS)"
  /\ length (escapeMarkdown (JStr (str "Dr. A_B (CS)")))
     = (length (str "Dr. A_B (CS)")
        + length (filter isMarkdownSpecial (str "Dr. A_B (CS)")))%nat.
Proof.
  apply (proj2 (escapeMarkdown_escapes_every_special
                  (JStr (str "Dr. A_B (CS)")))).
  left. reflexivity.
Defined.

(* ------------------------------------------------------------------ *)
(** ** Browsing by department *)

Module BrowseFacts.
Import Index Directory.

Lemma filterM_throws {A} (keep : A -> outcome bool) (l : list A) :
  (exists e, filterM keep l = Throws e)
  <-> exists x, In x l /\ exists e, keep x = Throws e.
Proof.
  induction l as [|x l IH]; simpl.
  - split; [intros [e H]; discriminate H | intros (x & [] & _)].
  - destruct (keep x) as [b|e] eqn:K; simpl.
    + destruct (filterM keep l) as [rs|e] eqn:F; simpl.
      * split; [intros [e H]; discriminate H|].
        intros (y & [<-|Hy] & e & Hk); [congruence|].
        assert (exists e', Returns rs = Throws e') as [e' He']
          by (apply IH; eauto).
        discriminate He'.
      * split; [|eauto]. intros _.
        destruct (proj1 IH (ex_intro _ e eq_refl)) as (y & Hy & Hk).
        exists y. split; [now right | assumption].
    + split; [|eauto]. intros _. exists x. split; [now left | eauto].
Qed.

Lemma filterM_returns {A} (keep : A -> outcome bool) (l rs : list A) :
  filterM keep l = Returns rs -> rs = filter (keeps keep) l.
Proof.
  revert rs. induction l as [|x l IH]; intros rs H; simpl in H.
  - now injection H as <-.
  - simpl. unfold keeps at 1.
    destruct (keep x) as [b|e]; [|discriminate H]. simpl in H.
    destruct (filterM keep l) as [rs'|e]; [|discriminate H]. simpl in H.
    injection H as <-. rewrite <- (IH rs' eq_refl). now destruct b.
Qed.

Section WithTables.
Context {U : Unicode}.

Lemma lowerCased_throws v :
  (exists e, lowerCased v = Throws e) <-> notText v.
Proof.
  unfold notText. destruct v as [| |b| |z|s|o]; simpl;
    try (split; [intros _ s; discriminate | intros _; eauto]).
  split; [intros [e H]; discriminate H | intro H; now destruct (H s)].
Qed.

Lemma inDepartment_throws wanted d :
  (exists e, inDepartment wanted d = Throws e)
  <-> truthy (department d) = true
      /\ (notText (department d) \/ notText wanted).
Proof.
  unfold inDepartment. destruct (truthy (department d)) eqn:T.
  - destruct (lowerCased (department d)) as [own|e] eqn:L1; simpl.
    + destruct (lowerCased wanted) as [sought|e] eqn:L2; simpl.
      * split; [intros [e H]; discriminate H|].
        intros [_ [H|H]]; apply lowerCased_throws in H; destruct H as [e H];
          congruence.
      * split; [|eauto]. intros _. split; [reflexivity|]. right.
        apply lowerCased_throws. eauto.
    + split; [|eauto]. intros _. split; [reflexivity|]. left.
      apply lowerCased_throws. eauto.
  - split; [intros [e H]; discriminate H | intros [H _]; discriminate H].
Qed.

Lemma inDepartment_keeps wanted d :
  keeps (inDepartment wanted) d = true <-> departmentContains wanted d.
Proof.
  unfold keeps, inDepartment, departmentContains.
  destruct (department d) as [| |b| |z|own|o];
    try (split; [simpl; try destruct b; try destruct (negb (z =? 0)%Z);
                 discriminate
                | intros (own & sought & E & _); discriminate E]).
  destruct own as [|c own].
  { split; [discriminate | intros (own & sought & [= <-] & H & _)].
    congruence. }
  cbn [truthy isEmpty negb lowerCased bind].
  destruct wanted as [| |b| |z|sought|o];
    try (split; [discriminate
                | intros (own' & sought & _ & _ & E & _); discriminate E]).
  cbn [lowerCased bind]. split.
  - destruct (includes (toLowerCase (c :: own)) (toLowerCase sought)) eqn:I;
      [|discriminate].
    intros _. exists (c :: own), sought. repeat split; congruence.
  - intros (own' & sought' & [= <-] & _ & [= <-] & I). now rewrite I.
Qed.

End WithTables.

Lemma startsWith_app (p post : jsstring) : startsWith (p ++ post) p = true.
Proof.
  induction p as [|a p IH]; [now destruct post|].
  simpl. now rewrite N.eqb_refl, IH.
Qed.

Lemma includes_startsWith (s p : jsstring) :
  startsWith s p = true -> includes s p = true.
Proof. intro H. destruct s; cbn [includes]; now rewrite H. Qed.

Lemma includes_app (pre p post : jsstring) :
  includes (pre ++ p ++ post) p = true.
Proof.
  induction pre as [|c pre IH]; cbn [app].
  - apply includes_startsWith, startsWith_app.
  - cbn [includes]. rewrite IH. apply orb_true_r.
Qed.

Lemma trimStart_suffix s : exists pre, s = pre ++ trimStart s.
Proof.
  induction s as [|c s (pre & IH)]; [now exists []|].
  simpl. destruct (isWhiteSpace c).
  - exists (c :: pre). simpl. now f_equal.
  - now exists [].
Qed.

Lemma trim_infix s : exists pre post, s = pre ++ trim s ++ post.
Proof.
  unfold trim, trimEnd.
  destruct (trimStart_suffix s) as (pre & E).
  destruct (trimStart_suffix (rev (trimStart s))) as (post & E').
  exists pre, (rev post). rewrite <- rev_app_distr, <- E', rev_involutive.
  exact E.
Qed.

End BrowseFacts.

(* ------------------------------------------------------------------ *)
(** X21. [searchByDepartment] throws when some doctor has a truthy
    department and either that department or the argument is not a text.
    When it returns, it returns the doctors whose department is a text
    that is not empty and contains, in lower case, the lower case of the
    argument, in the order of the collection. *)
Theorem searchByDepartment_filters_in_order (U : Unicode)
  (this : Index.HTUAssistant) (wanted : jsval) :
  (forall d, In d (Index.doctors this) ->
             truthy (department d) = true ->
             notText (department d) \/ notText wanted ->
             exists e, Directory.searchByDepartment this wanted = Throws e)
  /\ forall rs, Directory.searchByDepartment this wanted = Returns rs ->
       (forall d, In d rs
                  <-> In d (Index.doctors this) /\ departmentContains wanted d)
       /\ forall a b, before a b rs -> before a b (Index.doctors this).
Proof.
  unfold Directory.searchByDepartment. split.
  - intros d Hd Ht Hn. apply BrowseFacts.filterM_throws.
    exists d. split; [assumption|].
    now apply BrowseFacts.inDepartment_throws.
  - intros rs H. apply BrowseFacts.filterM_returns in H. subst rs. split.
    + intro d. rewrite filter_In, BrowseFacts.inDepartment_keeps. tauto.
    + intros a b. apply before_of_filter.
Qed.

Lemma searchByDepartment_filters_in_order_witness :
  (exists e,
     Directory.searchByDepartment
       (Index.setDoctors [omarKhalil; omar] lastGood) JNull = Throws e)
  /\ (In omar [omar]
      <-> In omar (Index.doctors (Index.setDoctors [omarKhalil; omar] lastGood))
          /\ departmentContains (JStr (str "civil")) omar).
Proof.
  split.
  - refine (proj1 (searchByDepartment_filters_in_order Excerpt.tables
                     (Index.setDoctors [omarKhalil; omar] lastGood) JNull)
                  omar _ _ _).
    + simpl. auto.
    + reflexivity.
    + right. intros s. discriminate.
  - refine (proj1 (proj2 (searchByDepartment_filters_in_order Excerpt.tables
                            (Index.setDoctors [omarKhalil; omar] lastGood)
                            (JStr (str "civil"))) [omar] _) omar).
    vm_compute. reflexivity.
Defined.

(** Every department [extractDepartments] lists finds its doctors. *)
Lemma extracted_department_finds_its_doctors (U : Unicode)
  (this : Index.HTUAssistant) (ds : list jsstring) (x : jsstring) :
  (forall s, toLowerCase (trim s) = trim (toLowerCase s)) ->
  Index.extractDepartments this = Returns ds ->
  In x ds ->
  exists rs,
    Directory.searchByDepartment this (JStr x) = Returns rs
    /\ rs <> []
    /\ forall d s, In d (Index.doctors this) -> department d = JStr s ->
                   s <> [] -> trim s = x -> In d rs.
Proof.
  intros Hlaw He Hx.
  destruct (Directory.searchByDepartment this (JStr x)) as [rs|e] eqn:S.
  - exists rs. split; [reflexivity|].
    pose proof (BrowseFacts.filterM_returns _ _ _ S) as Hrs.
    assert (forall d s, In d (Index.doctors this) -> department d = JStr s ->
                        s <> [] -> trim s = x -> In d rs) as Hall.
    { intros d s Hd E Hne Ht. rewrite Hrs. apply filter_In.
      split; [assumption|]. apply BrowseFacts.inDepartment_keeps.
      exists s, x. split; [assumption|]. split; [assumption|].
      split; [reflexivity|].
      rewrite <- Ht, Hlaw.
      destruct (BrowseFacts.trim_infix (toLowerCase s)) as (pre & post & Es).
      rewrite Es at 1. apply BrowseFacts.includes_app. }
    split; [|exact Hall].
    apply DepartmentFacts.extractDepartments_returns in He.
    destruct He as [_ Hin]. apply Hin in Hx.
    destruct Hx as (d & Hd & s & E & Hne & Ht).
    intro Hnil. specialize (Hall d s Hd E Hne (eq_sym Ht)).
    rewrite Hnil in Hall. destruct Hall.
  - exfalso.
    assert (exists e, Directory.searchByDepartment this (JStr x) = Throws e)
      as H by eauto.
    unfold Directory.searchByDepartment in H.
    apply BrowseFacts.filterM_throws in H. destruct H as (d & Hd & H).
    apply BrowseFacts.inDepartment_throws in H.
    destruct H as [Ht [Hn|Hn]]; [|now apply (Hn x)].
    assert (exists e, Index.extractDepartments this = Throws e) as [e' He'].
    { unfold Index.extractDepartments.
      destruct (proj2 (DepartmentFacts.collectDepartments_throws
                         (Index.doctors this) [])) as [e' He'].
      - now exists d.
      - exists e'. now rewrite He'. }
    congruence.
Qed.

(* ------------------------------------------------------------------ *)
(** X22. Browsing never comes up empty.  Lowercasing commutes with
    trimming: white space has no case mapping and is no cased letter, so
    it bears on the lower case of no other unit.  Then on an instance the
    constructor has built, for every department [getDepartments] lists,
    [searchByDepartment] returns, its result is not empty, and it holds
    every doctor whose trimmed department is the one listed. *)
Theorem listed_department_finds_its_doctors (U : Unicode)
  (disk : Index.Disk) (this : Index.HTUAssistant) (x : jsstring) :
  (forall s, toLowerCase (trim s) = trim (toLowerCase s)) ->
  Directory.construct disk = Returns this ->
  In x (Directory.getDepartments this) ->
  exists rs,
    Directory.searchByDepartment this (JStr x) = Returns rs
    /\ rs <> []
    /\ forall d s, In d (Index.doctors this) -> department d = JStr s ->
                   s <> [] -> trim s = x -> In d rs.
Proof.
  intros Hlaw Hc Hx. rewrite ReloadFacts.construct_unfold in Hc.
  destruct (Index.extractDepartments
              (Index.setDoctors (Index.loadDoctors disk) Directory.unassigned))
    as [ds|e] eqn:E; [|discriminate Hc].
  injection Hc as <-. unfold Directory.getDepartments in Hx. simpl in Hx.
  apply (extracted_department_finds_its_doctors U _ ds x Hlaw); [|exact Hx].
  rewrite <- E. now apply DepartmentFacts.extractDepartments_doctors.
Qed.

Lemma listed_department_finds_its_doctors_witness :
  exists rs,
    Directory.searchByDepartment
      {| Index.doctors := [omarKhalil; omar; khalilPlain];
         Index.departments := [str "Civil"; str "Computer Science"];
         Index.clubs := [];
         Index.nameSystem := {| Index.legend := None |} |}
      (JStr (str "Civil")) = Returns rs
    /\ rs <> []
    /\ forall d s,
         In d [omarKhalil; omar; khalilPlain] ->
         department d = JStr s -> s <> [] -> trim s = str "Civil" -> In d rs.
Proof.
  apply (listed_department_finds_its_doctors Excerpt.tables threeDoctors
           {| Index.doctors := [omarKhalil; omar; khalilPlain];
              Index.departments := [str "Civil"; str "Computer Science"];
              Index.clubs := [];
              Index.nameSystem := {| Index.legend := None |} |}
           (str "Civil")).
  - intro s. symmetry. apply ExcerptLaws.trim_lower.
  - vm_compute. reflexivity.
  - simpl. auto.
Defined.

(* ------------------------------------------------------------------ *)
(** ** Suggestions *)

Module SuggestionFacts.
Import Index Directory.

Lemma distinct_fold xs : forall acc,
  NoDup acc ->
  NoDup (fold_left (fun set x => setAdd x set) xs acc)
  /\ forall y, In y (fold_left (fun set x => setAdd x set) xs acc)
               <-> In y acc \/ In y xs.
Proof.
  induction xs as [|x xs IH]; intros acc ND; simpl.
  - split; [assumption | tauto].
  - destruct (IH _ (DepartmentFacts.setAdd_NoDup x acc ND)) as [ND' Hin].
    split; [assumption|]. intro y.
    rewrite Hin, DepartmentFacts.setAdd_In. intuition congruence.
Qed.

Lemma distinct_spec xs :
  NoDup (distinct xs) /\ forall y, In y (distinct xs) <-> In y xs.
Proof.
  destruct (distinct_fold xs [] (NoDup_nil _)) as [ND Hin].
  split; [assumption|]. intro y. unfold distinct. rewrite Hin. simpl. tauto.
Qed.

Lemma NoDup_prefix {A} n (l : list A) : NoDup l -> NoDup (firstn n l).
Proof.
  intro H. rewrite <- (firstn_skipn n l) in H.
  now apply NoDup_app_remove_r in H.
Qed.

(** The first three of the distinct suggestions. *)
Lemma firstThree (suggestions : list jsstring) :
  let rs := slice0 3 (distinct suggestions) in
  (length rs <= 3)%nat /\ NoDup rs /\ forall x, In x rs -> In x suggestions.
Proof.
  intro rs. subst rs. rewrite slice0_firstn by lia.
  destruct (distinct_spec suggestions) as [ND Hin].
  split; [rewrite length_firstn; lia|].
  split; [now apply NoDup_prefix|].
  intros x Hx. apply Hin. now apply In_firstn in Hx.
Qed.

Lemma corrections_In table queryLower x :
  In x (corrections table queryLower) -> In x (correctionsOf table).
Proof.
  unfold corrections, correctionsOf. rewrite !in_map_iff.
  intros (e & E & He). apply filter_In in He. exists e. tauto.
Qed.

Section WithTables.
Context {U : Unicode}.

Lemma similarNames_returns queryLower doctors : forall names,
  similarNames queryLower doctors = Returns names ->
  forall x, In x names -> exists d, In d doctors /\ name d = JStr x.
Proof.
  induction doctors as [|d doctors IH]; intros names H x Hx; simpl in H.
  - injection H as <-. destruct Hx.
  - destruct (truthy (name d)) eqn:T.
    + destruct (name d) as [| |b| |z|s|o] eqn:Nm; try discriminate H.
      simpl in H.
      destruct (similarNames queryLower doctors) as [others|e];
        [|discriminate H].
      simpl in H. injection H as <-.
      destruct (similar (toLowerCase s) queryLower).
      * destruct Hx as [<-|Hx].
        -- exists d. split; [now left | assumption].
        -- destruct (IH _ eq_refl x Hx) as (d' & Hd' & E).
           exists d'. split; [now right | assumption].
      * destruct (IH _ eq_refl x Hx) as (d' & Hd' & E).
        exists d'. split; [now right | assumption].
    + destruct (IH _ H x Hx) as (d' & Hd' & E).
      exists d'. split; [now right | assumption].
Qed.

Lemma similarNames_throws queryLower doctors :
  (exists e, similarNames queryLower doctors = Throws e)
  <-> exists d, In d doctors /\ truthy (name d) = true /\ notText (name d).
Proof.
  induction doctors as [|d doctors IH]; simpl.
  - split; [intros [e H]; discriminate H | intros (d & [] & _)].
  - destruct (truthy (name d)) eqn:T.
    + destruct (lowerCased (name d)) as [nameLower|e] eqn:L; simpl.
      * destruct (similarNames queryLower doctors) as [others|e] eqn:S; simpl.
        -- split; [intros [e H]; discriminate H|].
           intros (d' & [<-|Hd'] & Ht & Hn).
           ++ apply BrowseFacts.lowerCased_throws in Hn.
              destruct Hn as [e Hn]. congruence.
           ++ assert (exists e, Returns others = Throws e) as [e He]
                by (apply IH; eauto).
              discriminate He.
        -- split; [|eauto]. intros _.
           destruct (proj1 IH (ex_intro _ e eq_refl)) as (d' & Hd' & H).
           exists d'. split; [now right | assumption].
      * split; [|eauto]. intros _. exists d. split; [now left|].
        split; [assumption|]. apply BrowseFacts.lowerCased_throws. eauto.
    + rewrite IH. split.
      * intros (d' & Hd' & H). exists d'. split; [now right | assumption].
      * intros (d' & [<-|Hd'] & Ht & Hn); [congruence|].
        exists d'. now split.
Qed.

Lemma lowerCased_orEmpty_throws query :
  (exists e, lowerCased (orEmpty query) = Throws e)
  <-> truthy query = true /\ notText query.
Proof.
  unfold orEmpty. destruct (truthy query) eqn:T.
  - rewrite BrowseFacts.lowerCased_throws. tauto.
  - simpl. split; [intros [e H]; discriminate H | intros [H _]; discriminate H].
Qed.

End WithTables.

End SuggestionFacts.

(* ------------------------------------------------------------------ *)
(** X23. [getSmartSuggestions] takes an absent query for the empty text.
    It throws when the query is truthy and not a text, and when some
    doctor has a truthy name that is not a text.  When it returns, it
    returns at most three suggestions, no suggestion twice, each a
    department of the index, the name of a doctor or a correction of
    [commonMistakes]. *)
Theorem getSmartSuggestions_three_distinct (U : Unicode)
  (this : Index.HTUAssistant) (query : jsval) :
  (truthy query = true -> notText query ->
   exists e, Directory.getSmartSuggestions this query = Throws e)
  /\ (forall d, In d (Index.doctors this) ->
                truthy (name d) = true -> notText (name d) ->
                exists e, Directory.getSmartSuggestions this query = Throws e)
  /\ forall rs, Directory.getSmartSuggestions this query = Returns rs ->
       (length rs <= 3)%nat
       /\ NoDup rs
       /\ forall x, In x rs ->
            In x (Index.departments this)
            \/ (exists d, In d (Index.doctors this) /\ name d = JStr x)
            \/ In x (correctionsOf Directory.commonMistakes).
Proof.
  unfold Directory.getSmartSuggestions.
  pose proof (SuggestionFacts.lowerCased_orEmpty_throws query) as Hq.
  destruct (Directory.lowerCased (orEmpty query)) as [queryLower|e] eqn:L;
    simpl.
  - pose proof (SuggestionFacts.similarNames_throws queryLower
                  (Index.doctors this)) as Hn.
    pose proof (SuggestionFacts.similarNames_returns queryLower
                  (Index.doctors this)) as Hr.
    destruct (Directory.similarNames queryLower (Index.doctors this))
      as [fromDoctors|e] eqn:S; simpl.
    + split; [|split].
      * intros Ht Hs. destruct (proj2 Hq (conj Ht Hs)) as [e H].
        discriminate H.
      * intros d Hd Ht Hs.
        destruct (proj2 Hn (ex_intro _ d (conj Hd (conj Ht Hs)))) as [e H].
        discriminate H.
      * intros rs [= <-].
        destruct (SuggestionFacts.firstThree
                    (filter (fun dept =>
                               Directory.similar (toLowerCase dept) queryLower)
                            (Index.departments this)
                     ++ fromDoctors
                     ++ Directory.corrections Directory.commonMistakes
                          queryLower)) as (Hlen & ND & Hin).
        split; [exact Hlen|]. split; [exact ND|].
        intros x Hx. apply Hin in Hx. rewrite !in_app_iff in Hx.
        destruct Hx as [Hx|[Hx|Hx]].
        -- left. now apply filter_In in Hx.
        -- right; left. now apply (Hr fromDoctors eq_refl).
        -- right; right. exact (SuggestionFacts.corrections_In _ _ _ Hx).
    + split; [eauto|]. split; [eauto|]. discriminate.
  - split; [eauto|]. split; [eauto|]. discriminate.
Qed.

Lemma getSmartSuggestions_three_distinct_witness :
  (exists e, Directory.getSmartSuggestions lastGood (JNum 7) = Throws e)
  /\ (length [str "Civil"] <= 3)%nat
  /\ NoDup [str "Civil"]
  /\ forall x, In x [str "Civil"] ->
       In x (Index.departments lastGood)
       \/ (exists d, In d (Index.doctors lastGood) /\ name d = JStr x)
       \/ In x (correctionsOf Directory.commonMistakes).
Proof.
  split.
  - refine (proj1 (getSmartSuggestions_three_distinct Excerpt.tables lastGood
                     (JNum 7)) _ _).
    + reflexivity.
    + intros s. discriminate.
  - apply (proj2 (proj2 (getSmartSuggestions_three_distinct Excerpt.tables
                           lastGood (JStr (str "civil"))))).
    vm_compute. reflexivity.
Defined.

(* ------------------------------------------------------------------ *)
(** X24. [getClubSuggestions] returns at most three suggestions, no
    suggestion twice, each the name of a club, the type of a club or a
    suggestion of [commonTerms].  Unlike [getSmartSuggestions] it does not
    guard the query: it throws exactly when the query is not a text,
    [undefined] and [null] included. *)
Theorem getClubSuggestions_three_distinct (U : Unicode)
  (this : Index.HTUAssistant) (query : jsval) :
  ((exists e, Directory.getClubSuggestions this query = Throws e)
   <-> notText query)
  /\ forall rs, Directory.getClubSuggestions this query = Returns rs ->
       (length rs <= 3)%nat
       /\ NoDup rs
       /\ forall x, In x rs ->
            In x (map clubName (Index.clubs this))
            \/ In x (map clubType (Index.clubs this))
            \/ In x (correctionsOf Directory.commonTerms).
Proof.
  unfold Directory.getClubSuggestions.
  pose proof (BrowseFacts.lowerCased_throws query) as Hq.
  destruct (Directory.lowerCased query) as [queryLower|e] eqn:L; simpl.
  - split.
    + split; [intros [e H]; discriminate H|].
      intro H. apply Hq in H. destruct H as [e H]. discriminate H.
    + intros rs [= <-].
      match goal with
      | |- context [slice0 3 (Directory.distinct ?l)] =>
          destruct (SuggestionFacts.firstThree l) as (Hlen & ND & Hin)
      end.
      split; [exact Hlen|]. split; [exact ND|].
      intros x Hx. apply Hin in Hx. rewrite !in_app_iff in Hx.
      destruct Hx as [Hx|[Hx|Hx]].
      * left. apply in_map_iff in Hx. destruct Hx as (c & <- & Hc).
        apply filter_In in Hc. apply in_map. tauto.
      * right; left. apply filter_In in Hx. destruct Hx as [Hx _].
        exact (proj1 (proj2 (SuggestionFacts.distinct_spec _) x) Hx).
      * right; right. exact (SuggestionFacts.corrections_In _ _ _ Hx).
  - split; [|discriminate]. split; [|eauto]. intros _. apply Hq. eauto.
Qed.

Lemma getClubSuggestions_three_distinct_witness :
  (length [str "Chess"; str "Chess Club"] <= 3)%nat
  /\ NoDup [str "Chess"; str "Chess Club"]
  /\ forall x, In x [str "Chess"; str "Chess Club"] ->
       In x (map clubName (Index.clubs lastGood))
       \/ In x (map clubType (Index.clubs lastGood))
       \/ In x (correctionsOf Directory.commonTerms).
Proof.
  apply (proj2 (getClubSuggestions_three_distinct Excerpt.tables lastGood
                  (JStr (str "chess")))).
  vm_compute. reflexivity.
Defined.

(* ------------------------------------------------------------------ *)
(** ** The shape of a normalized text *)

Section ShapeFacts.
Context {U : Unicode}.

Lemma spaced_white l c :
  spaced l -> In c l -> isWhiteSpace c = true -> c = 32%N.
Proof.
  induction l as [|d l IH]; simpl; [tauto|].
  intros [H1 H2] [<-|Hc] Hw; [now destruct (H1 Hw) | now apply IH].
Qed.

Lemma finish_shape (s : jsstring) :
  let r := finish (filter (fun c => negb (isDiacritic c)) s) in
  trim r = r
  /\ collapseSpaces r = r
  /\ (forall c, In c r -> isWhiteSpace c = true -> c = 32%N)
  /\ (forall c, In c r ->
        c = 32%N \/ (isDiacritic c = false /\ isPunctuation c = false)).
Proof.
  intro r. subst r. unfold finish.
  set (t := map (fun c => if isPunctuation c then 32%N else c)
                (filter (fun c => negb (isDiacritic c)) s)).
  assert (spaced (trim (collapseSpaces t))) as Hs.
  { unfold trim. apply spaced_trimEnd, spaced_trimStart.
    apply collapseFrom_spaced. }
  split; [apply trim_idem|].
  split; [apply (proj1 (collapseFrom_fixed _ Hs))|].
  split; [intros c Hc; now apply (spaced_white _ c Hs)|].
  intros c Hc. apply trim_In in Hc. unfold collapseSpaces in Hc.
  destruct (collapseFrom_In _ _ _ Hc) as [->|Hc']; [now left|].
  unfold t in Hc'. apply in_map_iff in Hc'.
  destruct Hc' as (d & E & Hd). apply filter_In in Hd.
  destruct Hd as [_ Hd]. apply negb_true_iff in Hd.
  destruct (isPunctuation d) eqn:Ep; [now left | right; now subst].
Qed.

End ShapeFacts.

(* ------------------------------------------------------------------ *)
(** X25. What [normalize] returns is tidy, whatever the value and the
    Unicode tables: it has no white space at either end, its runs of
    white space are single spaces (U+0020), and each of its units is the
    space or a unit that is neither a diacritic nor punctuation. *)
Theorem normalize_result_is_tidy (U : Unicode) (text : jsval) :
  trim (normalize text) = normalize text
  /\ collapseSpaces (normalize text) = normalize text
  /\ (forall c, In c (normalize text) -> isWhiteSpace c = true -> c = 32%N)
  /\ (forall c, In c (normalize text) ->
        c = 32%N \/ (isDiacritic c = false /\ isPunctuation c = false)).
Proof.
  destruct (normalize_cases text) as [E|E]; rewrite E.
  - repeat split; intros c [].
  - apply finish_shape.
Qed.

(* ------------------------------------------------------------------ *)
(** ** The entity of a parsed query *)

Module EntityFacts.
Import Intent.

Lemma setCapture_In v s : forall caps n,
  In (Some s) (setCapture n v caps) -> s = v \/ In (Some s) caps.
Proof.
  induction caps as [|c caps IH]; intros n H.
  - destruct n as [|[|n]]; simpl in H; destruct H.
  - destruct n as [|[|n]]; simpl in H.
    + now right.
    + destruct H as [[= <-]|H]; [now left | right; now right].
    + destruct H as [<-|H]; [right; now left|].
      destruct (IH (S n) H) as [->|H']; [now left | right; now right].
Qed.

Lemma setCapture_drawn text n v caps :
  drawnFrom text caps -> (forall c, In c v -> In c text) ->
  drawnFrom text (setCapture n v caps).
Proof.
  intros Hc Hv s Hs. apply setCapture_In in Hs.
  destruct Hs as [->|Hs]; [exact Hv | now apply Hc].
Qed.

(** A successful run hands to its continuation captures made of units of
    the text, and a rest made of units of its input. *)
Lemma run_drawn text r : forall k caps input res,
  run r k caps input = Some res ->
  (forall c, In c input -> In c text) ->
  drawnFrom text caps ->
  exists caps' rest,
    k caps' rest = Some res /\ drawnFrom text caps'
    /\ forall c, In c rest -> In c input.
Proof.
  induction r as [s|c|c|r IH|r1 IH1 r2 IH2|r1 IH1 r2 IH2|n r IH];
    intros k caps input res H Hin Hd; simpl in H.
  - destruct (startsWith input (str s)); [|discriminate].
    exists caps, (skipn (length (str s)) input).
    split; [assumption|]. split; [assumption|].
    intros x Hx. rewrite <- (firstn_skipn (length (str s)) input).
    apply in_app_iff. now right.
  - destruct (IntentFacts.starLoop_consumes _ _ _ _ _ H)
      as (pre & rest & -> & Hk).
    exists caps, rest. split; [assumption|]. split; [assumption|].
    intros x Hx. apply in_app_iff. now right.
  - destruct input as [|x input]; [discriminate|].
    destruct (inClass c x); [|discriminate].
    destruct (IntentFacts.starLoop_consumes _ _ _ _ _ H)
      as (pre & rest & -> & Hk).
    exists caps, rest. split; [assumption|]. split; [assumption|].
    intros y Hy. right. apply in_app_iff. now right.
  - destruct (run r k caps input) as [r0|] eqn:E.
    + injection H as <-. now apply (IH _ _ _ _ E).
    + exists caps, input. auto.
  - destruct (IH1 _ _ _ _ H Hin Hd) as (caps1 & rest1 & H1 & Hd1 & Hr1).
    destruct (IH2 _ _ _ _ H1 (fun c Hc => Hin c (Hr1 c Hc)) Hd1)
      as (caps2 & rest2 & H2 & Hd2 & Hr2).
    exists caps2, rest2. split; [assumption|]. split; [assumption|]. auto.
  - destruct (run r1 k caps input) as [r0|] eqn:E.
    + injection H as <-. now apply (IH1 _ _ _ _ E).
    + now apply (IH2 _ _ _ _ H).
  - destruct (IH _ _ _ _ H Hin Hd) as (caps1 & rest1 & H1 & Hd1 & Hr1).
    exists (setCapture n (firstn (length input - length rest1) input) caps1),
      rest1.
    split; [assumption|]. split; [|assumption].
    apply setCapture_drawn; [assumption|].
    intros x Hx. apply Hin. now apply In_firstn in Hx.
Qed.

Lemma matchHere_drawn r input caps rest :
  matchHere r input = Some (caps, rest) ->
  drawnFrom input caps /\ forall c, In c rest -> In c input.
Proof.
  unfold matchHere. intro H.
  destruct (run_drawn input r _ _ _ _ H (fun c Hc => Hc))
    as (caps' & rest' & Ha & Hd & Hr).
  - intros s Hs. apply repeat_spec in Hs. discriminate.
  - unfold accept in Ha. injection Ha as <- <-. now split.
Qed.

Lemma matchFrom_drawn r : forall input caps,
  matchFrom r input = Some caps -> drawnFrom input caps.
Proof.
  induction input as [|x input IH]; intros caps H; simpl in H.
  - destruct (matchHere r []) as [[caps' rest]|] eqn:E; [|discriminate].
    injection H as <-. now apply matchHere_drawn in E.
  - destruct (matchHere r (x :: input)) as [[caps' rest]|] eqn:E.
    + injection H as <-. now apply matchHere_drawn in E.
    + intros s Hs c Hc. right. exact (IH caps H s Hs c Hc).
Qed.

Lemma firstPattern_drawn ps text caps :
  firstPattern ps text = Some caps -> drawnFrom text caps.
Proof.
  induction ps as [|p ps IH]; simpl; [discriminate|].
  destruct (matchFrom p text) as [caps'|] eqn:E; [|exact IH].
  intros [= <-]. now apply matchFrom_drawn in E.
Qed.

Lemma firstIntent_drawn table text tag caps :
  firstIntent table text = Some (tag, caps) ->
  drawnFrom text caps /\ In tag (map fst table).
Proof.
  induction table as [|[t ps] table IH]; simpl; [discriminate|].
  destruct (firstPattern ps text) as [caps'|] eqn:E.
  - intros [= <- <-]. split; [now apply firstPattern_drawn in E | now left].
  - intro H. destruct (IH H). split; [assumption | now right].
Qed.

Lemma last_In {A} (l : list (option A)) (s : A) :
  last l None = Some s -> In (Some s) l.
Proof.
  induction l as [|x l IH]; [discriminate|].
  destruct l as [|y l]; [intro H; simpl in H; subst x; now left|].
  intro H. right. now apply IH.
Qed.

Lemma orElse_cases (v : option jsstring) (w : jsstring) :
  orElse v w = w \/ v = Some (orElse v w).
Proof.
  unfold orElse. destruct v as [s|]; [|now left].
  destruct (isEmpty s); [now left | now right].
Qed.

Lemma stripMarks_In (s : jsstring) (c : N) :
  In c (stripMarks s) -> In c s /\ isMark c = false.
Proof.
  unfold stripMarks. intro H. apply filter_In in H. destruct H as [H1 H2].
  split; [now apply trim_In|]. now apply negb_true_iff in H2.
Qed.

Lemma entityOf_drawn text caps c :
  drawnFrom text caps -> In c (entityOf caps) ->
  In c text /\ isMark c = false.
Proof.
  intros Hd Hc. destruct caps as [|first caps]; [destruct Hc|].
  unfold entityOf in Hc. apply stripMarks_In in Hc.
  destruct Hc as [Hc Hm]. split; [|exact Hm].
  destruct (orElse_cases (last (first :: caps) None) (orElse first []))
    as [E|E].
  - rewrite E in Hc.
    destruct (orElse_cases first []) as [E'|E'].
    + rewrite E' in Hc. destruct Hc.
    + apply (Hd (orElse first [])); [|exact Hc]. left. now symmetry.
  - apply (Hd _ (last_In _ _ E)). exact Hc.
Qed.

End EntityFacts.

(* ------------------------------------------------------------------ *)
(** X26. The entity [parseNaturalLanguageQuery] extracts is made of units
    of the lowercased, trimmed query: the extractor never invents text.
    When a pattern matched, the intent is not [question], the confidence
    is 0.8 and the entity holds none of [?], [.], [,] and [!]; otherwise
    the result is the fallback [question] with confidence 0.6. *)
Theorem parse_entity_drawn_from_query (U : Unicode)
  (q : jsstring) (r : Intent.IntentResult) :
  Intent.parseNaturalLanguageQuery (JStr q) = Returns (Some r) ->
  (forall c, In c (Intent.entity r) -> In c (trim (toLowerCase q)))
  /\ Intent.originalQuery r = JStr q
  /\ ((Intent.intent r <> Intent.question
       /\ Intent.confidence r = 8 # 10
       /\ forall c, In c (Intent.entity r) -> isMark c = false)
      \/ (Intent.intent r = Intent.question
          /\ Intent.confidence r = 6 # 10
          /\ Intent.firstIntent Intent.patterns (trim (toLowerCase q)) = None)).
Proof.
  unfold Intent.parseNaturalLanguageQuery.
  set (text := trim (toLowerCase q)).
  destruct (Intent.firstIntent Intent.patterns text) as [[tag caps]|] eqn:E.
  - intros [= <-]. cbn [Intent.entity Intent.originalQuery Intent.intent
                        Intent.confidence].
    apply EntityFacts.firstIntent_drawn in E. destruct E as [Hd Htag].
    split; [intros c Hc; now apply (EntityFacts.entityOf_drawn text caps c)|].
    split; [reflexivity|]. left.
    split.
    { intros ->. simpl in Htag.
      repeat (destruct Htag as [Htag|Htag]; [discriminate Htag|]).
      exact Htag. }
    split; [reflexivity|].
    intros c Hc. now apply (EntityFacts.entityOf_drawn text caps c).
  - destruct (includes text (str "what") || includes text (str "who")
              || includes text (str "where") || includes text (str "when")
              || includes text (str "how")); [|discriminate].
    intros [= <-]. cbn [Intent.entity Intent.originalQuery Intent.intent
                        Intent.confidence].
    split.
    { intros c Hc.
      destruct (Intent.matchHere Intent.questionLead text)
        as [[caps rest]|] eqn:M; [|exact Hc].
      apply EntityFacts.matchHere_drawn in M. now apply M. }
    split; [reflexivity|]. right. now repeat split.
Qed.

Lemma parse_entity_drawn_from_query_witness :
  exists r,
    Intent.parseNaturalLanguageQuery (JStr (str "Who is Dr. Omar?"))
    = Returns (Some r)
    /\ Intent.entity r = str "dr omar"
    /\ (forall c, In c (Intent.entity r) ->
          In c (trim (toLowerCase (str "Who is Dr. Omar?"))))
    /\ Intent.originalQuery r = JStr (str "Who is Dr. Omar?").
Proof.
  eexists. split; [vm_compute; reflexivity|]. split; [reflexivity|].
  split.
  - refine (proj1 (parse_entity_drawn_from_query Excerpt.tables
                     (str "Who is Dr. Omar?") _ _)).
    vm_compute. reflexivity.
  - reflexivity.
Defined.

(* ------------------------------------------------------------------ *)
(** ** The matching loop of [jaroWinkler] *)

Section MatchingFacts.

Lemma findSlot_absent c s2 flags : forall n j,
  (forall x, In x s2 -> x <> c) ->
  (0 < n -> j + n <= length s2)%nat ->
  findSlot c s2 flags j n = None.
Proof.
  induction n as [|n IH]; intros j Hc Hn; [reflexivity|].
  simpl.
  assert (j < length s2)%nat as Hj by lia.
  assert ((c =? nth j s2 0%N)%N = false) as E.
  { apply N.eqb_neq. intro H. apply (Hc (nth j s2 0%N)); [|congruence].
    now apply nth_In. }
  rewrite E. cbn [negb].
  destruct (nth j flags false); apply IH; try assumption; lia.
Qed.

Lemma matchStep_no_common s1 s2 st i :
  (forall x, In x s1 -> ~ In x s2) -> (i < length s1)%nat ->
  matchStep s1 s2 st i = st.
Proof.
  intros Hd Hi. unfold matchStep.
  rewrite findSlot_absent; [reflexivity | |].
  - intros x Hx E. subst x. apply (Hd (nth i s1 0%N)); [|assumption].
    now apply nth_In.
  - lia.
Qed.

Lemma findMatches_no_common s1 s2 :
  (forall x, In x s1 -> ~ In x s2) -> matches (findMatches s1 s2) = 0%nat.
Proof.
  intro Hd. unfold findMatches.
  assert (forall l st, (forall i, In i l -> (i < length s1)%nat) ->
            fold_left (matchStep s1 s2) l st = st) as H.
  { induction l as [|i l IH]; intros st Hl; [reflexivity|].
    simpl. rewrite matchStep_no_common; [|assumption|apply Hl; now left].
    apply IH. intros j Hj. apply Hl. now right. }
  rewrite H; [reflexivity|].
  intros i Hi. apply in_seq in Hi. lia.
Qed.

End MatchingFacts.

(* ------------------------------------------------------------------ *)
(** X27. Texts without a common unit have [jaroWinkler] score 0. *)
Theorem jaroWinkler_zero_without_common_unit (s1 s2 : jsstring) :
  (forall x, In x s1 -> ~ In x s2) -> jaroWinkler s1 s2 = 0%Q.
Proof.
  intro Hd. unfold jaroWinkler.
  destruct (isEmpty s1 || isEmpty s2); [reflexivity|].
  now rewrite (findMatches_no_common s1 s2 Hd).
Qed.

Lemma jaroWinkler_zero_without_common_unit_witness :
  jaroWinkler (str "omar") (str "kyle") = 0%Q.
Proof.
  apply (jaroWinkler_zero_without_common_unit (str "omar") (str "kyle")).
  intros x Hx Hy. simpl in Hx, Hy.
  repeat (destruct Hx as [Hx|Hx];
          [subst x;
           repeat (destruct Hy as [Hy|Hy]; [discriminate Hy|]); exact Hy|]).
  exact Hx.
Defined.

(* ------------------------------------------------------------------ *)
(** X28. In [jaroWinkler] the matching loop marks as many slots in the
    second text as in the first, that number is [matches] and is at most
    the length of either text; so the scan [while (!s2Matches[k]) k++] of
    the transposition loop finds a marked slot every time and never runs
    past the end of the second text. *)
Theorem jaroWinkler_scan_stays_in_bounds (s1 s2 : jsstring) :
  let st := findMatches s1 s2 in
  takenCount (s1Matches st) = matches st
  /\ takenCount (s2Matches st) = matches st
  /\ (matches st <= Nat.min (length s1) (length s2))%nat
  /\ whileStops (combine s1 (s1Matches st)) (combine s2 (s2Matches st)).
Proof.
  intro st. subst st.
  destruct (findMatches_invariant s1 s2) as (L1 & L2 & C1 & C2 & _).
  split; [exact C1|]. split; [exact C2|]. split.
  - pose proof (takenCount_le (s1Matches (findMatches s1 s2))).
    pose proof (takenCount_le (s2Matches (findMatches s1 s2))). lia.
  - apply transposition_loop_stops.
Qed.

(* ------------------------------------------------------------------ *)
(** ** The cap on the results *)

Section CapFacts.

Lemma slice0_nested {A} (small large : Z) (l : list A) :
  (0 <= small <= large)%Z ->
  slice0 small l = firstn (Z.to_nat small) (slice0 large l).
Proof.
  intro H. rewrite !slice0_firstn by lia.
  rewrite firstn_firstn. f_equal. lia.
Qed.

End CapFacts.

(* ------------------------------------------------------------------ *)
(** X29. Raising [MAX_RESULTS] only appends results: for caps
    [0 <= small <= large], what [search] returns under the smaller cap is
    the first [small] of what it returns under the larger, and likewise
    for [searchClubs]; so with the cap 0 nothing is returned. *)
Theorem smaller_cap_returns_a_prefix (U : Unicode)
  (small large : Config) (doctors : list Doctor) (clubs : list Club)
  (query : jsval) :
  (0 <= MAX_RESULTS small <= MAX_RESULTS large)%Z ->
  (forall rs, search large doctors query = Returns rs ->
     search small doctors query
     = Returns (firstn (Z.to_nat (MAX_RESULTS small)) rs))
  /\ (forall cs, searchClubs large clubs query = Returns cs ->
        searchClubs small clubs query
        = Returns (firstn (Z.to_nat (MAX_RESULTS small)) cs)).
Proof.
  intro H. unfold search, searchClubs. split.
  - intros rs. destruct (negb (truthy query)).
    { intros [= <-]. now rewrite firstn_nil. }
    destruct query as [| |b| |z|q|o]; try discriminate.
    destruct (length (trim q) <? 2)%nat.
    { intros [= <-]. now rewrite firstn_nil. }
    intros [= <-]. rewrite (slice0_nested _ _ _ H), firstn_map. reflexivity.
  - intros cs. destruct (negb (truthy query)).
    { intros [= <-]. now rewrite firstn_nil. }
    destruct query as [| |b| |z|q|o]; try discriminate.
    destruct (length (trim q) <? 2)%nat.
    { intros [= <-]. now rewrite firstn_nil. }
    intros [= <-]. rewrite (slice0_nested _ _ _ H), firstn_map. reflexivity.
Qed.

Lemma smaller_cap_returns_a_prefix_witness :
  search {| MAX_RESULTS := 1 |} [omarKhalil; omar] (JStr (str "omar"))
  = Returns (firstn (Z.to_nat 1) [omar; omarKhalil]).
Proof.
  refine (proj1 (smaller_cap_returns_a_prefix Excerpt.tables
                   {| MAX_RESULTS := 1 |} defaultConfig
                   [omarKhalil; omar] [] (JStr (str "omar")) _)
                [omar; omarKhalil] _).
  - simpl. lia.
  - vm_compute. reflexivity.
Defined.

(* ------------------------------------------------------------------ *)
(** X30. The threshold of the suggestions bounds the lengths: two texts
    that [getSmartSuggestions] and [getClubSuggestions] take for similar
    (similarity above 0.6) are both empty, or the shorter has more than
    six tenths of the length of the longer; a query of two letters is
    never similar to a name of four letters or more. *)
Theorem similar_texts_have_close_lengths (a b : jsstring) :
  Directory.similar a b = true ->
  (a = [] /\ b = [])
  \/ (6 * Nat.max (length a) (length b)
      < 10 * Nat.min (length a) (length b))%nat.
Proof.
  unfold Directory.similar.
  destruct (Qlt_le_dec (6 # 10) (calculateSimilarity a b)) as [H|H];
    [|discriminate].
  intros _.
  destruct (calculateSimilarity_bounds a b) as [_ Hr].
  set (M := Nat.max (length a) (length b)) in *.
  set (m := Nat.min (length a) (length b)) in *.
  destruct (Nat.eq_dec M 0) as [E|E].
  - left. unfold M in E. destruct a, b; simpl in E; try lia. now split.
  - right.
    assert (0 < ofNat M)%Q as HM by (apply ofNat_pos; lia).
    assert ((6 # 10) * ofNat M < ofNat m)%Q as Hlt.
    { eapply Qlt_le_trans; [|exact Hr]. apply Qmult_lt_compat_r; assumption. }
    unfold Qlt, Qmult, ofNat, inject_Z in Hlt. cbn [Qnum Qden] in Hlt.
    change (Z.pos (10 * 1)) with 10%Z in Hlt. lia.
Qed.

Lemma similar_texts_have_close_lengths_witness :
  (str "civil" = [] /\ str "civic" = [])
  \/ (6 * Nat.max (length (str "civil")) (length (str "civic"))
      < 10 * Nat.min (length (str "civil")) (length (str "civic")))%nat.
Proof.
  apply (similar_texts_have_close_lengths (str "civil") (str "civic")).
  vm_compute. reflexivity.
Defined.
